(** * The C boundary of the KLL quantile sketch (wrapper.cpp / wrapper.h)

    The repository exposes a quantile-sketch engine, the class template
    [kll_sketch<T>], through a C surface of opaque handles, once for [float]
    items and once for [double] items.  This development embeds the wrapper
    functions of [src/libdatasketches_sys/wrapper.cpp] and states the
    properties of that surface.

    The engine itself lives in the bundled [datasketches-cpp] tree, which is
    not part of the wrapper sources.  The wrapper is therefore written against
    an interface ([kll_sketch.engine]); a reference engine that follows the
    natural-language specification of the engine is given in [Module Kll]. *)

From Stdlib Require Import ZArith NArith List Bool Lia.
From Stdlib.Strings Require Import Byte.
From Stdlib Require Import SpecFloat.
From stdpp Require Import base option list gmap.
Import ListNotations.

Local Open Scope N_scope.

(** ** Errors, engine results, and what the C caller observes *)

(** The error taxonomy of the engine (exceptions thrown by [kll_sketch<T>]). *)
Inductive exn : Type :=
  | ConstructionError
  | EmptySketchError
  | RangeError
  | DeserializationError
  | AllocationFailure.

(** Result of a call into the engine: it returns or it throws. *)
Inductive res (A : Type) : Type :=
  | Ok (a : A)
  | Throw (e : exn).
Arguments Ok {A} a.
Arguments Throw {A} e.

#[global] Instance res_ret : MRet res := fun A a => Ok a.
#[global] Instance res_bind : MBind res := fun A B f r =>
  match r with
  | Ok a => f a
  | Throw e => Throw e
  end.

(** A reader that throws nothing but [DeserializationError]. *)
Definition throws_only_de {A : Type} (r : res A) : Prop :=
  ∀ e, r = Throw e -> e = DeserializationError.

(** Result of a call to an [extern "C"] function, as seen from the caller:
    - [Returns a]: the function returns [a];
    - [Escapes e]: an exception thrown by the engine leaves the function
      (no [try] block encloses the throwing call);
    - [Undefined]: the function dereferences a handle that is not a live
      sketch, or indexes an array outside its bounds. *)
Inductive outcome (A : Type) : Type :=
  | Returns (a : A)
  | Escapes (e : exn)
  | Undefined.
Arguments Returns {A} a.
Arguments Escapes {A} e.
Arguments Undefined {A}.

(** Code inside a [try] block runs on memory of type [A] (here: the caller's
    results array).  It completes, or throws after having changed the memory
    to [a], or faults. *)
Inductive run (A : Type) : Type :=
  | Done (a : A)
  | Raised (e : exn) (a : A)
  | Fault.
Arguments Done {A} a.
Arguments Raised {A} e a.
Arguments Fault {A}.

(** [try { body } catch (...) { }] around a body that returns nothing: the
    exception is dropped and the function returns normally. *)
Definition catch_all {A} (r : run A) : outcome A :=
  match r with
  | Done a => Returns a
  | Raised _ a => Returns a
  | Fault => Undefined
  end.

Definition outcome_map {A B} (f : A -> B) (o : outcome A) : outcome B :=
  match o with
  | Returns a => Returns (f a)
  | Escapes e => Escapes e
  | Undefined => Undefined
  end.

(** ** Numeric types of the C surface *)

(** Bytes and little-endian integers. *)
Definition byte_of_N (x : N) : byte := default x00 (Byte.of_N (x mod 256)).

Fixpoint le_encode (w : nat) (x : N) : list byte :=
  match w with
  | O => []
  | S w' => byte_of_N x :: le_encode w' (x / 256)
  end.

Fixpoint le_decode (bs : list byte) : N :=
  match bs with
  | [] => 0
  | b :: bs' => Byte.to_N b + 256 * le_decode bs'
  end.

(** Variable-length unsigned integers: seven bits per byte, the least
    significant group first; the top bit of a byte says that more follow.
    [S (N.size x)] steps are enough for [x]. *)
Fixpoint varint_go (fuel : nat) (x : N) : list byte :=
  match fuel with
  | O => []
  | S fuel' =>
      if x <? 128 then [byte_of_N x]
      else byte_of_N (128 + x mod 128) :: varint_go fuel' (x / 128)
  end.

Definition encode_varint (x : N) : list byte :=
  varint_go (S (N.to_nat (N.size x))) x.

(** IEEE-754 binary interchange formats with [mw] trailing significand bits
    and [ew] exponent bits; values are [spec_float]s of precision [mw + 1]. *)
Section Interchange.
Variables mw ew : N.

Definition ieee_prec : Z := Z.of_N mw + 1.
Definition ieee_emax : Z := 2 ^ (Z.of_N ew - 1).
Definition ieee_emin : Z := 3 - ieee_emax - ieee_prec.

Definition sf_of_bits (bits : N) : spec_float :=
  let m := bits mod 2 ^ mw in
  let e := (bits / 2 ^ mw) mod 2 ^ ew in
  let s := N.testbit bits (mw + ew) in
  if e =? 0 then
    match m with
    | N0 => S754_zero s
    | Npos p => S754_finite s p ieee_emin
    end
  else if e =? 2 ^ ew - 1 then
    if m =? 0 then S754_infinity s else S754_nan
  else
    match m + 2 ^ mw with
    | N0 => S754_nan
    | Npos p => S754_finite s p (Z.of_N e + ieee_emin - 1)
    end.

Definition sign_bit (s : bool) : N := if s then 2 ^ (mw + ew) else 0.

Definition bits_of_sf (x : spec_float) : N :=
  match x with
  | S754_zero s => sign_bit s
  | S754_infinity s => sign_bit s + (2 ^ ew - 1) * 2 ^ mw
  | S754_nan => (2 ^ ew - 1) * 2 ^ mw + 2 ^ (mw - 1)
  | S754_finite s m e =>
      if 2 ^ mw <=? Npos m
      then sign_bit s + Z.to_N (e - ieee_emin + 1) * 2 ^ mw + (Npos m - 2 ^ mw)
      else sign_bit s + Npos m
  end.
End Interchange.

(** [float]: the four bytes of an IEEE-754 binary32, least significant first. *)
Record float : Type := mk_float { f0 : byte; f1 : byte; f2 : byte; f3 : byte }.

(** [double]: the eight bytes of an IEEE-754 binary64, least significant
    first. *)
Record double : Type :=
  mk_double { d0 : byte; d1 : byte; d2 : byte; d3 : byte;
              d4 : byte; d5 : byte; d6 : byte; d7 : byte }.

Definition float_bytes (x : float) : list byte := [f0 x; f1 x; f2 x; f3 x].
Definition double_bytes (x : double) : list byte :=
  [d0 x; d1 x; d2 x; d3 x; d4 x; d5 x; d6 x; d7 x].

Definition float_of_bytes (bs : list byte) : option float :=
  match bs with
  | [a; b; c; d] => Some (mk_float a b c d)
  | _ => None
  end.
Definition double_of_bytes (bs : list byte) : option double :=
  match bs with
  | [a; b; c; d; e; f; g; h] => Some (mk_double a b c d e f g h)
  | _ => None
  end.

Definition float_of_bits (x : N) : float :=
  mk_float (byte_of_N x) (byte_of_N (x / 2 ^ 8))
           (byte_of_N (x / 2 ^ 16)) (byte_of_N (x / 2 ^ 24)).
Definition double_of_bits (x : N) : double :=
  mk_double (byte_of_N x) (byte_of_N (x / 2 ^ 8))
            (byte_of_N (x / 2 ^ 16)) (byte_of_N (x / 2 ^ 24))
            (byte_of_N (x / 2 ^ 32)) (byte_of_N (x / 2 ^ 40))
            (byte_of_N (x / 2 ^ 48)) (byte_of_N (x / 2 ^ 56)).

Definition float_value (x : float) : spec_float :=
  sf_of_bits 23 8 (le_decode (float_bytes x)).
Definition double_value (x : double) : spec_float :=
  sf_of_bits 52 11 (le_decode (double_bytes x)).

Definition dprec : Z := ieee_prec 52.
Definition demax : Z := ieee_emax 11.

Definition double_of_sf (v : spec_float) : double :=
  double_of_bits (bits_of_sf 52 11 v).
Definition float_of_sf (v : spec_float) : float :=
  float_of_bits (bits_of_sf 23 8 v).

(** The literals [0.0f], [0.0] and [1.0]. *)
Definition float_zero : float := float_of_bits 0.
Definition double_zero : double := double_of_bits 0.
Definition double_one : double := double_of_sf (SFone dprec demax).

(** [static_cast<double>(x)] for an unsigned integer [x] (round to nearest;
    exact below 2^53, hence exact for every [uint32_t]). *)
Definition sf_of_N (x : N) : spec_float :=
  binary_normalize dprec demax (Z.of_N x) 0 false.
Definition double_of_N (x : N) : double := double_of_sf (sf_of_N x).

(** [a / b] on doubles. *)
Definition double_div (a b : double) : double :=
  double_of_sf (SFdiv dprec demax (double_value a) (double_value b)).

(** [0.0 <= f && f <= 1.0]; false for a NaN. *)
Definition in_unit_range (f : double) : bool :=
  SFleb (S754_zero false) (double_value f)
  && SFleb (double_value f) (SFone dprec demax).

Definition double_is_nan (f : double) : bool :=
  match double_value f with
  | S754_nan => true
  | _ => false
  end.

(** Wrap-around subtraction on [uint32_t]. *)
Definition u32_modulus : N := 2 ^ 32.
Definition u32_sub (a b : N) : N :=
  (a mod u32_modulus + (u32_modulus - b mod u32_modulus)) mod u32_modulus.

(** [void*] handles: an address, [0] being [nullptr]. *)
Definition handle : Type := N.
Definition nullptr : handle := 0.
Definition is_null (p : handle) : bool := p =? nullptr.

(** A C pointer to an array: [None] is the null pointer, [Some l] points to
    an array whose cells hold [l]. *)
Definition array (A : Type) : Type := option (list A).
Definition null_array {A} (p : array A) : bool :=
  match p with
  | None => true
  | Some _ => false
  end.
(** A C pointer to one cell ([size_t* size]): [None] is the null pointer. *)
Definition null_cell {A} (p : option A) : bool :=
  match p with
  | None => true
  | Some _ => false
  end.

(** ** The engine interface used by the wrapper *)

(** Item types of the two instantiations: the zero literal returned for a
    null handle, and the object representation used by the codec. *)
Class Item (T : Type) : Type := {
  item_zero : T;
  item_size : nat;
  item_bytes : T -> list byte;
  item_of_bytes : list byte -> option T;
  item_value : T -> spec_float;
}.

#[global] Instance float_item : Item float := {|
  item_zero := float_zero;
  item_size := 4;
  item_bytes := float_bytes;
  item_of_bytes := float_of_bytes;
  item_value := float_value;
|}.

#[global] Instance double_item : Item double := {|
  item_zero := double_zero;
  item_size := 8;
  item_bytes := double_bytes;
  item_of_bytes := double_of_bytes;
  item_value := double_value;
|}.

(** The members of [kll_sketch<T>] that wrapper.cpp calls.  Constructors,
    [update], [merge], the value queries and the codec may throw; the plain
    getters do not.  [rng] is the library's source of random bits, which
    compaction draws from. *)
Module kll_sketch.
Class engine (T : Type) : Type := {
  sketch : Type;
  rng : Type;
  ctor : res sketch;
  ctor_k : N -> res sketch;
  update : sketch -> T -> rng -> res (sketch * rng);
  merge : sketch -> sketch -> rng -> res (sketch * rng);
  is_empty : sketch -> bool;
  get_k : sketch -> N;
  get_n : sketch -> N;
  get_num_retained : sketch -> N;
  is_estimation_mode : sketch -> bool;
  get_min_item : sketch -> res T;
  get_max_item : sketch -> res T;
  get_quantile : sketch -> double -> res T;
  get_rank : sketch -> T -> res double;
  serialize : sketch -> res (list byte);
  deserialize : list byte -> res sketch;
}.
End kll_sketch.

(** ** The C++ heap of sketches *)

Section World.
Context {T : Type} {E : kll_sketch.engine T}.

(** The sketches allocated with [new] and not yet deleted, and the state
    of the library's random-bit source. *)
Record world : Type := mk_world {
  heap : gmap N kll_sketch.sketch;
  gen : kll_sketch.rng;
}.

(** An address that [new] may return: not null, not in use. *)
Definition fresh_addr (h : gmap N kll_sketch.sketch) : N :=
  fresh ({[ nullptr ]} ∪ dom h).

(** [new kll_sketch<T>(std::move(s))].  The allocation itself always
    succeeds here; a constructor that throws, be it for lack of memory, is
    the engine's [Throw]. *)
Definition alloc (w : world) (s : kll_sketch.sketch) : handle * world :=
  let a := fresh_addr (heap w) in
  (a, mk_world (<[a := s]> (heap w)) (gen w)).

(** [static_cast<kll_sketch<T>*>(sketch)]: the object a non-null handle
    points to, if the handle is live. *)
Definition deref (w : world) (p : handle) : option kll_sketch.sketch :=
  heap w !! p.

(** What a function that returns a new handle leaves behind, for the result
    [r] of the constructor it calls.  When the constructor threw: the null
    handle, and the world as it was.  Otherwise: a handle that is not null and
    was not live, which now points to the constructed sketch, every other
    handle and the random-bit source being as before. *)
Definition allocated (w : world) (r : res kll_sketch.sketch)
  (h : handle) (w' : world) : Prop :=
  match r with
  | Throw _ => h = nullptr ∧ w' = w
  | Ok s =>
      h ≠ nullptr ∧ deref w h = None ∧ deref w' h = Some s
      ∧ (∀ p, p ≠ h -> deref w' p = deref w p) ∧ gen w' = gen w
  end.
End World.
Arguments world {T} E.

(** ** The wrapper, once for an arbitrary item type

    The float and the double functions of wrapper.cpp are transcribed one by
    one below ([Module KllFloat], [Module KllDouble]).  This section is the
    common shape, used to state properties once for both. *)
Section Wrapper.
Context {T : Type} {I : Item T} {E : kll_sketch.engine T}.

Definition kll_sketch_new (w : world E) : outcome (handle * world E) :=
  match kll_sketch.ctor with
  | Ok s => Returns (alloc w s)
  | Throw _ => Returns (nullptr, w)
  end.

Definition kll_sketch_new_with_k (w : world E) (k : N)
  : outcome (handle * world E) :=
  match kll_sketch.ctor_k k with
  | Ok s => Returns (alloc w s)
  | Throw _ => Returns (nullptr, w)
  end.

Definition kll_sketch_delete (w : world E) (sketch : handle) : outcome (world E) :=
  if is_null sketch then Returns w
  else match deref w sketch with
       | None => Undefined
       | Some _ => Returns (mk_world (delete sketch (heap w)) (gen w))
       end.

Definition kll_sketch_update (w : world E) (sketch : handle) (value : T)
  : outcome (world E) :=
  if is_null sketch then Returns w
  else match deref w sketch with
       | None => Undefined
       | Some s =>
           match kll_sketch.update s value (gen w) with
           | Ok (s', g') => Returns (mk_world (<[sketch := s']> (heap w)) g')
           | Throw e => Escapes e
           end
       end.

Definition kll_sketch_merge (w : world E) (sketch other : handle)
  : outcome (world E) :=
  if is_null sketch || is_null other then Returns w
  else match deref w sketch, deref w other with
       | Some s, Some o =>
           match kll_sketch.merge s o (gen w) with
           | Ok (s', g') => Returns (mk_world (<[sketch := s']> (heap w)) g')
           | Throw e => Escapes e
           end
       | _, _ => Undefined
       end.

(** The common shape of the getters: a default for the null handle, the
    engine's answer otherwise. *)
Definition kll_sketch_is_empty (w : world E) (sketch : handle) : outcome bool :=
  if is_null sketch then Returns true
  else match deref w sketch with
       | None => Undefined
       | Some s => Returns (kll_sketch.is_empty s)
       end.

Definition kll_sketch_get_k (w : world E) (sketch : handle) : outcome N :=
  if is_null sketch then Returns 0
  else match deref w sketch with
       | None => Undefined
       | Some s => Returns (kll_sketch.get_k s)
       end.

Definition kll_sketch_get_n (w : world E) (sketch : handle) : outcome N :=
  if is_null sketch then Returns 0
  else match deref w sketch with
       | None => Undefined
       | Some s => Returns (kll_sketch.get_n s)
       end.

Definition kll_sketch_get_num_retained (w : world E) (sketch : handle)
  : outcome N :=
  if is_null sketch then Returns 0
  else match deref w sketch with
       | None => Undefined
       | Some s => Returns (kll_sketch.get_num_retained s)
       end.

Definition kll_sketch_is_estimation_mode (w : world E) (sketch : handle)
  : outcome bool :=
  if is_null sketch then Returns false
  else match deref w sketch with
       | None => Undefined
       | Some s => Returns (kll_sketch.is_estimation_mode s)
       end.

(** No [try] block: what the engine throws leaves the function. *)
Definition kll_sketch_get_min_value (w : world E) (sketch : handle)
  : outcome T :=
  if is_null sketch then Returns item_zero
  else match deref w sketch with
       | None => Undefined
       | Some s =>
           match kll_sketch.get_min_item s with
           | Ok v => Returns v
           | Throw e => Escapes e
           end
       end.

Definition kll_sketch_get_max_value (w : world E) (sketch : handle)
  : outcome T :=
  if is_null sketch then Returns item_zero
  else match deref w sketch with
       | None => Undefined
       | Some s =>
           match kll_sketch.get_max_item s with
           | Ok v => Returns v
           | Throw e => Escapes e
           end
       end.

Definition kll_sketch_get_quantile (w : world E) (sketch : handle)
  (fraction : double) : outcome T :=
  if is_null sketch then Returns item_zero
  else match deref w sketch with
       | None => Undefined
       | Some s =>
           match kll_sketch.get_quantile s fraction with
           | Ok v => Returns v
           | Throw e => Escapes e
           end
       end.

Definition kll_sketch_get_rank (w : world E) (sketch : handle) (value : T)
  : outcome double :=
  if is_null sketch then Returns double_zero
  else match deref w sketch with
       | None => Undefined
       | Some s =>
           match kll_sketch.get_rank s value with
           | Ok r => Returns r
           | Throw e => Escapes e
           end
       end.

(** [size] is the cell behind [size_t* size] ([None]: a null pointer); the
    result is the returned buffer and the cell after the call. *)
Definition kll_sketch_serialize (w : world E) (sketch : handle)
  (size : option N) : outcome (array byte * option N) :=
  if is_null sketch || null_cell size then Returns (None, size)
  else match deref w sketch with
       | None => Undefined
       | Some s =>
           match kll_sketch.serialize s with
           | Ok bytes => Returns (Some bytes, Some (N.of_nat (length bytes)))
           | Throw _ => Returns (None, size)
           end
       end.

(** The engine reads the first [size] bytes behind [data]. *)
Definition kll_sketch_deserialize (w : world E) (data : array byte) (size : N)
  : outcome (handle * world E) :=
  if null_array data || (size =? 0) then Returns (nullptr, w)
  else match data with
       | None => Undefined
       | Some buf =>
           if N.of_nat (length buf) <? size then Undefined
           else match kll_sketch.deserialize (take (N.to_nat size) buf) with
                | Ok s => Returns (alloc w s)
                | Throw _ => Returns (nullptr, w)
                end
       end.

(** The loop of [get_quantiles], [todo] iterations from index [i] on. *)
Fixpoint get_quantiles_loop (s : kll_sketch.sketch) (fractions : list double)
  (todo : nat) (i : nat) (results : list T) : run (list T) :=
  match todo with
  | O => Done results
  | S todo' =>
      match fractions !! i with
      | None => Fault
      | Some f =>
          match kll_sketch.get_quantile s f with
          | Throw e => Raised e results
          | Ok q =>
              if bool_decide (i < length results)%nat
              then get_quantiles_loop s fractions todo' (S i) (<[i := q]> results)
              else Fault
          end
      end
  end.

Definition kll_sketch_get_quantiles (w : world E) (sketch : handle)
  (fractions : array double) (num_fractions : N) (results : array T)
  : outcome (array T) :=
  if is_null sketch || null_array fractions || null_array results
     || (num_fractions =? 0)
  then Returns results
  else match deref w sketch, fractions, results with
       | Some s, Some fs, Some rs =>
           outcome_map Some
             (catch_all (get_quantiles_loop s fs (N.to_nat num_fractions) 0 rs))
       | _, _, _ => Undefined
       end.

(** [static_cast<double>(i) / (num - 1)], the subtraction on [uint32_t]. *)
Definition evenly_spaced_fraction (i num : N) : double :=
  double_div (double_of_N i) (double_of_N (u32_sub num 1)).

(** The loop of [get_quantiles_evenly_spaced]. *)
Fixpoint evenly_spaced_loop (s : kll_sketch.sketch) (num : N)
  (todo : nat) (i : nat) (results : list T) : run (list T) :=
  match todo with
  | O => Done results
  | S todo' =>
      match kll_sketch.get_quantile s (evenly_spaced_fraction (N.of_nat i) num) with
      | Throw e => Raised e results
      | Ok q =>
          if bool_decide (i < length results)%nat
          then evenly_spaced_loop s num todo' (S i) (<[i := q]> results)
          else Fault
      end
  end.

Definition kll_sketch_get_quantiles_evenly_spaced (w : world E)
  (sketch : handle) (num : N) (results : array T) : outcome (array T) :=
  if is_null sketch || null_array results || (num =? 0)
  then Returns results
  else match deref w sketch, results with
       | Some s, Some rs =>
           outcome_map Some
             (catch_all (evenly_spaced_loop s num (N.to_nat num) 0 rs))
       | _, _ => Undefined
       end.
End Wrapper.

(** ** wrapper.cpp, lines 15-173: the float functions

    [kll_float_sketch_t] is [void*]; every function casts it to
    [kll_sketch<float>*]. *)
Module KllFloat.
Section Functions.
Context {E : kll_sketch.engine float}.

Definition kll_float_sketch_new (w : world E) : outcome (handle * world E) :=
  match kll_sketch.ctor with
  | Ok s => Returns (alloc w s)
  | Throw _ => Returns (nullptr, w)
  end.

Definition kll_float_sketch_new_with_k (w : world E) (k : N)
  : outcome (handle * world E) :=
  match kll_sketch.ctor_k k with
  | Ok s => Returns (alloc w s)
  | Throw _ => Returns (nullptr, w)
  end.

Definition kll_float_sketch_delete (w : world E) (sketch : handle)
  : outcome (world E) :=
  if is_null sketch then Returns w
  else match deref w sketch with
       | None => Undefined
       | Some _ => Returns (mk_world (delete sketch (heap w)) (gen w))
       end.

Definition kll_float_sketch_update (w : world E) (sketch : handle)
  (value : float) : outcome (world E) :=
  if is_null sketch then Returns w
  else match deref w sketch with
       | None => Undefined
       | Some s =>
           match kll_sketch.update s value (gen w) with
           | Ok (s', g') => Returns (mk_world (<[sketch := s']> (heap w)) g')
           | Throw e => Escapes e
           end
       end.

Definition kll_float_sketch_merge (w : world E) (sketch other : handle)
  : outcome (world E) :=
  if is_null sketch || is_null other then Returns w
  else match deref w sketch, deref w other with
       | Some s, Some o =>
           match kll_sketch.merge s o (gen w) with
           | Ok (s', g') => Returns (mk_world (<[sketch := s']> (heap w)) g')
           | Throw e => Escapes e
           end
       | _, _ => Undefined
       end.

Definition kll_float_sketch_is_empty (w : world E) (sketch : handle)
  : outcome bool :=
  if is_null sketch then Returns true
  else match deref w sketch with
       | None => Undefined
       | Some s => Returns (kll_sketch.is_empty s)
       end.

Definition kll_float_sketch_get_k (w : world E) (sketch : handle)
  : outcome N :=
  if is_null sketch then Returns 0
  else match deref w sketch with
       | None => Undefined
       | Some s => Returns (kll_sketch.get_k s)
       end.

Definition kll_float_sketch_get_n (w : world E) (sketch : handle)
  : outcome N :=
  if is_null sketch then Returns 0
  else match deref w sketch with
       | None => Undefined
       | Some s => Returns (kll_sketch.get_n s)
       end.

Definition kll_float_sketch_get_num_retained (w : world E) (sketch : handle)
  : outcome N :=
  if is_null sketch then Returns 0
  else match deref w sketch with
       | None => Undefined
       | Some s => Returns (kll_sketch.get_num_retained s)
       end.

Definition kll_float_sketch_is_estimation_mode (w : world E)
  (sketch : handle) : outcome bool :=
  if is_null sketch then Returns false
  else match deref w sketch with
       | None => Undefined
       | Some s => Returns (kll_sketch.is_estimation_mode s)
       end.

Definition kll_float_sketch_get_min_value (w : world E) (sketch : handle)
  : outcome float :=
  if is_null sketch then Returns float_zero
  else match deref w sketch with
       | None => Undefined
       | Some s =>
           match kll_sketch.get_min_item s with
           | Ok v => Returns v
           | Throw e => Escapes e
           end
       end.

Definition kll_float_sketch_get_max_value (w : world E) (sketch : handle)
  : outcome float :=
  if is_null sketch then Returns float_zero
  else match deref w sketch with
       | None => Undefined
       | Some s =>
           match kll_sketch.get_max_item s with
           | Ok v => Returns v
           | Throw e => Escapes e
           end
       end.

Definition kll_float_sketch_get_quantile (w : world E) (sketch : handle)
  (fraction : double) : outcome float :=
  if is_null sketch then Returns float_zero
  else match deref w sketch with
       | None => Undefined
       | Some s =>
           match kll_sketch.get_quantile s fraction with
           | Ok v => Returns v
           | Throw e => Escapes e
           end
       end.

Definition kll_float_sketch_get_rank (w : world E) (sketch : handle)
  (value : float) : outcome double :=
  if is_null sketch then Returns double_zero
  else match deref w sketch with
       | None => Undefined
       | Some s =>
           match kll_sketch.get_rank s value with
           | Ok r => Returns r
           | Throw e => Escapes e
           end
       end.

Definition kll_float_sketch_serialize (w : world E) (sketch : handle)
  (size : option N) : outcome (array byte * option N) :=
  if is_null sketch || null_cell size then Returns (None, size)
  else match deref w sketch with
       | None => Undefined
       | Some s =>
           match kll_sketch.serialize s with
           | Ok bytes => Returns (Some bytes, Some (N.of_nat (length bytes)))
           | Throw _ => Returns (None, size)
           end
       end.

Definition kll_float_sketch_deserialize (w : world E) (data : array byte)
  (size : N) : outcome (handle * world E) :=
  if null_array data || (size =? 0) then Returns (nullptr, w)
  else match data with
       | None => Undefined
       | Some buf =>
           if N.of_nat (length buf) <? size then Undefined
           else match kll_sketch.deserialize (take (N.to_nat size) buf) with
                | Ok s => Returns (alloc w s)
                | Throw _ => Returns (nullptr, w)
                end
       end.

Fixpoint get_quantiles_loop (s : kll_sketch.sketch)
  (fractions : list double) (todo : nat) (i : nat) (results : list float)
  : run (list float) :=
  match todo with
  | O => Done results
  | S todo' =>
      match fractions !! i with
      | None => Fault
      | Some f =>
          match kll_sketch.get_quantile s f with
          | Throw e => Raised e results
          | Ok q =>
              if bool_decide (i < length results)%nat
              then get_quantiles_loop s fractions todo' (S i)
                     (<[i := q]> results)
              else Fault
          end
      end
  end.

Definition kll_float_sketch_get_quantiles (w : world E) (sketch : handle)
  (fractions : array double) (num_fractions : N) (results : array float)
  : outcome (array float) :=
  if is_null sketch || null_array fractions || null_array results
     || (num_fractions =? 0)
  then Returns results
  else match deref w sketch, fractions, results with
       | Some s, Some fs, Some rs =>
           outcome_map Some
             (catch_all
                (get_quantiles_loop s fs (N.to_nat num_fractions) 0 rs))
       | _, _, _ => Undefined
       end.

Definition fraction_of (i num : N) : double :=
  double_div (double_of_N i) (double_of_N (u32_sub num 1)).

Fixpoint evenly_spaced_loop (s : kll_sketch.sketch) (num : N)
  (todo : nat) (i : nat) (results : list float) : run (list float) :=
  match todo with
  | O => Done results
  | S todo' =>
      match kll_sketch.get_quantile s (fraction_of (N.of_nat i) num) with
      | Throw e => Raised e results
      | Ok q =>
          if bool_decide (i < length results)%nat
          then evenly_spaced_loop s num todo' (S i) (<[i := q]> results)
          else Fault
      end
  end.

Definition kll_float_sketch_get_quantiles_evenly_spaced (w : world E)
  (sketch : handle) (num : N) (results : array float)
  : outcome (array float) :=
  if is_null sketch || null_array results || (num =? 0)
  then Returns results
  else match deref w sketch, results with
       | Some s, Some rs =>
           outcome_map Some
             (catch_all (evenly_spaced_loop s num (N.to_nat num) 0 rs))
       | _, _ => Undefined
       end.
End Functions.
End KllFloat.

(** ** wrapper.cpp, lines 176-334: the double functions

    [kll_double_sketch_t] is [void*]; every function casts it to
    [kll_sketch<double>*]. *)
Module KllDouble.
Section Functions.
Context {E : kll_sketch.engine double}.

Definition kll_double_sketch_new (w : world E) : outcome (handle * world E) :=
  match kll_sketch.ctor with
  | Ok s => Returns (alloc w s)
  | Throw _ => Returns (nullptr, w)
  end.

Definition kll_double_sketch_new_with_k (w : world E) (k : N)
  : outcome (handle * world E) :=
  match kll_sketch.ctor_k k with
  | Ok s => Returns (alloc w s)
  | Throw _ => Returns (nullptr, w)
  end.

Definition kll_double_sketch_delete (w : world E) (sketch : handle)
  : outcome (world E) :=
  if is_null sketch then Returns w
  else match deref w sketch with
       | None => Undefined
       | Some _ => Returns (mk_world (delete sketch (heap w)) (gen w))
       end.

Definition kll_double_sketch_update (w : world E) (sketch : handle)
  (value : double) : outcome (world E) :=
  if is_null sketch then Returns w
  else match deref w sketch with
       | None => Undefined
       | Some s =>
           match kll_sketch.update s value (gen w) with
           | Ok (s', g') => Returns (mk_world (<[sketch := s']> (heap w)) g')
           | Throw e => Escapes e
           end
       end.

Definition kll_double_sketch_merge (w : world E) (sketch other : handle)
  : outcome (world E) :=
  if is_null sketch || is_null other then Returns w
  else match deref w sketch, deref w other with
       | Some s, Some o =>
           match kll_sketch.merge s o (gen w) with
           | Ok (s', g') => Returns (mk_world (<[sketch := s']> (heap w)) g')
           | Throw e => Escapes e
           end
       | _, _ => Undefined
       end.

Definition kll_double_sketch_is_empty (w : world E) (sketch : handle)
  : outcome bool :=
  if is_null sketch then Returns true
  else match deref w sketch with
       | None => Undefined
       | Some s => Returns (kll_sketch.is_empty s)
       end.

Definition kll_double_sketch_get_k (w : world E) (sketch : handle)
  : outcome N :=
  if is_null sketch then Returns 0
  else match deref w sketch with
       | None => Undefined
       | Some s => Returns (kll_sketch.get_k s)
       end.

Definition kll_double_sketch_get_n (w : world E) (sketch : handle)
  : outcome N :=
  if is_null sketch then Returns 0
  else match deref w sketch with
       | None => Undefined
       | Some s => Returns (kll_sketch.get_n s)
       end.

Definition kll_double_sketch_get_num_retained (w : world E) (sketch : handle)
  : outcome N :=
  if is_null sketch then Returns 0
  else match deref w sketch with
       | None => Undefined
       | Some s => Returns (kll_sketch.get_num_retained s)
       end.

Definition kll_double_sketch_is_estimation_mode (w : world E)
  (sketch : handle) : outcome bool :=
  if is_null sketch then Returns false
  else match deref w sketch with
       | None => Undefined
       | Some s => Returns (kll_sketch.is_estimation_mode s)
       end.

Definition kll_double_sketch_get_min_value (w : world E) (sketch : handle)
  : outcome double :=
  if is_null sketch then Returns double_zero
  else match deref w sketch with
       | None => Undefined
       | Some s =>
           match kll_sketch.get_min_item s with
           | Ok v => Returns v
           | Throw e => Escapes e
           end
       end.

Definition kll_double_sketch_get_max_value (w : world E) (sketch : handle)
  : outcome double :=
  if is_null sketch then Returns double_zero
  else match deref w sketch with
       | None => Undefined
       | Some s =>
           match kll_sketch.get_max_item s with
           | Ok v => Returns v
           | Throw e => Escapes e
           end
       end.

Definition kll_double_sketch_get_quantile (w : world E) (sketch : handle)
  (fraction : double) : outcome double :=
  if is_null sketch then Returns double_zero
  else match deref w sketch with
       | None => Undefined
       | Some s =>
           match kll_sketch.get_quantile s fraction with
           | Ok v => Returns v
           | Throw e => Escapes e
           end
       end.

Definition kll_double_sketch_get_rank (w : world E) (sketch : handle)
  (value : double) : outcome double :=
  if is_null sketch then Returns double_zero
  else match deref w sketch with
       | None => Undefined
       | Some s =>
           match kll_sketch.get_rank s value with
           | Ok r => Returns r
           | Throw e => Escapes e
           end
       end.

Definition kll_double_sketch_serialize (w : world E) (sketch : handle)
  (size : option N) : outcome (array byte * option N) :=
  if is_null sketch || null_cell size then Returns (None, size)
  else match deref w sketch with
       | None => Undefined
       | Some s =>
           match kll_sketch.serialize s with
           | Ok bytes => Returns (Some bytes, Some (N.of_nat (length bytes)))
           | Throw _ => Returns (None, size)
           end
       end.

Definition kll_double_sketch_deserialize (w : world E) (data : array byte)
  (size : N) : outcome (handle * world E) :=
  if null_array data || (size =? 0) then Returns (nullptr, w)
  else match data with
       | None => Undefined
       | Some buf =>
           if N.of_nat (length buf) <? size then Undefined
           else match kll_sketch.deserialize (take (N.to_nat size) buf) with
                | Ok s => Returns (alloc w s)
                | Throw _ => Returns (nullptr, w)
                end
       end.

Fixpoint get_quantiles_loop (s : kll_sketch.sketch)
  (fractions : list double) (todo : nat) (i : nat) (results : list double)
  : run (list double) :=
  match todo with
  | O => Done results
  | S todo' =>
      match fractions !! i with
      | None => Fault
      | Some f =>
          match kll_sketch.get_quantile s f with
          | Throw e => Raised e results
          | Ok q =>
              if bool_decide (i < length results)%nat
              then get_quantiles_loop s fractions todo' (S i)
                     (<[i := q]> results)
              else Fault
          end
      end
  end.

Definition kll_double_sketch_get_quantiles (w : world E) (sketch : handle)
  (fractions : array double) (num_fractions : N) (results : array double)
  : outcome (array double) :=
  if is_null sketch || null_array fractions || null_array results
     || (num_fractions =? 0)
  then Returns results
  else match deref w sketch, fractions, results with
       | Some s, Some fs, Some rs =>
           outcome_map Some
             (catch_all
                (get_quantiles_loop s fs (N.to_nat num_fractions) 0 rs))
       | _, _, _ => Undefined
       end.

Definition fraction_of (i num : N) : double :=
  double_div (double_of_N i) (double_of_N (u32_sub num 1)).

Fixpoint evenly_spaced_loop (s : kll_sketch.sketch) (num : N)
  (todo : nat) (i : nat) (results : list double) : run (list double) :=
  match todo with
  | O => Done results
  | S todo' =>
      match kll_sketch.get_quantile s (fraction_of (N.of_nat i) num) with
      | Throw e => Raised e results
      | Ok q =>
          if bool_decide (i < length results)%nat
          then evenly_spaced_loop s num todo' (S i) (<[i := q]> results)
          else Fault
      end
  end.

Definition kll_double_sketch_get_quantiles_evenly_spaced (w : world E)
  (sketch : handle) (num : N) (results : array double)
  : outcome (array double) :=
  if is_null sketch || null_array results || (num =? 0)
  then Returns results
  else match deref w sketch, results with
       | Some s, Some rs =>
           outcome_map Some
             (catch_all (evenly_spaced_loop s num (N.to_nat num) 0 rs))
       | _, _ => Undefined
       end.
End Functions.
End KllDouble.

(** ** A reference engine

    [kll_sketch<T>] is not among the wrapper sources.  The definitions of this
    module follow the natural-language specification of the engine, section
    by section. *)
Module Kll.

(** Modelled from the spec: the constructor of [kll_sketch<T>] is missing;
    section 3 gives the bounds on [k] (at least 8, at most 65535) and allows
    a default chosen by the library. *)
Definition MIN_K : N := 8.
Definition MAX_K : N := 65535.
Definition DEFAULT_K : N := 200.

(** Modelled from the spec: the format-version tag of the missing codec
    (section 4.5). *)
Definition FORMAT_VERSION : N := 1.

(** Modelled from the spec: the two points that sections 3, 4.2 and 9 leave
    to the implementation: the capacity of a level, from [k], the level
    index and the number of levels; and one step of the seeded source of
    coin flips. *)
Record policy : Type := {
  level_capacity : N -> nat -> nat -> N;
  flip : N -> bool * N;
}.

(** Modelled from the spec: one capacity rule of the shape section 3
    describes: ratio 2/3 per level, floored by a minimum capacity. *)
Definition MIN_LEVEL_CAPACITY : N := 8.
Definition geometric_capacity (k : N) (i num_levels : nat) : N :=
  N.max MIN_LEVEL_CAPACITY (k * 2 ^ N.of_nat i / 3 ^ N.of_nat i).

(** Modelled from the spec: a seeded pseudo-random bit (a 64-bit linear
    congruential step, the top bit being the coin). *)
Definition lcg_flip (g : N) : bool * N :=
  let g' := (6364136223846793005 * g + 1442695040888963407) mod 2 ^ 64 in
  (N.testbit g' 63, g').

Definition default_policy : policy :=
  {| level_capacity := geometric_capacity; flip := lcg_flip |}.

Section Engine.
Context {T : Type} {I : Item T}.
Variable P : policy.

(** Modelled from the spec: the sketch record of section 3.  Level [i] is
    [levels !! i]; its weight is [2^i]. *)
Record kll_sketch : Type := mk_sketch {
  k : N;
  n : N;
  levels : list (list T);
  min_item : option T;
  max_item : option T;
  is_level_zero_sorted : bool;
}.

Definition level_weight (i : nat) : N := 2 ^ N.of_nat i.

(** The order of the items is the order of their IEEE values. *)
Definition item_ltb (a b : T) : bool := SFltb (item_value a) (item_value b).
Definition item_leb (a b : T) : bool := SFleb (item_value a) (item_value b).
Definition item_is_nan (a : T) : bool :=
  match item_value a with
  | S754_nan => true
  | _ => false
  end.

Fixpoint insert_sorted (x : T) (l : list T) : list T :=
  match l with
  | [] => [x]
  | y :: l' => if item_ltb x y then x :: l else y :: insert_sorted x l'
  end.
Definition sort_items (l : list T) : list T := foldr insert_sorted [] l.

(** Modelled from the spec: construction (section 3, lifecycle): an empty
    sketch with a validated [k]. *)
Definition new_sketch (k0 : N) : kll_sketch :=
  mk_sketch k0 0 [[]] None None false.

Definition ctor : res kll_sketch := Ok (new_sketch DEFAULT_K).

Definition ctor_k (k0 : N) : res kll_sketch :=
  if (MIN_K <=? k0) && (k0 <=? MAX_K) then Ok (new_sketch k0)
  else Throw ConstructionError.

(** Modelled from the spec: the compaction of one level (section 4.2).
    The buffer is sorted; when its size is odd its first item stays
    behind; of the rest the coin keeps the even-indexed or the
    odd-indexed half, which is appended to the next level. *)
Fixpoint every_other (keep : bool) (l : list T) : list T :=
  match l with
  | [] => []
  | x :: l' =>
      if keep then x :: every_other false l' else every_other true l'
  end.

Definition halve (coin : bool) (sorted : list T) : list T * list T :=
  if Nat.odd (length sorted)
  then (take 1 sorted, every_other coin (drop 1 sorted))
  else ([], every_other coin sorted).

Definition over_capacity (k0 : N) (lv : list (list T)) (i : nat) : bool :=
  level_capacity P k0 i (length lv) <? N.of_nat (length (default [] (lv !! i))).

Definition compact_level (lv : list (list T)) (i : nat) (g : N)
  : list (list T) * N :=
  let '(coin, g') := flip P g in
  let '(stay, up) := halve coin (sort_items (default [] (lv !! i))) in
  let lv1 := <[i := stay]> lv in
  match lv1 !! S i with
  | Some next => (<[S i := next ++ up]> lv1, g')
  | None => (lv1 ++ [up], g')
  end.

(** Compaction from level [i] upward while the level is over capacity. *)
Fixpoint compact (fuel : nat) (k0 : N) (lv : list (list T)) (i : nat) (g : N)
  : list (list T) * N :=
  match fuel with
  | O => (lv, g)
  | S fuel' =>
      if over_capacity k0 lv i
      then let '(lv', g') := compact_level lv i g in
           compact fuel' k0 lv' (S i) g'
      else (lv, g)
  end.

(** Every level from the lowest to the highest is checked again (used
    by merge, section 4.3). *)
Fixpoint recompact (fuel : nat) (k0 : N) (lv : list (list T)) (i : nat) (g : N)
  : list (list T) * N :=
  match fuel with
  | O => (lv, g)
  | S fuel' =>
      if bool_decide (i < length lv)%nat
      then if over_capacity k0 lv i
           then let '(lv', g') := compact_level lv i g in
                recompact fuel' k0 lv' (S i) g'
           else recompact fuel' k0 lv (S i) g
      else (lv, g)
  end.

Definition num_retained (lv : list (list T)) : nat :=
  foldr (fun l acc => (length l + acc)%nat) 0%nat lv.

Definition compaction_fuel (lv : list (list T)) : nat :=
  S (length lv + num_retained lv).

Definition min_with (m : option T) (v : T) : option T :=
  match m with
  | None => Some v
  | Some x => if item_ltb v x then Some v else Some x
  end.
Definition max_with (m : option T) (v : T) : option T :=
  match m with
  | None => Some v
  | Some x => if item_ltb x v then Some v else Some x
  end.

(** Modelled from the spec: [update] (section 4.1): the value is appended
    to level 0, [n] and the extrema are updated, level 0 is marked unsorted,
    and when level 0 is over capacity it is compacted, which sorts it.  A
    NaN is rejected by leaving the sketch as it is. *)
Definition update (s : kll_sketch) (value : T) (g : N) : res (kll_sketch * N) :=
  if item_is_nan value then Ok (s, g)
  else
    let lv :=
      match levels s with
      | [] => [[value]]
      | l0 :: rest => (l0 ++ [value]) :: rest
      end in
    let '(lv', g') := compact (compaction_fuel lv) (k s) lv 0 g in
    Ok (mk_sketch (k s) (n s + 1) lv'
          (min_with (min_item s) value) (max_with (max_item s) value)
          (over_capacity (k s) lv 0),
        g').

(** Levels of equal weight are concatenated. *)
Fixpoint zip_levels (a b : list (list T)) : list (list T) :=
  match a, b with
  | [], _ => b
  | _, [] => a
  | x :: a', y :: b' => (x ++ y) :: zip_levels a' b'
  end.

Definition min_opt (a b : option T) : option T :=
  match b with
  | None => a
  | Some y => min_with a y
  end.
Definition max_opt (a b : option T) : option T :=
  match b with
  | None => a
  | Some y => max_with a y
  end.

(** Modelled from the spec: [merge] (section 4.3): the smaller [k] is
    adopted, counts are added, extrema combined, and all levels are
    compacted again where over capacity.  Merging an empty sketch changes
    nothing. *)
Definition merge (s other : kll_sketch) (g : N) : res (kll_sketch * N) :=
  if n other =? 0 then Ok (s, g)
  else
    let k0 := N.min (k s) (k other) in
    let lv := zip_levels (levels s) (levels other) in
    let '(lv', g') := recompact (compaction_fuel lv) k0 lv 0 g in
    Ok (mk_sketch k0 (n s + n other) lv'
          (min_opt (min_item s) (min_item other))
          (max_opt (max_item s) (max_item other))
          (over_capacity k0 lv 0),
        g').

(** Modelled from the spec: the queries of section 4.4. *)
Definition is_empty (s : kll_sketch) : bool := n s =? 0.
Definition get_k (s : kll_sketch) : N := k s.
Definition get_n (s : kll_sketch) : N := n s.
Definition get_num_retained (s : kll_sketch) : N :=
  N.of_nat (num_retained (levels s)).
Definition is_estimation_mode (s : kll_sketch) : bool :=
  bool_decide (1 < length (levels s))%nat.

Definition get_min_item (s : kll_sketch) : res T :=
  if is_empty s then Throw EmptySketchError
  else match min_item s with
       | Some v => Ok v
       | None => Throw EmptySketchError
       end.
Definition get_max_item (s : kll_sketch) : res T :=
  if is_empty s then Throw EmptySketchError
  else match max_item s with
       | Some v => Ok v
       | None => Throw EmptySketchError
       end.

(** Sum over the levels of weight times the number of items at most
    [value]. *)
Fixpoint weight_at_most (value : T) (i : nat) (lv : list (list T)) : N :=
  match lv with
  | [] => 0
  | l :: lv' =>
      level_weight i * N.of_nat (length (filter (fun x => item_leb x value = true) l))
      + weight_at_most value (S i) lv'
  end.

Definition get_rank (s : kll_sketch) (value : T) : res double :=
  if is_empty s then Throw EmptySketchError
  else Ok (double_div (double_of_N (weight_at_most value 0 (levels s)))
                      (double_of_N (n s))).

(** The weighted sorted view: every retained item with the weight of its
    level, in item order. *)
Fixpoint insert_weighted (x : T * N) (l : list (T * N)) : list (T * N) :=
  match l with
  | [] => [x]
  | y :: l' =>
      if item_ltb (fst x) (fst y) then x :: l else y :: insert_weighted x l'
  end.

Fixpoint weighted_items (i : nat) (lv : list (list T)) : list (T * N) :=
  match lv with
  | [] => []
  | l :: lv' => map (fun x => (x, level_weight i)) l ++ weighted_items (S i) lv'
  end.

Definition sorted_view (s : kll_sketch) : list (T * N) :=
  foldr insert_weighted [] (weighted_items 0 (levels s)).

(** The first item whose cumulative weight reaches [target]; the last
    item when none does. *)
Fixpoint search_view (target : spec_float) (cum : N) (view : list (T * N))
  : option T :=
  match view with
  | [] => None
  | (x, wt) :: view' =>
      if SFleb target (sf_of_N (cum + wt)) then Some x
      else match view' with
           | [] => Some x
           | _ => search_view target (cum + wt) view'
           end
  end.

Definition get_quantile (s : kll_sketch) (fraction : double) : res T :=
  if negb (in_unit_range fraction) then Throw RangeError
  else if is_empty s then Throw EmptySketchError
  else
    let target := SFmul dprec demax (double_value fraction) (sf_of_N (n s)) in
    match search_view target 0 (sorted_view s) with
    | Some x => Ok x
    | None => Throw EmptySketchError
    end.
(** Modelled from the spec: the codec of section 4.5.  The layout, in
    this order: the format-version tag (1 byte), [k], [n], the flags byte
    (bit 0: empty, bit 1: single item, bit 2: level zero sorted), the
    minimum and the maximum item unless the sketch is empty, the number of
    levels, the item count of every level, and the items level by level.
    [k], [n] and the counts are variable-length integers. *)
Definition flags_of (n0 : N) (sorted : bool) : N :=
  (if n0 =? 0 then 1 else 0) + (if n0 =? 1 then 2 else 0)
  + (if sorted then 4 else 0).

Definition encode_opt (o : option T) : list byte :=
  match o with
  | Some x => item_bytes x
  | None => []
  end.

Definition encode_items (l : list T) : list byte := flat_map item_bytes l.

Definition encode_counts (counts : list nat) : list byte :=
  flat_map (fun c => encode_varint (N.of_nat c)) counts.

(** What the header declares. *)
Record header : Type := mk_header {
  h_k : N;
  h_n : N;
  h_sorted : bool;
  h_min : option T;
  h_max : option T;
  h_counts : list nat;
}.

Definition header_of (s : kll_sketch) : header :=
  mk_header (k s) (n s) (is_level_zero_sorted s) (min_item s) (max_item s)
            (map length (levels s)).

Definition encode_header (h : header) : list byte :=
  le_encode 1 FORMAT_VERSION ++ encode_varint (h_k h) ++ encode_varint (h_n h)
  ++ le_encode 1 (flags_of (h_n h) (h_sorted h))
  ++ encode_opt (h_min h) ++ encode_opt (h_max h)
  ++ encode_varint (N.of_nat (length (h_counts h)))
  ++ encode_counts (h_counts h).

Definition serialize_header (s : kll_sketch) : list byte :=
  encode_header (header_of s).

Definition serialize_payload (s : kll_sketch) : list byte :=
  flat_map encode_items (levels s).

Definition serialize_bytes (s : kll_sketch) : list byte :=
  serialize_header s ++ serialize_payload s.

Definition serialize (s : kll_sketch) : res (list byte) :=
  Ok (serialize_bytes s).

(** Reading: every reader takes what it needs from the front of the
    buffer and fails when the buffer is too short. *)
Definition take_bytes (c : nat) (bs : list byte) : res (list byte * list byte) :=
  if bool_decide (c ≤ length bs)%nat then Ok (take c bs, drop c bs)
  else Throw DeserializationError.

Definition read_uint (w : nat) (bs : list byte) : res (N * list byte) :=
  '(h, t) ← take_bytes w bs; Ok (le_decode h, t).

(** A variable-length integer; an encoding with a superfluous zero group
    at the end is refused, so that a number has one encoding. *)
Fixpoint read_varint (bs : list byte) : res (N * list byte) :=
  match bs with
  | [] => Throw DeserializationError
  | b :: bs' =>
      if Byte.to_N b <? 128 then Ok (Byte.to_N b, bs')
      else
        '(hi, rest) ← read_varint bs';
        if hi =? 0 then Throw DeserializationError
        else Ok (Byte.to_N b - 128 + 128 * hi, rest)
  end.

Definition read_item (bs : list byte) : res (T * list byte) :=
  '(h, t) ← take_bytes item_size bs;
  match item_of_bytes h with
  | Some x => Ok (x, t)
  | None => Throw DeserializationError
  end.

Fixpoint read_items (c : nat) (bs : list byte) : res (list T * list byte) :=
  match c with
  | O => Ok ([], bs)
  | S c' =>
      '(x, bs1) ← read_item bs;
      '(xs, bs2) ← read_items c' bs1;
      Ok (x :: xs, bs2)
  end.

Fixpoint read_counts (c : nat) (bs : list byte) : res (list nat * list byte) :=
  match c with
  | O => Ok ([], bs)
  | S c' =>
      '(x, bs1) ← read_varint bs;
      '(xs, bs2) ← read_counts c' bs1;
      Ok (N.to_nat x :: xs, bs2)
  end.

Fixpoint read_levels (counts : list nat) (bs : list byte)
  : res (list (list T) * list byte) :=
  match counts with
  | [] => Ok ([], bs)
  | c :: counts' =>
      '(l, bs1) ← read_items c bs;
      '(lv, bs2) ← read_levels counts' bs1;
      Ok (l :: lv, bs2)
  end.

Definition read_extrema (empty : bool) (bs : list byte)
  : res (option T * option T * list byte) :=
  if empty then Ok (None, None, bs)
  else '(lo, bs1) ← read_item bs;
       '(hi, bs2) ← read_item bs1;
       Ok (Some lo, Some hi, bs2).

Definition parse_header (bs : list byte) : res (header * list byte) :=
  '(v, bs1) ← read_uint 1 bs;
  if negb (v =? FORMAT_VERSION) then Throw DeserializationError
  else
    '(k0, bs2) ← read_varint bs1;
    if negb ((MIN_K <=? k0) && (k0 <=? MAX_K)) then Throw DeserializationError
    else
      '(n0, bs3) ← read_varint bs2;
      '(fl, bs4) ← read_uint 1 bs3;
      let sorted := N.testbit fl 2 in
      if negb (fl =? flags_of n0 sorted) then Throw DeserializationError
      else
        '(lo, hi, bs5) ← read_extrema (n0 =? 0) bs4;
        '(nl, bs6) ← read_varint bs5;
        '(counts, bs7) ← read_counts (N.to_nat nl) bs6;
        Ok (mk_header k0 n0 sorted lo hi counts, bs7).

Definition parse (bs : list byte) : res (kll_sketch * list byte) :=
  '(h, bs1) ← parse_header bs;
  '(lv, bs2) ← read_levels (h_counts h) bs1;
  Ok (mk_sketch (h_k h) (h_n h) lv (h_min h) (h_max h) (h_sorted h), bs2).

(** The buffer must hold one sketch and nothing else. *)
Definition deserialize (bs : list byte) : res kll_sketch :=
  '(s, rest) ← parse bs;
  match rest with
  | [] => Ok s
  | _ :: _ => Throw DeserializationError
  end.

(** The invariant of the engine's sketches: [k] is within its bounds, and
    the extrema are present exactly when the sketch is not empty. *)
Definition extrema_ok (s : kll_sketch) : bool :=
  bool_decide ((n s = 0) ↔ (min_item s = None))
  && bool_decide ((n s = 0) ↔ (max_item s = None)).

Definition sketch_ok (s : kll_sketch) : bool :=
  (MIN_K <=? k s) && (k s <=? MAX_K) && extrema_ok s.

(** The same for a header. *)
Definition header_ok (h : header) : Prop :=
  MIN_K <= h_k h <= MAX_K
  ∧ (h_n h = 0 ↔ h_min h = None)
  ∧ (h_n h = 0 ↔ h_max h = None).

(** Modelled from the spec: the malformed inputs that section 4.5 names:
    a truncated buffer (a proper prefix of a serialized sketch), an
    unsupported format-version tag, and level sizes declared in the header
    that do not match the length of the payload. *)
Inductive malformed : list byte -> Prop :=
  | malformed_truncated (s : kll_sketch) (p r : list byte) :
      sketch_ok s = true -> serialize_bytes s = p ++ r -> r ≠ [] ->
      malformed p
  | malformed_version (b : byte) (bs : list byte) :
      Byte.to_N b ≠ FORMAT_VERSION -> malformed (b :: bs)
  | malformed_counts (s : kll_sketch) (payload : list byte) :
      sketch_ok s = true ->
      length payload ≠ length (serialize_payload s) ->
      malformed (serialize_header s ++ payload).

(** The engine as the wrapper sees it. *)
Definition engine : kll_sketch.engine T := {|
  kll_sketch.sketch := kll_sketch;
  kll_sketch.rng := N;
  kll_sketch.ctor := ctor;
  kll_sketch.ctor_k := ctor_k;
  kll_sketch.update := update;
  kll_sketch.merge := merge;
  kll_sketch.is_empty := is_empty;
  kll_sketch.get_k := get_k;
  kll_sketch.get_n := get_n;
  kll_sketch.get_num_retained := get_num_retained;
  kll_sketch.is_estimation_mode := is_estimation_mode;
  kll_sketch.get_min_item := get_min_item;
  kll_sketch.get_max_item := get_max_item;
  kll_sketch.get_quantile := get_quantile;
  kll_sketch.get_rank := get_rank;
  kll_sketch.serialize := serialize;
  kll_sketch.deserialize := deserialize;
|}.
End Engine.
End Kll.

(** Modelled from the spec: the error semantics of the missing engine
    (sections 3, 4.4 and 7).  Construction fails when [k] is out of bounds;
    a sketch is empty exactly when [n] is zero; minimum and maximum fail on
    an empty sketch; a quantile query fails with a range error when the
    fraction is not in [0,1], and for fractions in range whether it fails
    depends on the sketch alone. *)
Class engine_laws {T : Type} (E : kll_sketch.engine T) : Prop := {
  ctor_k_bounds : ∀ k : N,
    k < Kll.MIN_K ∨ Kll.MAX_K < k ->
    kll_sketch.ctor_k k = Throw ConstructionError;
  is_empty_n : ∀ s : kll_sketch.sketch,
    kll_sketch.is_empty s = true ↔ kll_sketch.get_n s = 0;
  min_item_empty : ∀ s : kll_sketch.sketch,
    kll_sketch.is_empty s = true ->
    kll_sketch.get_min_item s = Throw EmptySketchError;
  max_item_empty : ∀ s : kll_sketch.sketch,
    kll_sketch.is_empty s = true ->
    kll_sketch.get_max_item s = Throw EmptySketchError;
  quantile_range : ∀ (s : kll_sketch.sketch) (f : double),
    in_unit_range f = false ->
    kll_sketch.get_quantile s f = Throw RangeError;
  quantile_uniform : ∀ (s : kll_sketch.sketch) (f f' : double) (v : T),
    in_unit_range f = true -> in_unit_range f' = true ->
    kll_sketch.get_quantile s f = Ok v ->
    ∃ v', kll_sketch.get_quantile s f' = Ok v';
}.

(** The serialized form of an item is [item_size] bytes and determines the
    item. *)
Class ItemLaws (T : Type) {I : Item T} : Prop := {
  item_bytes_length : ∀ x : T, length (item_bytes x) = item_size;
  item_of_bytes_bytes : ∀ x : T, item_of_bytes (item_bytes x) = Some x;
  item_bytes_of_bytes : ∀ (bs : list byte) (x : T),
    item_of_bytes bs = Some x -> item_bytes x = bs;
}.

(** ** The common part of the two batch loops

    Both loops of wrapper.cpp write [results[i] = get_quantile(f_i)] for
    [i = 0, 1, ...]; they differ in where [f_i] comes from (the caller's
    array, or [i / (num - 1)]).  [batch_loop] is that loop for an arbitrary
    source [frac] of fractions. *)
Section BatchLoop.
Context {T : Type} {E : kll_sketch.engine T}.
Variable s : kll_sketch.sketch.
Variable frac : nat -> option double.

Fixpoint batch_loop (todo : nat) (i : nat) (results : list T) : run (list T) :=
  match todo with
  | O => Done results
  | S todo' =>
      match frac i with
      | None => Fault
      | Some f =>
          match kll_sketch.get_quantile s f with
          | Throw e => Raised e results
          | Ok q =>
              if bool_decide (i < length results)%nat
              then batch_loop todo' (S i) (<[i := q]> results)
              else Fault
          end
      end
  end.

(** The query for index [j] returns [q]. *)
Definition query_ok (j : nat) (q : T) : Prop :=
  ∃ f, frac j = Some f ∧ kll_sketch.get_quantile s f = Ok q.

(** The query for index [j] throws [e]. *)
Definition query_fails (j : nat) (e : exn) : Prop :=
  ∃ f, frac j = Some f ∧ kll_sketch.get_quantile s f = Throw e.
End BatchLoop.

(** Every live sketch of a world over the reference engine satisfies the
    engine's invariant. *)
Definition world_ok {T : Type} {I : Item T} {P : Kll.policy}
  (w : world (Kll.engine (T := T) P)) : Prop :=
  ∀ (h : handle) (s : Kll.kll_sketch), deref w h = Some s -> Kll.sketch_ok s = true.

(** ** Concrete inputs

    The reference engine under the default policy, at both item types, and a
    few worlds built through the wrapper itself. *)
Definition E32 : kll_sketch.engine float := Kll.engine Kll.default_policy.
Definition E64 : kll_sketch.engine double := Kll.engine Kll.default_policy.

Definition float_of_Z (x : Z) : float :=
  float_of_sf (binary_normalize 24 128 x 0 false).
Definition double_of_Z (x : Z) : double :=
  double_of_sf (binary_normalize dprec demax x 0 false).

(** The literal [1.5]. *)
Definition one_and_a_half : double := double_of_bits 0x3FF8000000000000.

(** The literals [0.5] and [0.25]. *)
Definition one_half : double := double_of_bits 0x3FE0000000000000.
Definition one_quarter : double := double_of_bits 0x3FD0000000000000.

(** A fractions array whose second entry is out of range. *)
Definition mixed_fractions : list double :=
  [one_half; one_and_a_half; one_quarter].

(** A fractions array with every entry in range. *)
Definition unit_fractions : list double := [one_half; one_quarter; double_one].

(** The value a call returned, [d] when it did not return. *)
Definition returned {A} (o : outcome A) (d : A) : A :=
  match o with
  | Returns a => a
  | _ => d
  end.

Definition start32 : world E32 := mk_world (E:=E32) ∅ 42.
Definition start64 : world E64 := mk_world (E:=E64) ∅ 42.

(** After [h = kll_float_sketch_new()]: the handle is [1], the sketch empty. *)
Definition fresh32 : handle * world E32 :=
  returned (KllFloat.kll_float_sketch_new start32) (nullptr, start32).
Definition fresh64 : handle * world E64 :=
  returned (KllDouble.kll_double_sketch_new start64) (nullptr, start64).

(** After [kll_float_sketch_new_with_k(8)] and updates with 1, 2, ..., [c]. *)
Definition filled32 (c : nat) : world E32 :=
  foldl (fun w i =>
           returned (KllFloat.kll_float_sketch_update w 1 (float_of_Z (Z.of_nat i))) w)
        (returned (KllFloat.kll_float_sketch_new_with_k start32 8) (nullptr, start32)).2
        (seq 1 c).
Definition filled64 (c : nat) : world E64 :=
  foldl (fun w i =>
           returned (KllDouble.kll_double_sketch_update w 1 (double_of_Z (Z.of_nat i))) w)
        (returned (KllDouble.kll_double_sketch_new_with_k start64 8) (nullptr, start64)).2
        (seq 1 c).

(** After three updates on handle [1] and a second [kll_float_sketch_new()]:
    handle [2] points to an empty sketch. *)
Definition pair32 : world E32 :=
  (returned (KllFloat.kll_float_sketch_new (filled32 3)) (nullptr, filled32 3)).2.

(** The sketch behind handle [1] after three updates, and its serialized
    form. *)
Definition demo_sketch32 : Kll.kll_sketch :=
  default (Kll.new_sketch 8) (deref (filled32 3) 1).
Definition demo_sketch64 : Kll.kll_sketch :=
  default (Kll.new_sketch 8) (deref (filled64 3) 1).
Definition demo_bytes32 : list byte := Kll.serialize_bytes demo_sketch32.
Definition demo_bytes64 : list byte := Kll.serialize_bytes demo_sketch64.

(** * Properties *)

(** ** The number formats on known values *)
Example float_one_bits :
  float_value (float_of_bits 0x3F800000) = S754_finite false (2 ^ 23) (-23).
Proof. vm_compute. reflexivity. Qed.

Example double_three_halves_bits :
  double_of_sf (binary_normalize dprec demax 3 (-1) false)
  = double_of_bits 0x3FF8000000000000.
Proof. vm_compute. reflexivity. Qed.

Example double_one_bits : double_one = double_of_bits 0x3FF0000000000000.
Proof. vm_compute. reflexivity. Qed.

Example double_tenth :
  double_div (double_of_N 1) (double_of_N 10) = double_of_bits 0x3FB999999999999A.
Proof. vm_compute. reflexivity. Qed.

Example double_nan : double_is_nan (double_div (double_of_N 0) (double_of_N 0)) = true.
Proof. vm_compute. reflexivity. Qed.

Example range_checks :
  (in_unit_range (double_of_bits 0x3FF8000000000000),
   in_unit_range double_one, in_unit_range double_zero,
   in_unit_range (double_of_bits 0xBFF0000000000000),
   in_unit_range (double_div (double_of_N 0) (double_of_N 0)))
  = (false, true, true, false, false).
Proof. vm_compute. reflexivity. Qed.

(** ** Allocation *)

Section AllocFacts.
Context {T : Type} {E : kll_sketch.engine T}.

Lemma fresh_addr_not_null (h : gmap N kll_sketch.sketch) :
  fresh_addr h ≠ nullptr.
Proof.
  unfold fresh_addr. intros Heq.
  pose proof (is_fresh ({[nullptr]} ∪ dom h)) as Hf.
  rewrite Heq in Hf. set_solver.
Qed.

Lemma fresh_addr_unused (h : gmap N kll_sketch.sketch) :
  h !! fresh_addr h = None.
Proof.
  unfold fresh_addr.
  pose proof (is_fresh ({[nullptr]} ∪ dom h)) as Hf.
  apply not_elem_of_dom. set_solver.
Qed.

Lemma alloc_deref (w : world E) (s : kll_sketch.sketch) :
  deref (alloc w s).2 (alloc w s).1 = Some s.
Proof. unfold deref, alloc. simpl. apply lookup_insert_eq. Qed.

Lemma alloc_not_null (w : world E) (s : kll_sketch.sketch) :
  is_null (alloc w s).1 = false.
Proof.
  unfold is_null, alloc. simpl. apply N.eqb_neq, fresh_addr_not_null.
Qed.

Lemma alloc_preserves (w : world E) (s s' : kll_sketch.sketch) (p : handle) :
  deref w p = Some s' -> deref (alloc w s).2 p = Some s'.
Proof.
  unfold deref, alloc. simpl. intros Hp.
  rewrite lookup_insert_ne; [done |].
  intros Heq. rewrite <- Heq, fresh_addr_unused in Hp. discriminate.
Qed.
End AllocFacts.

(** ** The two families have one shape *)

(** C9.  The float functions and the double functions of wrapper.cpp are one
    algorithm at two item types: each of the eighteen exported functions of
    either family is the function of [Section Wrapper] at that item type, so
    the double variant is the float variant with the item type replaced (same
    defaults for the null handle, same guards, same calls into the engine). *)
Theorem float_and_double_same_shape
  (E32 : kll_sketch.engine float) (E64 : kll_sketch.engine double) :
  ( @KllFloat.kll_float_sketch_new E32 = @kll_sketch_new float E32
    ∧ @KllDouble.kll_double_sketch_new E64 = @kll_sketch_new double E64 )
  ∧ ( @KllFloat.kll_float_sketch_new_with_k E32 = @kll_sketch_new_with_k float E32
    ∧ @KllDouble.kll_double_sketch_new_with_k E64 = @kll_sketch_new_with_k double E64 )
  ∧ ( @KllFloat.kll_float_sketch_delete E32 = @kll_sketch_delete float E32
    ∧ @KllDouble.kll_double_sketch_delete E64 = @kll_sketch_delete double E64 )
  ∧ ( @KllFloat.kll_float_sketch_update E32 = @kll_sketch_update float E32
    ∧ @KllDouble.kll_double_sketch_update E64 = @kll_sketch_update double E64 )
  ∧ ( @KllFloat.kll_float_sketch_merge E32 = @kll_sketch_merge float E32
    ∧ @KllDouble.kll_double_sketch_merge E64 = @kll_sketch_merge double E64 )
  ∧ ( @KllFloat.kll_float_sketch_is_empty E32 = @kll_sketch_is_empty float E32
    ∧ @KllDouble.kll_double_sketch_is_empty E64 = @kll_sketch_is_empty double E64 )
  ∧ ( @KllFloat.kll_float_sketch_get_k E32 = @kll_sketch_get_k float E32
    ∧ @KllDouble.kll_double_sketch_get_k E64 = @kll_sketch_get_k double E64 )
  ∧ ( @KllFloat.kll_float_sketch_get_n E32 = @kll_sketch_get_n float E32
    ∧ @KllDouble.kll_double_sketch_get_n E64 = @kll_sketch_get_n double E64 )
  ∧ ( @KllFloat.kll_float_sketch_get_num_retained E32
      = @kll_sketch_get_num_retained float E32
    ∧ @KllDouble.kll_double_sketch_get_num_retained E64
      = @kll_sketch_get_num_retained double E64 )
  ∧ ( @KllFloat.kll_float_sketch_is_estimation_mode E32
      = @kll_sketch_is_estimation_mode float E32
    ∧ @KllDouble.kll_double_sketch_is_estimation_mode E64
      = @kll_sketch_is_estimation_mode double E64 )
  ∧ ( @KllFloat.kll_float_sketch_get_min_value E32
      = @kll_sketch_get_min_value float float_item E32
    ∧ @KllDouble.kll_double_sketch_get_min_value E64
      = @kll_sketch_get_min_value double double_item E64 )
  ∧ ( @KllFloat.kll_float_sketch_get_max_value E32
      = @kll_sketch_get_max_value float float_item E32
    ∧ @KllDouble.kll_double_sketch_get_max_value E64
      = @kll_sketch_get_max_value double double_item E64 )
  ∧ ( @KllFloat.kll_float_sketch_get_quantile E32
      = @kll_sketch_get_quantile float float_item E32
    ∧ @KllDouble.kll_double_sketch_get_quantile E64
      = @kll_sketch_get_quantile double double_item E64 )
  ∧ ( @KllFloat.kll_float_sketch_get_rank E32 = @kll_sketch_get_rank float E32
    ∧ @KllDouble.kll_double_sketch_get_rank E64 = @kll_sketch_get_rank double E64 )
  ∧ ( @KllFloat.kll_float_sketch_serialize E32 = @kll_sketch_serialize float E32
    ∧ @KllDouble.kll_double_sketch_serialize E64
      = @kll_sketch_serialize double E64 )
  ∧ ( @KllFloat.kll_float_sketch_deserialize E32
      = @kll_sketch_deserialize float E32
    ∧ @KllDouble.kll_double_sketch_deserialize E64
      = @kll_sketch_deserialize double E64 )
  ∧ ( @KllFloat.kll_float_sketch_get_quantiles E32
      = @kll_sketch_get_quantiles float E32
    ∧ @KllDouble.kll_double_sketch_get_quantiles E64
      = @kll_sketch_get_quantiles double E64 )
  ∧ ( @KllFloat.kll_float_sketch_get_quantiles_evenly_spaced E32
      = @kll_sketch_get_quantiles_evenly_spaced float E32
    ∧ @KllDouble.kll_double_sketch_get_quantiles_evenly_spaced E64
      = @kll_sketch_get_quantiles_evenly_spaced double E64 ).
Proof. repeat split; reflexivity. Qed.

(** ** The null handle *)

(** C1.  Every exported function that takes a sketch handle returns a defined
    default when the handle is null: [update], [merge] (null on either side)
    and [delete] change nothing, [is_empty] is true, the getters and the
    queries return zero, [is_estimation_mode] is false, [serialize] returns
    the null pointer and leaves [*size] alone, and the two batch queries
    leave the results array as it was.  This holds for the float and for the
    double functions, whatever the engine. *)
Theorem null_handle_defaults :
  (∀ (E : kll_sketch.engine float) (w : world E) (value : float)
     (other : handle) (fraction : double) (size : option N)
     (fractions : array double) (num : N) (results : array float),
      KllFloat.kll_float_sketch_update w nullptr value = Returns w
      ∧ KllFloat.kll_float_sketch_merge w nullptr other = Returns w
      ∧ KllFloat.kll_float_sketch_merge w other nullptr = Returns w
      ∧ KllFloat.kll_float_sketch_delete w nullptr = Returns w
      ∧ KllFloat.kll_float_sketch_is_empty w nullptr = Returns true
      ∧ KllFloat.kll_float_sketch_get_k w nullptr = Returns 0
      ∧ KllFloat.kll_float_sketch_get_n w nullptr = Returns 0
      ∧ KllFloat.kll_float_sketch_get_num_retained w nullptr = Returns 0
      ∧ KllFloat.kll_float_sketch_is_estimation_mode w nullptr = Returns false
      ∧ KllFloat.kll_float_sketch_get_min_value w nullptr = Returns float_zero
      ∧ KllFloat.kll_float_sketch_get_max_value w nullptr = Returns float_zero
      ∧ KllFloat.kll_float_sketch_get_quantile w nullptr fraction
        = Returns float_zero
      ∧ KllFloat.kll_float_sketch_get_rank w nullptr value = Returns double_zero
      ∧ KllFloat.kll_float_sketch_get_quantiles w nullptr fractions num results
        = Returns results
      ∧ KllFloat.kll_float_sketch_get_quantiles_evenly_spaced w nullptr num results
        = Returns results
      ∧ KllFloat.kll_float_sketch_serialize w nullptr size = Returns (None, size))
  ∧ (∀ (E : kll_sketch.engine double) (w : world E) (value : double)
       (other : handle) (fraction : double) (size : option N)
       (fractions : array double) (num : N) (results : array double),
      KllDouble.kll_double_sketch_update w nullptr value = Returns w
      ∧ KllDouble.kll_double_sketch_merge w nullptr other = Returns w
      ∧ KllDouble.kll_double_sketch_merge w other nullptr = Returns w
      ∧ KllDouble.kll_double_sketch_delete w nullptr = Returns w
      ∧ KllDouble.kll_double_sketch_is_empty w nullptr = Returns true
      ∧ KllDouble.kll_double_sketch_get_k w nullptr = Returns 0
      ∧ KllDouble.kll_double_sketch_get_n w nullptr = Returns 0
      ∧ KllDouble.kll_double_sketch_get_num_retained w nullptr = Returns 0
      ∧ KllDouble.kll_double_sketch_is_estimation_mode w nullptr = Returns false
      ∧ KllDouble.kll_double_sketch_get_min_value w nullptr = Returns double_zero
      ∧ KllDouble.kll_double_sketch_get_max_value w nullptr = Returns double_zero
      ∧ KllDouble.kll_double_sketch_get_quantile w nullptr fraction
        = Returns double_zero
      ∧ KllDouble.kll_double_sketch_get_rank w nullptr value = Returns double_zero
      ∧ KllDouble.kll_double_sketch_get_quantiles w nullptr fractions num results
        = Returns results
      ∧ KllDouble.kll_double_sketch_get_quantiles_evenly_spaced w nullptr num results
        = Returns results
      ∧ KllDouble.kll_double_sketch_serialize w nullptr size = Returns (None, size))
  ∧ float_value float_zero = S754_zero false
  ∧ double_value double_zero = S754_zero false.
Proof.
  split; [| split; [| split; vm_compute; reflexivity]].
  - intros. repeat split; try reflexivity.
    unfold KllFloat.kll_float_sketch_merge.
    rewrite orb_true_r. reflexivity.
  - intros. repeat split; try reflexivity.
    unfold KllDouble.kll_double_sketch_merge.
    rewrite orb_true_r. reflexivity.
Qed.

(** ** The reference engine obeys the error semantics *)

#[global] Instance float_item_laws : ItemLaws float.
Proof.
  split.
  - intros x. reflexivity.
  - intros [a b c d]. reflexivity.
  - intros bs x H.
    do 5 (destruct bs as [| ? bs]; try discriminate).
    inversion H. reflexivity.
Qed.

#[global] Instance double_item_laws : ItemLaws double.
Proof.
  split.
  - intros x. reflexivity.
  - intros []. reflexivity.
  - intros bs x H.
    do 9 (destruct bs as [| ? bs]; try discriminate).
    inversion H. reflexivity.
Qed.

Section ReferenceLaws.
Context {T : Type} {I : Item T}.
Variable P : Kll.policy.

#[global] Instance reference_engine_laws : engine_laws (Kll.engine P).
Proof.
  split; simpl.
  - intros k0 Hk. unfold Kll.ctor_k.
    destruct ((Kll.MIN_K <=? k0) && (k0 <=? Kll.MAX_K)) eqn:Hb; [| reflexivity].
    apply andb_true_iff in Hb as [H1 H2].
    apply N.leb_le in H1, H2. lia.
  - intros s. unfold Kll.is_empty, Kll.get_n. apply N.eqb_eq.
  - intros s Hs. unfold Kll.get_min_item. rewrite Hs. reflexivity.
  - intros s Hs. unfold Kll.get_max_item. rewrite Hs. reflexivity.
  - intros s f Hf. unfold Kll.get_quantile. rewrite Hf. reflexivity.
  - intros s f f' v Hf Hf'. unfold Kll.get_quantile.
    rewrite Hf, Hf'. simpl.
    destruct (Kll.is_empty s); [discriminate |].
    destruct (Kll.sorted_view s) as [| [x wt] view] eqn:Hv; simpl.
    + discriminate.
    + intros _.
      assert (Hsome : ∀ t c vw y, ∃ z : T,
                 Kll.search_view t c (y :: vw) = Some z).
      { intros t c vw. revert c.
        induction vw as [| y' vw IH]; intros c [y wy]; simpl.
        - destruct (SFleb t (sf_of_N (c + wy))); eauto.
        - destruct (SFleb t (sf_of_N (c + wy))); [eauto |].
          apply IH. }
      destruct (Hsome (SFmul dprec demax (double_value f') (sf_of_N (Kll.n s)))
                  0 view (x, wt)) as [z Hz].
      simpl in Hz. rewrite Hz. eauto.
Qed.
End ReferenceLaws.

(** ** Construction *)

(** C8.  When [k] violates the bounds of the accuracy parameter (below 8 or
    above 65535), the engine refuses to construct the sketch and
    [new_with_k] returns the null handle; nothing is allocated. *)
Theorem new_with_k_invalid_is_null
  (E_f : kll_sketch.engine float) (E_d : kll_sketch.engine double)
  (L_f : engine_laws E_f) (L_d : engine_laws E_d)
  (w_f : world E_f) (w_d : world E_d) (k : N) :
  k < Kll.MIN_K ∨ Kll.MAX_K < k ->
  KllFloat.kll_float_sketch_new_with_k w_f k = Returns (nullptr, w_f)
  ∧ KllDouble.kll_double_sketch_new_with_k w_d k = Returns (nullptr, w_d).
Proof.
  intros Hk.
  unfold KllFloat.kll_float_sketch_new_with_k,
    KllDouble.kll_double_sketch_new_with_k.
  rewrite !ctor_k_bounds by assumption. split; reflexivity.
Qed.

Lemma new_with_k_invalid_is_null_witness :
  (7 < Kll.MIN_K ∨ Kll.MAX_K < 7)
  ∧ KllFloat.kll_float_sketch_new_with_k start32 7 = Returns (nullptr, start32)
  ∧ KllDouble.kll_double_sketch_new_with_k start64 7 = Returns (nullptr, start64).
Proof.
  assert (H : 7 < Kll.MIN_K ∨ Kll.MAX_K < 7) by (left; reflexivity).
  split; [exact H |].
  exact (new_with_k_invalid_is_null E32 E64 (reference_engine_laws _)
           (reference_engine_laws _) start32 start64 7 H).
Defined.

(** ** Exceptions that leave the C functions *)

(** C2 (what the code does).  [get_quantile] has no [try] block: on a live
    handle and a fraction outside [0,1] the range error thrown by the engine
    leaves the C function; no default value is returned and no failure
    indicator is set. *)
Theorem get_quantile_range_error_escapes
  (E_f : kll_sketch.engine float) (E_d : kll_sketch.engine double)
  (L_f : engine_laws E_f) (L_d : engine_laws E_d)
  (w_f : world E_f) (w_d : world E_d) (h_f h_d : handle)
  (s_f : @kll_sketch.sketch _ E_f) (s_d : @kll_sketch.sketch _ E_d) (fraction : double) :
  is_null h_f = false -> deref w_f h_f = Some s_f ->
  is_null h_d = false -> deref w_d h_d = Some s_d ->
  in_unit_range fraction = false ->
  KllFloat.kll_float_sketch_get_quantile w_f h_f fraction = Escapes RangeError
  ∧ KllDouble.kll_double_sketch_get_quantile w_d h_d fraction = Escapes RangeError.
Proof.
  intros Hn_f Hs_f Hn_d Hs_d Hr.
  unfold KllFloat.kll_float_sketch_get_quantile,
    KllDouble.kll_double_sketch_get_quantile.
  rewrite Hn_f, Hs_f, Hn_d, Hs_d, !quantile_range by assumption.
  split; reflexivity.
Qed.

Lemma get_quantile_range_error_escapes_witness :
  in_unit_range one_and_a_half = false
  ∧ KllFloat.kll_float_sketch_get_quantile (filled32 3) 1 one_and_a_half
    = Escapes RangeError
  ∧ KllDouble.kll_double_sketch_get_quantile (filled64 3) 1 one_and_a_half
    = Escapes RangeError.
Proof.
  split; [vm_compute; reflexivity |].
  eapply (get_quantile_range_error_escapes E32 E64 (reference_engine_laws _)
            (reference_engine_laws _) (filled32 3) (filled64 3) 1 1);
    vm_compute; reflexivity.
Defined.

(** C3 (what the code does).  [get_min_value] and [get_max_value] have no
    [try] block: on a live handle to an empty sketch ([n = 0]) the
    empty-sketch error thrown by the engine leaves the C function. *)
Theorem min_max_empty_error_escapes
  (E_f : kll_sketch.engine float) (E_d : kll_sketch.engine double)
  (L_f : engine_laws E_f) (L_d : engine_laws E_d)
  (w_f : world E_f) (w_d : world E_d) (h_f h_d : handle)
  (s_f : @kll_sketch.sketch _ E_f) (s_d : @kll_sketch.sketch _ E_d) :
  is_null h_f = false -> deref w_f h_f = Some s_f -> kll_sketch.get_n s_f = 0 ->
  is_null h_d = false -> deref w_d h_d = Some s_d -> kll_sketch.get_n s_d = 0 ->
  KllFloat.kll_float_sketch_get_min_value w_f h_f = Escapes EmptySketchError
  ∧ KllFloat.kll_float_sketch_get_max_value w_f h_f = Escapes EmptySketchError
  ∧ KllDouble.kll_double_sketch_get_min_value w_d h_d = Escapes EmptySketchError
  ∧ KllDouble.kll_double_sketch_get_max_value w_d h_d = Escapes EmptySketchError.
Proof.
  intros Hn_f Hs_f He_f Hn_d Hs_d He_d.
  apply is_empty_n in He_f, He_d.
  unfold KllFloat.kll_float_sketch_get_min_value,
    KllFloat.kll_float_sketch_get_max_value,
    KllDouble.kll_double_sketch_get_min_value,
    KllDouble.kll_double_sketch_get_max_value.
  rewrite Hn_f, Hs_f, Hn_d, Hs_d, !min_item_empty, !max_item_empty by assumption.
  repeat split; reflexivity.
Qed.

Lemma min_max_empty_error_escapes_witness :
  KllFloat.kll_float_sketch_get_n fresh32.2 fresh32.1 = Returns 0
  ∧ KllFloat.kll_float_sketch_get_min_value fresh32.2 fresh32.1
    = Escapes EmptySketchError
  ∧ KllFloat.kll_float_sketch_get_max_value fresh32.2 fresh32.1
    = Escapes EmptySketchError
  ∧ KllDouble.kll_double_sketch_get_min_value fresh64.2 fresh64.1
    = Escapes EmptySketchError
  ∧ KllDouble.kll_double_sketch_get_max_value fresh64.2 fresh64.1
    = Escapes EmptySketchError.
Proof.
  split; [vm_compute; reflexivity |].
  eapply (min_max_empty_error_escapes E32 E64 (reference_engine_laws _)
            (reference_engine_laws _) fresh32.2 fresh64.2 fresh32.1 fresh64.1);
    vm_compute; reflexivity.
Defined.

(** ** The batch loops *)

Section BatchLoopFacts.
Context {T : Type} {E : kll_sketch.engine T}.
Variable s : kll_sketch.sketch.
Variable frac : nat -> option double.

Lemma query_ok_inj (j : nat) (q q' : T) :
  query_ok s frac j q -> query_ok s frac j q' -> q = q'.
Proof.
  intros (f & Hf & Hq) (f' & Hf' & Hq'). congruence.
Qed.

(** Running [a + b] iterations is running [a], then [b] more. *)
Lemma batch_loop_app (a b i : nat) (rs : list T) :
  batch_loop s frac (a + b) i rs =
  match batch_loop s frac a i rs with
  | Done rs1 => batch_loop s frac b (i + a) rs1
  | r => r
  end.
Proof.
  revert i rs. induction a as [| a IH]; intros i rs; simpl.
  - by rewrite Nat.add_0_r.
  - destruct (frac i) as [f |]; [| done].
    destruct (kll_sketch.get_quantile s f) as [q | e]; [| done].
    case_bool_decide; [| done].
    rewrite IH. by replace (S i + a)%nat with (i + S a)%nat by lia.
Qed.

(** When every query succeeds the loop completes: the cells of the indexes
    it ran over hold the values of the queries, the others are unchanged. *)
Lemma batch_loop_done (todo i : nat) (rs : list T) :
  (i + todo ≤ length rs)%nat ->
  (∀ j, (i ≤ j < i + todo)%nat -> ∃ q, query_ok s frac j q) ->
  ∃ rs', batch_loop s frac todo i rs = Done rs'
         ∧ length rs' = length rs
         ∧ (∀ j q, (i ≤ j < i + todo)%nat -> query_ok s frac j q -> rs' !! j = Some q)
         ∧ (∀ j, ¬ (i ≤ j < i + todo)%nat -> rs' !! j = rs !! j).
Proof.
  revert i rs. induction todo as [| todo IH]; intros i rs Hlen Hok; simpl.
  - exists rs. split; [done |]. split; [done |]. split; [| done].
    intros j q Hj. lia.
  - destruct (Hok i ltac:(lia)) as (q0 & f & Hf & Hq).
    rewrite Hf, Hq. rewrite bool_decide_eq_true_2 by lia.
    destruct (IH (S i) (<[i := q0]> rs)) as (rs' & Hrun & Hl & Hin & Hout).
    { rewrite length_insert. lia. }
    { intros j Hj. apply Hok. lia. }
    exists rs'. split; [done |]. rewrite length_insert in Hl.
    split; [done |]. split.
    + intros j q Hj Hjq. destruct (decide (j = i)) as [-> | Hne].
      * rewrite Hout by lia. rewrite list_lookup_insert_eq by lia.
        f_equal. eapply query_ok_inj; [| exact Hjq]. by exists f.
      * apply Hin; [lia | done].
    + intros j Hj. rewrite Hout by lia.
      apply list_lookup_insert_ne. lia.
Qed.

(** When the queries of the first [a] indexes succeed and the next one
    throws, the loop stops there: it leaves what [a] complete iterations
    leave. *)
Lemma batch_loop_raised (a b i : nat) (rs : list T) (e : exn) :
  (i + a ≤ length rs)%nat ->
  (∀ j, (i ≤ j < i + a)%nat -> ∃ q, query_ok s frac j q) ->
  query_fails s frac (i + a) e ->
  ∃ rs', batch_loop s frac (a + S b) i rs = Raised e rs'
         ∧ batch_loop s frac a i rs = Done rs'
         ∧ length rs' = length rs
         ∧ (∀ j q, (i ≤ j < i + a)%nat -> query_ok s frac j q -> rs' !! j = Some q)
         ∧ (∀ j, ¬ (i ≤ j < i + a)%nat -> rs' !! j = rs !! j).
Proof.
  intros Hlen Hok (f & Hf & Hthrow).
  destruct (batch_loop_done a i rs Hlen Hok) as (rs' & Hrun & Hrest).
  exists rs'. split; [| by split].
  rewrite batch_loop_app, Hrun. simpl. by rewrite Hf, Hthrow.
Qed.
End BatchLoopFacts.

Section LoopsAreBatchLoops.
Context {T : Type} {E : kll_sketch.engine T}.
Variable s : kll_sketch.sketch.

Lemma get_quantiles_loop_batch (fs : list double) (todo i : nat) (rs : list T) :
  get_quantiles_loop s fs todo i rs = batch_loop s (fun j => fs !! j) todo i rs.
Proof.
  revert i rs. induction todo as [| todo IH]; intros i rs; simpl; [done |].
  destruct (fs !! i) as [f |]; [| done].
  destruct (kll_sketch.get_quantile s f); [| done].
  case_bool_decide; [apply IH | done].
Qed.

Lemma evenly_spaced_loop_batch (num : N) (todo i : nat) (rs : list T) :
  evenly_spaced_loop s num todo i rs =
  batch_loop s (fun j => Some (evenly_spaced_fraction (N.of_nat j) num)) todo i rs.
Proof.
  revert i rs. induction todo as [| todo IH]; intros i rs; simpl; [done |].
  destruct (kll_sketch.get_quantile s _); [| done].
  case_bool_decide; [apply IH | done].
Qed.
End LoopsAreBatchLoops.

Section BatchCalls.
Context {T : Type} {I : Item T} {E : kll_sketch.engine T}.

(** Past the guards, [get_quantiles] is its loop inside the [try] block. *)
Lemma get_quantiles_runs_loop (w : world E) (h : handle) (s : kll_sketch.sketch)
  (fs : list double) (num : N) (rs : list T) :
  is_null h = false -> deref w h = Some s -> num ≠ 0 ->
  kll_sketch_get_quantiles w h (Some fs) num (Some rs) =
  outcome_map Some
    (catch_all (batch_loop s (fun j => fs !! j) (N.to_nat num) 0 rs)).
Proof.
  intros Hn Hs Hnum. unfold kll_sketch_get_quantiles.
  apply N.eqb_neq in Hnum. rewrite Hn, Hs, Hnum. simpl.
  by rewrite get_quantiles_loop_batch.
Qed.

Lemma evenly_spaced_runs_loop (w : world E) (h : handle) (s : kll_sketch.sketch)
  (num : N) (rs : list T) :
  is_null h = false -> deref w h = Some s -> num ≠ 0 ->
  kll_sketch_get_quantiles_evenly_spaced w h num (Some rs) =
  outcome_map Some
    (catch_all
       (batch_loop s (fun j => Some (evenly_spaced_fraction (N.of_nat j) num))
          (N.to_nat num) 0 rs)).
Proof.
  intros Hn Hs Hnum. unfold kll_sketch_get_quantiles_evenly_spaced.
  apply N.eqb_neq in Hnum. rewrite Hn, Hs, Hnum. simpl.
  by rewrite evenly_spaced_loop_batch.
Qed.

(** A query that throws at index [j] ends [get_quantiles] with a normal
    return; the array is what a call for the first [j] fractions leaves. *)
Lemma get_quantiles_swallows (w : world E) (h : handle) (s : kll_sketch.sketch)
  (fs : list double) (num : N) (rs : list T) (j : nat) (e : exn) :
  is_null h = false -> deref w h = Some s ->
  (j < N.to_nat num)%nat -> (j ≤ length rs)%nat ->
  (∀ i, (i < j)%nat -> ∃ f q, fs !! i = Some f ∧ kll_sketch.get_quantile s f = Ok q) ->
  (∃ f, fs !! j = Some f ∧ kll_sketch.get_quantile s f = Throw e) ->
  ∃ rs', kll_sketch_get_quantiles w h (Some fs) num (Some rs) = Returns (Some rs')
         ∧ kll_sketch_get_quantiles w h (Some fs) (N.of_nat j) (Some rs)
           = Returns (Some rs')
         ∧ length rs' = length rs
         ∧ (∀ i f q, (i < j)%nat -> fs !! i = Some f ->
                     kll_sketch.get_quantile s f = Ok q -> rs' !! i = Some q)
         ∧ (∀ i, (j ≤ i)%nat -> rs' !! i = rs !! i).
Proof.
  intros Hn Hs Hj Hlen Hok Hfail.
  destruct (batch_loop_raised s (fun j => fs !! j) j (N.to_nat num - S j) 0 rs e)
    as (rs' & Hraise & Hdone & Hl & Hin & Hout).
  { done. }
  { intros i Hi. destruct (Hok i ltac:(lia)) as (f & q & Hf & Hq).
    exists q, f. done. }
  { done. }
  replace (j + S (N.to_nat num - S j))%nat with (N.to_nat num) in Hraise by lia.
  exists rs'. split; [| split; [| split; [done | split]]].
  - rewrite (get_quantiles_runs_loop w h s) by (done || lia).
    by rewrite Hraise.
  - destruct j as [| j'].
    + simpl in Hdone. inversion Hdone. subst rs'.
      unfold kll_sketch_get_quantiles. rewrite Hn. reflexivity.
    + rewrite (get_quantiles_runs_loop w h s) by (done || lia).
      rewrite Nat2N.id. by rewrite Hdone.
  - intros i f q Hi Hf Hq. apply Hin; [lia |]. by exists f.
  - intros i Hi. apply Hout. lia.
Qed.

Lemma evenly_spaced_swallows (w : world E) (h : handle) (s : kll_sketch.sketch)
  (num : N) (rs : list T) (j : nat) (e : exn) :
  is_null h = false -> deref w h = Some s ->
  (j < N.to_nat num)%nat -> (j ≤ length rs)%nat ->
  (∀ i, (i < j)%nat ->
        ∃ q, kll_sketch.get_quantile s (evenly_spaced_fraction (N.of_nat i) num) = Ok q) ->
  kll_sketch.get_quantile s (evenly_spaced_fraction (N.of_nat j) num) = Throw e ->
  ∃ rs', kll_sketch_get_quantiles_evenly_spaced w h num (Some rs)
         = Returns (Some rs')
         ∧ length rs' = length rs
         ∧ (∀ i q, (i < j)%nat ->
                   kll_sketch.get_quantile s (evenly_spaced_fraction (N.of_nat i) num)
                   = Ok q -> rs' !! i = Some q)
         ∧ (∀ i, (j ≤ i)%nat -> rs' !! i = rs !! i).
Proof.
  intros Hn Hs Hj Hlen Hok Hfail.
  destruct (batch_loop_raised s
              (fun j => Some (evenly_spaced_fraction (N.of_nat j) num))
              j (N.to_nat num - S j) 0 rs e)
    as (rs' & Hraise & Hdone & Hl & Hin & Hout).
  { done. }
  { intros i Hi. destruct (Hok i ltac:(lia)) as (q & Hq).
    exists q, (evenly_spaced_fraction (N.of_nat i) num). done. }
  { eexists. done. }
  replace (j + S (N.to_nat num - S j))%nat with (N.to_nat num) in Hraise by lia.
  exists rs'. split; [| split; [done | split]].
  - rewrite (evenly_spaced_runs_loop w h s) by (done || lia).
    by rewrite Hraise.
  - intros i q Hi Hq. apply Hin; [lia |]. eexists. done.
  - intros i Hi. apply Hout. lia.
Qed.

(** When every query succeeds, every result is written. *)
Lemma get_quantiles_completes (w : world E) (h : handle) (s : kll_sketch.sketch)
  (fs : list double) (num : N) (rs : list T) :
  is_null h = false -> deref w h = Some s -> num ≠ 0 ->
  (N.to_nat num ≤ length rs)%nat ->
  (∀ i, (i < N.to_nat num)%nat ->
        ∃ f q, fs !! i = Some f ∧ kll_sketch.get_quantile s f = Ok q) ->
  ∃ rs', kll_sketch_get_quantiles w h (Some fs) num (Some rs) = Returns (Some rs')
         ∧ length rs' = length rs
         ∧ (∀ i f q, (i < N.to_nat num)%nat -> fs !! i = Some f ->
                     kll_sketch.get_quantile s f = Ok q -> rs' !! i = Some q)
         ∧ (∀ i, (N.to_nat num ≤ i)%nat -> rs' !! i = rs !! i).
Proof.
  intros Hn Hs Hnum Hlen Hok.
  destruct (batch_loop_done s (fun j => fs !! j) (N.to_nat num) 0 rs)
    as (rs' & Hdone & Hl & Hin & Hout).
  { done. }
  { intros i Hi. destruct (Hok i ltac:(lia)) as (f & q & Hf & Hq).
    exists q, f. done. }
  exists rs'. split; [| split; [done | split]].
  - rewrite (get_quantiles_runs_loop w h s) by done. by rewrite Hdone.
  - intros i f q Hi Hf Hq. apply Hin; [lia |]. by exists f.
  - intros i Hi. apply Hout. lia.
Qed.

Lemma evenly_spaced_completes (w : world E) (h : handle) (s : kll_sketch.sketch)
  (num : N) (rs : list T) :
  is_null h = false -> deref w h = Some s -> num ≠ 0 ->
  (N.to_nat num ≤ length rs)%nat ->
  (∀ i, (i < N.to_nat num)%nat ->
        ∃ q, kll_sketch.get_quantile s (evenly_spaced_fraction (N.of_nat i) num) = Ok q) ->
  ∃ rs', kll_sketch_get_quantiles_evenly_spaced w h num (Some rs)
         = Returns (Some rs')
         ∧ length rs' = length rs
         ∧ (∀ i q, (i < N.to_nat num)%nat ->
                   kll_sketch.get_quantile s (evenly_spaced_fraction (N.of_nat i) num)
                   = Ok q -> rs' !! i = Some q)
         ∧ (∀ i, (N.to_nat num ≤ i)%nat -> rs' !! i = rs !! i).
Proof.
  intros Hn Hs Hnum Hlen Hok.
  destruct (batch_loop_done s
              (fun j => Some (evenly_spaced_fraction (N.of_nat j) num))
              (N.to_nat num) 0 rs)
    as (rs' & Hdone & Hl & Hin & Hout).
  { done. }
  { intros i Hi. destruct (Hok i ltac:(lia)) as (q & Hq).
    exists q, (evenly_spaced_fraction (N.of_nat i) num). done. }
  exists rs'. split; [| split; [done | split]].
  - rewrite (evenly_spaced_runs_loop w h s) by done. by rewrite Hdone.
  - intros i q Hi Hq. apply Hin; [lia |]. eexists. done.
  - intros i Hi. apply Hout. lia.
Qed.
End BatchCalls.

(** ** Exceptions inside the batch queries *)

(** C10.  On a live handle and non-null arrays, when the query for some index
    [j] throws (for example because the fraction is outside [0,1]),
    [get_quantiles] and [get_quantiles_evenly_spaced] drop the exception and
    return normally.  The cells before [j] hold the computed quantiles, the
    cells from [j] on are as the caller left them, and nothing tells the
    caller about the failure: for [get_quantiles] the outcome is the very
    outcome of a call that asks for the first [j] fractions only. *)
Theorem batch_queries_swallow_exceptions :
  (∀ (E : kll_sketch.engine float) (w : world E) (h : handle)
     (s : kll_sketch.sketch) (fs : list double) (num : N) (rs : list float)
     (j : nat) (e : exn),
      is_null h = false -> deref w h = Some s ->
      (j < N.to_nat num)%nat -> (j ≤ length rs)%nat ->
      (∀ i, (i < j)%nat ->
            ∃ f q, fs !! i = Some f ∧ kll_sketch.get_quantile s f = Ok q) ->
      (∃ f, fs !! j = Some f ∧ kll_sketch.get_quantile s f = Throw e) ->
      ∃ rs', KllFloat.kll_float_sketch_get_quantiles w h (Some fs) num (Some rs)
             = Returns (Some rs')
             ∧ KllFloat.kll_float_sketch_get_quantiles w h (Some fs) (N.of_nat j)
                 (Some rs) = Returns (Some rs')
             ∧ length rs' = length rs
             ∧ (∀ i f q, (i < j)%nat -> fs !! i = Some f ->
                         kll_sketch.get_quantile s f = Ok q -> rs' !! i = Some q)
             ∧ (∀ i, (j ≤ i)%nat -> rs' !! i = rs !! i))
  ∧ (∀ (E : kll_sketch.engine float) (w : world E) (h : handle)
       (s : kll_sketch.sketch) (num : N) (rs : list float) (j : nat) (e : exn),
      is_null h = false -> deref w h = Some s ->
      (j < N.to_nat num)%nat -> (j ≤ length rs)%nat ->
      (∀ i, (i < j)%nat ->
            ∃ q, kll_sketch.get_quantile s (KllFloat.fraction_of (N.of_nat i) num)
                 = Ok q) ->
      kll_sketch.get_quantile s (KllFloat.fraction_of (N.of_nat j) num) = Throw e ->
      ∃ rs', KllFloat.kll_float_sketch_get_quantiles_evenly_spaced w h num (Some rs)
             = Returns (Some rs')
             ∧ length rs' = length rs
             ∧ (∀ i q, (i < j)%nat ->
                       kll_sketch.get_quantile s (KllFloat.fraction_of (N.of_nat i) num)
                       = Ok q -> rs' !! i = Some q)
             ∧ (∀ i, (j ≤ i)%nat -> rs' !! i = rs !! i))
  ∧ (∀ (E : kll_sketch.engine double) (w : world E) (h : handle)
       (s : kll_sketch.sketch) (fs : list double) (num : N) (rs : list double)
       (j : nat) (e : exn),
      is_null h = false -> deref w h = Some s ->
      (j < N.to_nat num)%nat -> (j ≤ length rs)%nat ->
      (∀ i, (i < j)%nat ->
            ∃ f q, fs !! i = Some f ∧ kll_sketch.get_quantile s f = Ok q) ->
      (∃ f, fs !! j = Some f ∧ kll_sketch.get_quantile s f = Throw e) ->
      ∃ rs', KllDouble.kll_double_sketch_get_quantiles w h (Some fs) num (Some rs)
             = Returns (Some rs')
             ∧ KllDouble.kll_double_sketch_get_quantiles w h (Some fs) (N.of_nat j)
                 (Some rs) = Returns (Some rs')
             ∧ length rs' = length rs
             ∧ (∀ i f q, (i < j)%nat -> fs !! i = Some f ->
                         kll_sketch.get_quantile s f = Ok q -> rs' !! i = Some q)
             ∧ (∀ i, (j ≤ i)%nat -> rs' !! i = rs !! i))
  ∧ (∀ (E : kll_sketch.engine double) (w : world E) (h : handle)
       (s : kll_sketch.sketch) (num : N) (rs : list double) (j : nat) (e : exn),
      is_null h = false -> deref w h = Some s ->
      (j < N.to_nat num)%nat -> (j ≤ length rs)%nat ->
      (∀ i, (i < j)%nat ->
            ∃ q, kll_sketch.get_quantile s (KllDouble.fraction_of (N.of_nat i) num)
                 = Ok q) ->
      kll_sketch.get_quantile s (KllDouble.fraction_of (N.of_nat j) num) = Throw e ->
      ∃ rs', KllDouble.kll_double_sketch_get_quantiles_evenly_spaced w h num (Some rs)
             = Returns (Some rs')
             ∧ length rs' = length rs
             ∧ (∀ i q, (i < j)%nat ->
                       kll_sketch.get_quantile s (KllDouble.fraction_of (N.of_nat i) num)
                       = Ok q -> rs' !! i = Some q)
             ∧ (∀ i, (j ≤ i)%nat -> rs' !! i = rs !! i)).
Proof.
  split; [| split; [| split]]; intros E w h s.
  - intros fs num rs j e. exact (get_quantiles_swallows w h s fs num rs j e).
  - intros num rs j e. exact (evenly_spaced_swallows w h s num rs j e).
  - intros fs num rs j e. exact (get_quantiles_swallows w h s fs num rs j e).
  - intros num rs j e. exact (evenly_spaced_swallows w h s num rs j e).
Qed.

Lemma batch_queries_swallow_exceptions_witness :
  (∃ rs', KllFloat.kll_float_sketch_get_quantiles (filled32 3) 1
            (Some mixed_fractions) 3 (Some (replicate 3 float_zero))
          = Returns (Some rs')
          ∧ rs' !! 0%nat = Some (float_of_Z 2)
          ∧ rs' !! 1%nat = Some float_zero
          ∧ rs' !! 2%nat = Some float_zero)
  ∧ (∃ rs', KllFloat.kll_float_sketch_get_quantiles_evenly_spaced fresh32.2
              fresh32.1 3 (Some (replicate 3 float_zero))
            = Returns (Some rs')
            ∧ rs' !! 0%nat = Some float_zero)
  ∧ (∃ rs', KllDouble.kll_double_sketch_get_quantiles (filled64 3) 1
              (Some mixed_fractions) 3 (Some (replicate 3 double_zero))
            = Returns (Some rs')
            ∧ rs' !! 0%nat = Some (double_of_Z 2)
            ∧ rs' !! 1%nat = Some double_zero
            ∧ rs' !! 2%nat = Some double_zero)
  ∧ (∃ rs', KllDouble.kll_double_sketch_get_quantiles_evenly_spaced fresh64.2
              fresh64.1 3 (Some (replicate 3 double_zero))
            = Returns (Some rs')
            ∧ rs' !! 0%nat = Some double_zero).
Proof.
  destruct batch_queries_swallow_exceptions as (Hfq & Hfe & Hdq & Hde).
  split; [| split; [| split]].
  - edestruct Hfq with (E := E32) (w := filled32 3) (h := 1)
      (fs := mixed_fractions) (num := 3) (rs := replicate 3 float_zero)
      (j := 1%nat) (e := RangeError)
      as (rs' & Hcall & _ & _ & Hin & Hout).
    + vm_compute; reflexivity.
    + vm_compute; reflexivity.
    + vm_compute; lia.
    + vm_compute; lia.
    + intros i Hi. assert (i = 0%nat) as -> by lia.
      eexists _, _.
      split; [vm_compute; reflexivity | vm_compute; reflexivity].
    + eexists. split; [vm_compute; reflexivity | vm_compute; reflexivity].
    + exists rs'. split; [exact Hcall |]. split; [| split].
      * eapply (Hin 0%nat);
          [lia | vm_compute; reflexivity | vm_compute; reflexivity].
      * rewrite Hout by lia. reflexivity.
      * rewrite Hout by lia. reflexivity.
  - edestruct Hfe with (E := E32) (w := fresh32.2) (h := fresh32.1)
      (num := 3) (rs := replicate 3 float_zero) (j := 0%nat)
      (e := EmptySketchError)
      as (rs' & Hcall & _ & Hin & Hout).
    + vm_compute; reflexivity.
    + vm_compute; reflexivity.
    + vm_compute; lia.
    + vm_compute; lia.
    + intros i Hi. lia.
    + vm_compute; reflexivity.
    + exists rs'. split; [exact Hcall |]. rewrite Hout by lia. reflexivity.
  - edestruct Hdq with (E := E64) (w := filled64 3) (h := 1)
      (fs := mixed_fractions) (num := 3) (rs := replicate 3 double_zero)
      (j := 1%nat) (e := RangeError)
      as (rs' & Hcall & _ & _ & Hin & Hout).
    + vm_compute; reflexivity.
    + vm_compute; reflexivity.
    + vm_compute; lia.
    + vm_compute; lia.
    + intros i Hi. assert (i = 0%nat) as -> by lia.
      eexists _, _.
      split; [vm_compute; reflexivity | vm_compute; reflexivity].
    + eexists. split; [vm_compute; reflexivity | vm_compute; reflexivity].
    + exists rs'. split; [exact Hcall |]. split; [| split].
      * eapply (Hin 0%nat);
          [lia | vm_compute; reflexivity | vm_compute; reflexivity].
      * rewrite Hout by lia. reflexivity.
      * rewrite Hout by lia. reflexivity.
  - edestruct Hde with (E := E64) (w := fresh64.2) (h := fresh64.1)
      (num := 3) (rs := replicate 3 double_zero) (j := 0%nat)
      (e := EmptySketchError)
      as (rs' & Hcall & _ & Hin & Hout).
    + vm_compute; reflexivity.
    + vm_compute; reflexivity.
    + vm_compute; lia.
    + vm_compute; lia.
    + intros i Hi. lia.
    + vm_compute; reflexivity.
    + exists rs'. split; [exact Hcall |]. rewrite Hout by lia. reflexivity.
Defined.

(** ** The batch query and the single query *)

Section BatchAgainstSingle.
Context {T : Type} {I : Item T} {E : kll_sketch.engine T} {L : engine_laws E}.

(** What a single call returns on a live handle is what the engine returns. *)
Lemma get_quantile_returns (w : world E) (h : handle) (s : kll_sketch.sketch)
  (f : double) (v : T) :
  is_null h = false -> deref w h = Some s ->
  kll_sketch_get_quantile w h f = Returns v ->
  kll_sketch.get_quantile s f = Ok v.
Proof.
  intros Hn Hs. unfold kll_sketch_get_quantile. rewrite Hn, Hs.
  destruct (kll_sketch.get_quantile s f); [congruence | discriminate].
Qed.

Lemma get_quantile_escapes (w : world E) (h : handle) (s : kll_sketch.sketch)
  (f : double) (e : exn) :
  is_null h = false -> deref w h = Some s ->
  kll_sketch_get_quantile w h f = Escapes e ->
  kll_sketch.get_quantile s f = Throw e.
Proof.
  intros Hn Hs. unfold kll_sketch_get_quantile. rewrite Hn, Hs.
  destruct (kll_sketch.get_quantile s f); [discriminate | congruence].
Qed.

Lemma get_quantiles_agrees (w : world E) (h : handle) (s : kll_sketch.sketch)
  (fs : list double) (num : N) (rs : list T) :
  is_null h = false -> deref w h = Some s -> 0 < num ->
  (N.to_nat num ≤ length fs)%nat -> (N.to_nat num ≤ length rs)%nat ->
  (∀ i f, (i < N.to_nat num)%nat -> fs !! i = Some f -> in_unit_range f = true) ->
  ∃ rs', kll_sketch_get_quantiles w h (Some fs) num (Some rs) = Returns (Some rs')
         ∧ length rs' = length rs
         ∧ (∀ i f v, (i < N.to_nat num)%nat -> fs !! i = Some f ->
                     kll_sketch_get_quantile w h f = Returns v ->
                     rs' !! i = Some v)
         ∧ (∀ i f e, (i < N.to_nat num)%nat -> fs !! i = Some f ->
                     kll_sketch_get_quantile w h f = Escapes e ->
                     rs' = rs)
         ∧ (∀ i, (N.to_nat num ≤ i)%nat -> rs' !! i = rs !! i).
Proof.
  intros Hn Hs Hnum Hfs Hrs Hrange.
  destruct (lookup_lt_is_Some_2 fs 0%nat ltac:(lia)) as [f0 Hf0].
  pose proof (Hrange 0%nat f0 ltac:(lia) Hf0) as Hr0.
  destruct (kll_sketch.get_quantile s f0) as [v0 | e0] eqn:Hq0.
  - (* the sketch answers: it answers every fraction in range *)
    destruct (get_quantiles_completes w h s fs num rs)
      as (rs' & Hcall & Hl & Hin & Hout); [done | done | lia | done | |].
    { intros i Hi.
      destruct (lookup_lt_is_Some_2 fs i ltac:(lia)) as [f Hf].
      destruct (quantile_uniform s f0 f v0 Hr0 (Hrange i f Hi Hf) Hq0) as [v Hv].
      by exists f, v. }
    exists rs'. split; [done |]. split; [done |]. split; [| split; [| done]].
    + intros i f v Hi Hf Hsingle. apply (Hin i f v Hi Hf).
      by apply (get_quantile_returns w h).
    + intros i f e Hi Hf Hsingle.
      apply (get_quantile_escapes w h s) in Hsingle; [| done | done].
      destruct (quantile_uniform s f0 f v0 Hr0 (Hrange i f Hi Hf) Hq0) as [v Hv].
      congruence.
  - (* the sketch does not answer: the first query throws *)
    destruct (batch_loop_raised s (fun j => fs !! j) 0 (N.to_nat num - 1) 0 rs e0)
      as (rs' & Hraise & Hdone & _); [simpl; lia | intros i Hi; lia | by exists f0 |].
    simpl in Hdone. inversion Hdone. subst rs'.
    replace (0 + S (N.to_nat num - 1))%nat with (N.to_nat num) in Hraise by lia.
    exists rs. split; [| split; [done | split; [| done]]].
    + rewrite (get_quantiles_runs_loop w h s) by (done || lia).
      by rewrite Hraise.
    + intros i f v Hi Hf Hsingle.
      apply (get_quantile_returns w h s) in Hsingle; [| done | done].
      destruct (quantile_uniform s f f0 v (Hrange i f Hi Hf) Hr0 Hsingle)
        as [v' Hv'].
      congruence.
Qed.
End BatchAgainstSingle.

(** C5.  On a live handle, with non-null arrays that hold at least
    [num_fractions > 0] cells and fractions all in [0,1], [get_quantiles]
    returns normally and leaves in [results[i]], for every
    [i < num_fractions], the value that the single call
    [get_quantile(sketch, fractions[i])] returns.  (When the single call
    returns nothing because the engine throws, as on an empty sketch, the
    batch call leaves the array as it was.)  The cells from [num_fractions]
    on are unchanged. *)
Theorem get_quantiles_is_repeated_get_quantile :
  (∀ (E : kll_sketch.engine float) (L : engine_laws E) (w : world E)
     (h : handle) (s : kll_sketch.sketch) (fs : list double) (num : N)
     (rs : list float),
      is_null h = false -> deref w h = Some s -> 0 < num ->
      (N.to_nat num ≤ length fs)%nat -> (N.to_nat num ≤ length rs)%nat ->
      (∀ i f, (i < N.to_nat num)%nat -> fs !! i = Some f ->
              in_unit_range f = true) ->
      ∃ rs', KllFloat.kll_float_sketch_get_quantiles w h (Some fs) num (Some rs)
             = Returns (Some rs')
             ∧ length rs' = length rs
             ∧ (∀ i f v, (i < N.to_nat num)%nat -> fs !! i = Some f ->
                         KllFloat.kll_float_sketch_get_quantile w h f = Returns v ->
                         rs' !! i = Some v)
             ∧ (∀ i f e, (i < N.to_nat num)%nat -> fs !! i = Some f ->
                         KllFloat.kll_float_sketch_get_quantile w h f = Escapes e ->
                         rs' = rs)
             ∧ (∀ i, (N.to_nat num ≤ i)%nat -> rs' !! i = rs !! i))
  ∧ (∀ (E : kll_sketch.engine double) (L : engine_laws E) (w : world E)
       (h : handle) (s : kll_sketch.sketch) (fs : list double) (num : N)
       (rs : list double),
      is_null h = false -> deref w h = Some s -> 0 < num ->
      (N.to_nat num ≤ length fs)%nat -> (N.to_nat num ≤ length rs)%nat ->
      (∀ i f, (i < N.to_nat num)%nat -> fs !! i = Some f ->
              in_unit_range f = true) ->
      ∃ rs', KllDouble.kll_double_sketch_get_quantiles w h (Some fs) num (Some rs)
             = Returns (Some rs')
             ∧ length rs' = length rs
             ∧ (∀ i f v, (i < N.to_nat num)%nat -> fs !! i = Some f ->
                         KllDouble.kll_double_sketch_get_quantile w h f = Returns v ->
                         rs' !! i = Some v)
             ∧ (∀ i f e, (i < N.to_nat num)%nat -> fs !! i = Some f ->
                         KllDouble.kll_double_sketch_get_quantile w h f = Escapes e ->
                         rs' = rs)
             ∧ (∀ i, (N.to_nat num ≤ i)%nat -> rs' !! i = rs !! i)).
Proof.
  split; intros E L w h s fs num rs.
  - exact (get_quantiles_agrees w h s fs num rs).
  - exact (get_quantiles_agrees w h s fs num rs).
Qed.

Lemma unit_fractions_in_range (i : nat) (f : double) :
  unit_fractions !! i = Some f -> in_unit_range f = true.
Proof.
  intros Hf. do 3 (destruct i as [| i]; [inversion Hf; vm_compute; reflexivity |]).
  discriminate.
Qed.

Lemma get_quantiles_is_repeated_get_quantile_witness :
  (∃ rs', KllFloat.kll_float_sketch_get_quantiles (filled32 3) 1
            (Some unit_fractions) 3 (Some (replicate 4 float_zero))
          = Returns (Some rs')
          ∧ rs' !! 0%nat = Some (float_of_Z 2)
          ∧ rs' !! 1%nat = Some (float_of_Z 1)
          ∧ rs' !! 2%nat = Some (float_of_Z 3)
          ∧ rs' !! 3%nat = Some float_zero)
  ∧ (∃ rs', KllDouble.kll_double_sketch_get_quantiles (filled64 3) 1
              (Some unit_fractions) 3 (Some (replicate 4 double_zero))
            = Returns (Some rs')
            ∧ rs' !! 0%nat = Some (double_of_Z 2)
            ∧ rs' !! 1%nat = Some (double_of_Z 1)
            ∧ rs' !! 2%nat = Some (double_of_Z 3)
            ∧ rs' !! 3%nat = Some double_zero).
Proof.
  destruct get_quantiles_is_repeated_get_quantile as (Hf & Hd).
  split.
  - edestruct Hf with (E := E32) (w := filled32 3) (h := 1)
      (fs := unit_fractions) (num := 3) (rs := replicate 4 float_zero)
      as (rs' & Hcall & _ & Hin & _ & Hout).
    + apply reference_engine_laws.
    + vm_compute; reflexivity.
    + vm_compute; reflexivity.
    + reflexivity.
    + vm_compute; lia.
    + vm_compute; lia.
    + intros i f _. apply unit_fractions_in_range.
    + exists rs'. split; [exact Hcall |].
      split; [| split; [| split]].
      * eapply (Hin 0%nat); [vm_compute; lia | reflexivity | vm_compute; reflexivity].
      * eapply (Hin 1%nat); [vm_compute; lia | reflexivity | vm_compute; reflexivity].
      * eapply (Hin 2%nat); [vm_compute; lia | reflexivity | vm_compute; reflexivity].
      * rewrite Hout by (vm_compute; lia). reflexivity.
  - edestruct Hd with (E := E64) (w := filled64 3) (h := 1)
      (fs := unit_fractions) (num := 3) (rs := replicate 4 double_zero)
      as (rs' & Hcall & _ & Hin & _ & Hout).
    + apply reference_engine_laws.
    + vm_compute; reflexivity.
    + vm_compute; reflexivity.
    + reflexivity.
    + vm_compute; lia.
    + vm_compute; lia.
    + intros i f _. apply unit_fractions_in_range.
    + exists rs'. split; [exact Hcall |].
      split; [| split; [| split]].
      * eapply (Hin 0%nat); [vm_compute; lia | reflexivity | vm_compute; reflexivity].
      * eapply (Hin 1%nat); [vm_compute; lia | reflexivity | vm_compute; reflexivity].
      * eapply (Hin 2%nat); [vm_compute; lia | reflexivity | vm_compute; reflexivity].
      * rewrite Hout by (vm_compute; lia). reflexivity.
Defined.

(** ** Evenly spaced quantiles *)

(** With [num >= 2] (or any [num > 0]) and every query answered, cell [i]
    holds the quantile of the fraction [i / (num - 1)]. *)
Lemma evenly_spaced_writes_quantiles :
  (∀ (E : kll_sketch.engine float) (w : world E) (h : handle)
     (s : kll_sketch.sketch) (num : N) (rs : list float),
      is_null h = false -> deref w h = Some s -> 2 <= num ->
      (N.to_nat num ≤ length rs)%nat ->
      (∀ i, (i < N.to_nat num)%nat ->
            ∃ q, kll_sketch.get_quantile s (KllFloat.fraction_of (N.of_nat i) num)
                 = Ok q) ->
      ∃ rs', KllFloat.kll_float_sketch_get_quantiles_evenly_spaced w h num (Some rs)
             = Returns (Some rs')
             ∧ length rs' = length rs
             ∧ (∀ i q, (i < N.to_nat num)%nat ->
                       KllFloat.kll_float_sketch_get_quantile w h
                         (KllFloat.fraction_of (N.of_nat i) num) = Returns q ->
                       rs' !! i = Some q)
             ∧ (∀ i, (N.to_nat num ≤ i)%nat -> rs' !! i = rs !! i))
  ∧ (∀ (E : kll_sketch.engine double) (w : world E) (h : handle)
       (s : kll_sketch.sketch) (num : N) (rs : list double),
      is_null h = false -> deref w h = Some s -> 2 <= num ->
      (N.to_nat num ≤ length rs)%nat ->
      (∀ i, (i < N.to_nat num)%nat ->
            ∃ q, kll_sketch.get_quantile s (KllDouble.fraction_of (N.of_nat i) num)
                 = Ok q) ->
      ∃ rs', KllDouble.kll_double_sketch_get_quantiles_evenly_spaced w h num (Some rs)
             = Returns (Some rs')
             ∧ length rs' = length rs
             ∧ (∀ i q, (i < N.to_nat num)%nat ->
                       KllDouble.kll_double_sketch_get_quantile w h
                         (KllDouble.fraction_of (N.of_nat i) num) = Returns q ->
                       rs' !! i = Some q)
             ∧ (∀ i, (N.to_nat num ≤ i)%nat -> rs' !! i = rs !! i)).
Proof.
  split; intros E w h s num rs Hn Hs Hnum Hlen Hok.
  - destruct (evenly_spaced_completes w h s num rs)
      as (rs' & Hcall & Hl & Hin & Hout); [done | done | lia | done | done |].
    exists rs'. split; [done |]. split; [done |]. split; [| done].
    intros i q Hi Hq. apply Hin; [done |].
    by apply (get_quantile_returns (I := float_item) w h).
  - destruct (evenly_spaced_completes w h s num rs)
      as (rs' & Hcall & Hl & Hin & Hout); [done | done | lia | done | done |].
    exists rs'. split; [done |]. split; [done |]. split; [| done].
    intros i q Hi Hq. apply Hin; [done |].
    by apply (get_quantile_returns (I := double_item) w h).
Qed.

(** Five points over the float sketch of 1, 2, ..., 8: the fractions are 0,
    1/4, 1/2, 3/4 and 1. *)
Example evenly_spaced_five_points :
  KllFloat.kll_float_sketch_get_quantiles_evenly_spaced (filled32 8) 1 5
    (Some (replicate 5 float_zero))
  = Returns (Some [float_of_Z 1; float_of_Z 2; float_of_Z 4; float_of_Z 6;
                   float_of_Z 8]).
Proof. vm_compute. reflexivity. Qed.

(** C4 (what the code does).  The guard of [get_quantiles_evenly_spaced]
    rejects [num = 0] only.  With [num = 1] the one fraction computed is
    [0.0 / 0], a NaN: no fraction at all.  It is handed to [get_quantile]
    all the same, and the call returns normally whatever the engine does
    with it: when the engine throws, the results array is untouched; when
    the engine answers, [results[0]] holds its answer to a NaN. *)
Theorem evenly_spaced_one_point_is_zero_over_zero
  (E_f : kll_sketch.engine float) (E_d : kll_sketch.engine double)
  (w_f : world E_f) (w_d : world E_d) (h_f h_d : handle)
  (s_f : @kll_sketch.sketch _ E_f) (s_d : @kll_sketch.sketch _ E_d)
  (rs_f : list float) (rs_d : list double) :
  is_null h_f = false -> deref w_f h_f = Some s_f ->
  is_null h_d = false -> deref w_d h_d = Some s_d ->
  double_is_nan (KllFloat.fraction_of 0 1) = true
  ∧ double_is_nan (KllDouble.fraction_of 0 1) = true
  ∧ in_unit_range (KllFloat.fraction_of 0 1) = false
  ∧ in_unit_range (KllDouble.fraction_of 0 1) = false
  ∧ KllFloat.kll_float_sketch_get_quantiles_evenly_spaced w_f h_f 1 (Some rs_f)
    = match kll_sketch.get_quantile s_f (KllFloat.fraction_of 0 1) with
      | Throw _ => Returns (Some rs_f)
      | Ok q => if bool_decide (0 < length rs_f)%nat
                then Returns (Some (<[0%nat := q]> rs_f))
                else Undefined
      end
  ∧ KllDouble.kll_double_sketch_get_quantiles_evenly_spaced w_d h_d 1 (Some rs_d)
    = match kll_sketch.get_quantile s_d (KllDouble.fraction_of 0 1) with
      | Throw _ => Returns (Some rs_d)
      | Ok q => if bool_decide (0 < length rs_d)%nat
                then Returns (Some (<[0%nat := q]> rs_d))
                else Undefined
      end.
Proof.
  intros Hn_f Hs_f Hn_d Hs_d.
  do 4 (split; [vm_compute; reflexivity |]).
  unfold KllFloat.kll_float_sketch_get_quantiles_evenly_spaced,
    KllDouble.kll_double_sketch_get_quantiles_evenly_spaced.
  rewrite Hn_f, Hs_f, Hn_d, Hs_d. simpl.
  split.
  - destruct (kll_sketch.get_quantile s_f _); [| reflexivity].
    case_bool_decide; reflexivity.
  - destruct (kll_sketch.get_quantile s_d _); [| reflexivity].
    case_bool_decide; reflexivity.
Qed.

(** On the reference engine the NaN is refused and the array untouched. *)
Lemma evenly_spaced_one_point_is_zero_over_zero_witness :
  double_is_nan (KllFloat.fraction_of 0 1) = true
  ∧ double_is_nan (KllDouble.fraction_of 0 1) = true
  ∧ KllFloat.kll_float_sketch_get_quantiles_evenly_spaced (filled32 3) 1 1
      (Some [float_of_Z 7]) = Returns (Some [float_of_Z 7])
  ∧ KllDouble.kll_double_sketch_get_quantiles_evenly_spaced (filled64 3) 1 1
      (Some [double_of_Z 7]) = Returns (Some [double_of_Z 7]).
Proof.
  edestruct (evenly_spaced_one_point_is_zero_over_zero E32 E64
               (filled32 3) (filled64 3) 1 1)
    with (rs_f := [float_of_Z 7]) (rs_d := [double_of_Z 7])
    as (Hnan_f & Hnan_d & _ & _ & Hcall_f & Hcall_d).
  - reflexivity.
  - vm_compute; reflexivity.
  - reflexivity.
  - vm_compute; reflexivity.
  - split; [exact Hnan_f |]. split; [exact Hnan_d |].
    split.
    + etrans; [exact Hcall_f | vm_compute; reflexivity].
    + etrans; [exact Hcall_d | vm_compute; reflexivity].
Defined.

(** ** The codec of the reference engine *)

(** *** Little-endian integers *)

Lemma byte_to_N_lt (b : byte) : Byte.to_N b < 256.
Proof. pose proof (Byte.to_N_bounded b). lia. Qed.

Lemma to_N_byte_of_N (x : N) : Byte.to_N (byte_of_N x) = x mod 256.
Proof.
  unfold byte_of_N.
  destruct (Byte.of_N (x mod 256)) as [b |] eqn:Hb; simpl.
  - by apply Byte.to_of_N.
  - apply Byte.of_N_None_iff in Hb.
    pose proof (N.mod_upper_bound x 256 ltac:(lia)). lia.
Qed.

Lemma byte_of_N_to_N (b : byte) : byte_of_N (Byte.to_N b) = b.
Proof.
  unfold byte_of_N.
  rewrite N.mod_small by apply byte_to_N_lt.
  by rewrite Byte.of_to_N.
Qed.

Lemma length_le_encode (w : nat) (x : N) : length (le_encode w x) = w.
Proof. revert x. induction w as [| w IH]; intros x; simpl; [done | by rewrite IH]. Qed.

Lemma le_decode_lt (bs : list byte) : le_decode bs < 256 ^ N.of_nat (length bs).
Proof.
  induction bs as [| b bs IH]; simpl le_decode; simpl length.
  - simpl. lia.
  - rewrite Nat2N.inj_succ, N.pow_succ_r'.
    pose proof (byte_to_N_lt b). lia.
Qed.

Lemma le_decode_encode (w : nat) (x : N) :
  x < 256 ^ N.of_nat w -> le_decode (le_encode w x) = x.
Proof.
  revert x. induction w as [| w IH]; intros x Hx; simpl le_encode; simpl le_decode.
  - simpl in Hx. lia.
  - rewrite Nat2N.inj_succ, N.pow_succ_r' in Hx.
    rewrite to_N_byte_of_N, IH.
    + pose proof (N.div_mod x 256 ltac:(lia)). lia.
    + apply N.Div0.div_lt_upper_bound. lia.
Qed.

Lemma le_encode_decode (bs : list byte) :
  le_encode (length bs) (le_decode bs) = bs.
Proof.
  induction bs as [| b bs IH]; simpl; [done |].
  pose proof (byte_to_N_lt b) as Hb.
  f_equal.
  - replace (Byte.to_N b + 256 * le_decode bs) with (Byte.to_N b + le_decode bs * 256) by lia.
    unfold byte_of_N. rewrite N.Div0.mod_add, N.mod_small by done.
    by rewrite Byte.of_to_N.
  - replace (Byte.to_N b + 256 * le_decode bs) with (Byte.to_N b + le_decode bs * 256) by lia.
    rewrite N.div_add by lia. rewrite N.div_small by done. simpl. done.
Qed.

(** *** Results of readers *)

Lemma bind_Ok {A B : Type} (a : A) (f : A -> res B) : Ok a ≫= f = f a.
Proof. reflexivity. Qed.

Lemma res_bind_Ok {A B : Type} (r : res A) (f : A -> res B) (b : B) :
  r ≫= f = Ok b -> ∃ a, r = Ok a ∧ f a = Ok b.
Proof. destruct r as [a | e]; simpl; [eauto | discriminate]. Qed.

Lemma throws_only_de_Ok {A : Type} (a : A) : throws_only_de (Ok a).
Proof. intros e He. discriminate. Qed.

Lemma throws_only_de_Throw {A : Type} :
  throws_only_de (@Throw A DeserializationError).
Proof. intros e He. congruence. Qed.

Lemma throws_only_de_bind {A B : Type} (r : res A) (f : A -> res B) :
  throws_only_de r -> (∀ a, throws_only_de (f a)) -> throws_only_de (r ≫= f).
Proof.
  intros Hr Hf e. destruct r as [a | e']; simpl.
  - apply Hf.
  - intros He. apply Hr. congruence.
Qed.

Create HintDb readers.
#[local] Hint Resolve throws_only_de_Ok throws_only_de_Throw : readers.

(** *** Variable-length integers *)

Lemma size_div_128 (x : N) : 128 <= x -> N.size (x / 128) < N.size x.
Proof.
  intros Hx.
  assert (Hq : x / 128 ≠ 0).
  { intros Hq. apply N.div_small_iff in Hq; lia. }
  rewrite !N.size_log2 by lia.
  change 128 with (2 ^ 7) at 1. rewrite <- N.shiftr_div_pow2, N.log2_shiftr.
  assert (7 <= N.log2 x).
  { change 7 with (N.log2 (2 ^ 7)). apply N.log2_le_mono. exact Hx. }
  lia.
Qed.

Lemma to_N_continuation_byte (x : N) :
  Byte.to_N (byte_of_N (128 + x mod 128)) = 128 + x mod 128.
Proof.
  rewrite to_N_byte_of_N. apply N.mod_small.
  pose proof (N.mod_upper_bound x 128 ltac:(lia)). lia.
Qed.

Lemma read_varint_go (fuel : nat) (x : N) (rest : list byte) :
  (N.to_nat (N.size x) < fuel)%nat ->
  Kll.read_varint (varint_go fuel x ++ rest) = Ok (x, rest).
Proof.
  revert x. induction fuel as [| fuel IH]; intros x Hfuel; [lia |].
  cbn [varint_go]. destruct (x <? 128) eqn:Hx.
  - apply N.ltb_lt in Hx. cbn [app Kll.read_varint].
    rewrite to_N_byte_of_N, N.mod_small by lia.
    by rewrite (proj2 (N.ltb_lt _ _) Hx).
  - apply N.ltb_ge in Hx. cbn [app Kll.read_varint].
    rewrite to_N_continuation_byte.
    assert (Hc : (128 + x mod 128 <? 128) = false) by (apply N.ltb_ge, N.le_add_r).
    rewrite Hc.
    pose proof (size_div_128 x Hx) as Hsize.
    rewrite IH, bind_Ok by lia. cbv beta iota.
    assert (Hq : x / 128 ≠ 0).
    { intros Hq. apply N.div_small_iff in Hq; lia. }
    apply N.eqb_neq in Hq as Hq'. rewrite Hq'.
    do 2 f_equal. pose proof (N.div_mod x 128 ltac:(lia)) as Hdm.
    revert Hdm. generalize (x mod 128) (x / 128). lia.
Qed.

Lemma read_varint_app (x : N) (rest : list byte) :
  Kll.read_varint (encode_varint x ++ rest) = Ok (x, rest).
Proof. apply read_varint_go. lia. Qed.

(** More fuel than needed changes nothing. *)
Lemma varint_go_fuel (fuel fuel' : nat) (x : N) :
  (N.to_nat (N.size x) < fuel)%nat -> (N.to_nat (N.size x) < fuel')%nat ->
  varint_go fuel x = varint_go fuel' x.
Proof.
  revert fuel' x. induction fuel as [| fuel IH]; intros fuel' x H1 H2; [lia |].
  destruct fuel' as [| fuel']; [lia |].
  cbn [varint_go]. destruct (x <? 128) eqn:Hx; [done |].
  apply N.ltb_ge in Hx. pose proof (size_div_128 x Hx).
  f_equal. apply IH; lia.
Qed.

Lemma read_varint_Ok (bs : list byte) (x : N) (t : list byte) :
  Kll.read_varint bs = Ok (x, t) -> bs = encode_varint x ++ t.
Proof.
  revert x t. induction bs as [| b bs IH]; intros x t; cbn [Kll.read_varint].
  - discriminate.
  - pose proof (byte_to_N_lt b) as Hb.
    destruct (Byte.to_N b <? 128) eqn:Hlow.
    + intros Heq. inversion Heq. subst.
      unfold encode_varint. cbn [varint_go]. rewrite Hlow.
      by rewrite byte_of_N_to_N.
    + apply N.ltb_ge in Hlow. intros Hr.
      apply res_bind_Ok in Hr as ([hi rest] & Hhi & Hr).
      destruct (hi =? 0) eqn:H0; [discriminate |].
      apply N.eqb_neq in H0. inversion Hr. subst x t. clear Hr.
      apply IH in Hhi as ->.
      set (x := Byte.to_N b - 128 + 128 * hi).
      assert (Hmod : x mod 128 = Byte.to_N b - 128).
      { unfold x. rewrite (N.mul_comm 128 hi), N.Div0.mod_add.
        apply N.mod_small. lia. }
      assert (Hdiv : x / 128 = hi).
      { unfold x. rewrite (N.mul_comm 128 hi), N.div_add by lia.
        rewrite N.div_small by lia. lia. }
      assert (Hx : 128 <= x) by (unfold x; lia).
      unfold encode_varint at 2. cbn [varint_go].
      assert (Hc : (x <? 128) = false) by (apply N.ltb_ge; exact Hx).
      rewrite Hc, Hmod, Hdiv.
      replace (128 + (Byte.to_N b - 128)) with (Byte.to_N b) by lia.
      rewrite byte_of_N_to_N. cbn [app]. do 2 f_equal.
      pose proof (size_div_128 x Hx) as Hsize. rewrite Hdiv in Hsize.
      unfold encode_varint. apply varint_go_fuel; lia.
Qed.

Lemma read_varint_throws (bs : list byte) : throws_only_de (Kll.read_varint bs).
Proof.
  induction bs as [| b bs IH]; cbn [Kll.read_varint]; [auto with readers |].
  destruct (Byte.to_N b <? 128); [auto with readers |].
  apply throws_only_de_bind; [exact IH |].
  intros [hi rest]. destruct (hi =? 0); auto with readers.
Qed.

Section CodecFacts.
Context {T : Type} {I : Item T} {IL : ItemLaws T}.

(** *** Taking bytes *)

Lemma take_bytes_app (c : nat) (a rest : list byte) :
  length a = c -> Kll.take_bytes c (a ++ rest) = Ok (a, rest).
Proof.
  intros Hc. unfold Kll.take_bytes.
  rewrite bool_decide_eq_true_2 by (rewrite length_app; lia).
  by rewrite take_app_length', drop_app_length'.
Qed.

Lemma take_bytes_Ok (c : nat) (bs h t : list byte) :
  Kll.take_bytes c bs = Ok (h, t) -> bs = h ++ t ∧ length h = c.
Proof.
  unfold Kll.take_bytes. case_bool_decide as Hc; [| discriminate].
  intros Heq. inversion Heq. split.
  - by rewrite take_drop.
  - rewrite length_take. lia.
Qed.

Lemma take_bytes_throws (c : nat) (bs : list byte) :
  throws_only_de (Kll.take_bytes c bs).
Proof. unfold Kll.take_bytes. case_bool_decide; auto with readers. Qed.

(** *** Unsigned integers *)

Lemma read_uint_app (w : nat) (x : N) (rest : list byte) :
  x < 256 ^ N.of_nat w ->
  Kll.read_uint w (le_encode w x ++ rest) = Ok (x, rest).
Proof.
  intros Hx. unfold Kll.read_uint.
  rewrite take_bytes_app by apply length_le_encode. simpl.
  by rewrite le_decode_encode.
Qed.

Lemma read_uint_Ok (w : nat) (bs : list byte) (x : N) (t : list byte) :
  Kll.read_uint w bs = Ok (x, t) ->
  bs = le_encode w x ++ t ∧ x < 256 ^ N.of_nat w.
Proof.
  unfold Kll.read_uint. intros Hr.
  apply res_bind_Ok in Hr as ([h t'] & Htake & Hret).
  apply take_bytes_Ok in Htake as [-> Hlen]. inversion Hret. subst.
  split.
  - by rewrite le_encode_decode.
  - apply le_decode_lt.
Qed.

Lemma read_uint_throws (w : nat) (bs : list byte) :
  throws_only_de (Kll.read_uint w bs).
Proof.
  unfold Kll.read_uint. apply throws_only_de_bind.
  - apply take_bytes_throws.
  - intros [h t]. auto with readers.
Qed.

(** *** Items *)

Lemma read_item_app (x : T) (rest : list byte) :
  Kll.read_item (item_bytes x ++ rest) = Ok (x, rest).
Proof.
  unfold Kll.read_item.
  rewrite take_bytes_app by apply item_bytes_length. simpl.
  by rewrite item_of_bytes_bytes.
Qed.

Lemma read_item_Ok (bs : list byte) (x : T) (t : list byte) :
  Kll.read_item bs = Ok (x, t) -> bs = item_bytes x ++ t.
Proof.
  unfold Kll.read_item. intros Hr.
  apply res_bind_Ok in Hr as ([h t'] & Htake & Hret).
  apply take_bytes_Ok in Htake as [-> Hlen].
  destruct (item_of_bytes h) as [y |] eqn:Hy; [| discriminate].
  inversion Hret. subst. by rewrite (item_bytes_of_bytes h x).
Qed.

Lemma read_item_throws (bs : list byte) : throws_only_de (Kll.read_item bs).
Proof.
  unfold Kll.read_item. apply throws_only_de_bind.
  - apply take_bytes_throws.
  - intros [h t]. destruct (item_of_bytes h); auto with readers.
Qed.

Lemma read_items_app (l : list T) (rest : list byte) :
  Kll.read_items (length l) (Kll.encode_items l ++ rest) = Ok (l, rest).
Proof.
  induction l as [| x l IH]; [done |].
  cbn [Kll.read_items Kll.encode_items flat_map length].
  fold (Kll.encode_items l).
  rewrite <- app_assoc, read_item_app, bind_Ok. cbv beta iota.
  by rewrite IH.
Qed.

Lemma read_items_Ok (c : nat) (bs : list byte) (l : list T) (t : list byte) :
  Kll.read_items c bs = Ok (l, t) ->
  bs = Kll.encode_items l ++ t ∧ length l = c.
Proof.
  revert bs l. induction c as [| c IH]; intros bs l; simpl.
  - intros Heq. inversion Heq. done.
  - intros Hr.
    apply res_bind_Ok in Hr as ([x bs1] & Hx & Hr).
    apply res_bind_Ok in Hr as ([xs bs2] & Hxs & Hret).
    inversion Hret. subst.
    apply read_item_Ok in Hx as ->.
    apply IH in Hxs as [-> <-].
    split; [| done]. simpl. by rewrite <- app_assoc.
Qed.

Lemma read_items_throws (c : nat) (bs : list byte) :
  throws_only_de (Kll.read_items c bs).
Proof.
  revert bs. induction c as [| c IH]; intros bs; simpl; [auto with readers |].
  apply throws_only_de_bind; [apply read_item_throws |].
  intros [x bs1]. apply throws_only_de_bind; [apply IH |].
  intros [xs bs2]. auto with readers.
Qed.

Lemma length_encode_items (l : list T) :
  length (Kll.encode_items l) = (item_size * length l)%nat.
Proof.
  induction l as [| x l IH]; [simpl; lia |].
  cbn [Kll.encode_items flat_map length]. fold (Kll.encode_items l).
  rewrite length_app, item_bytes_length, IH. lia.
Qed.

(** *** Level counts and levels *)

Lemma read_counts_app (cs : list nat) (rest : list byte) :
  Kll.read_counts (length cs) (Kll.encode_counts cs ++ rest) = Ok (cs, rest).
Proof.
  induction cs as [| c cs IH]; [done |].
  cbn [Kll.read_counts Kll.encode_counts flat_map length].
  fold (Kll.encode_counts cs).
  rewrite <- app_assoc, read_varint_app, bind_Ok. cbv beta iota.
  by rewrite IH, bind_Ok, Nat2N.id.
Qed.

Lemma read_counts_Ok (c : nat) (bs : list byte) (cs : list nat) (t : list byte) :
  Kll.read_counts c bs = Ok (cs, t) ->
  bs = Kll.encode_counts cs ++ t ∧ length cs = c.
Proof.
  revert bs cs. induction c as [| c IH]; intros bs cs; simpl.
  - intros Heq. inversion Heq. done.
  - intros Hr.
    apply res_bind_Ok in Hr as ([x bs1] & Hx & Hr).
    apply res_bind_Ok in Hr as ([xs bs2] & Hxs & Hret).
    inversion Hret. subst.
    apply read_varint_Ok in Hx as ->.
    apply IH in Hxs as (-> & <-).
    split; [| done].
    cbn [Kll.encode_counts flat_map]. by rewrite N2Nat.id, <- app_assoc.
Qed.

Lemma read_counts_throws (c : nat) (bs : list byte) :
  throws_only_de (Kll.read_counts c bs).
Proof.
  revert bs. induction c as [| c IH]; intros bs; simpl; [auto with readers |].
  apply throws_only_de_bind; [apply read_varint_throws |].
  intros [x bs1]. apply throws_only_de_bind; [apply IH |].
  intros [xs bs2]. auto with readers.
Qed.

Lemma read_levels_app (lv : list (list T)) (rest : list byte) :
  Kll.read_levels (map length lv) (flat_map Kll.encode_items lv ++ rest)
  = Ok (lv, rest).
Proof.
  induction lv as [| l lv IH]; [done |].
  cbn [Kll.read_levels flat_map map].
  rewrite <- app_assoc, read_items_app, bind_Ok. cbv beta iota.
  by rewrite IH.
Qed.

Lemma read_levels_Ok (cs : list nat) (bs : list byte) (lv : list (list T))
  (t : list byte) :
  Kll.read_levels cs bs = Ok (lv, t) ->
  bs = flat_map Kll.encode_items lv ++ t ∧ map length lv = cs.
Proof.
  revert bs lv. induction cs as [| c cs IH]; intros bs lv; simpl.
  - intros Heq. inversion Heq. done.
  - intros Hr.
    apply res_bind_Ok in Hr as ([l bs1] & Hl & Hr).
    apply res_bind_Ok in Hr as ([lv' bs2] & Hlv & Hret).
    inversion Hret. subst.
    apply read_items_Ok in Hl as [-> <-].
    apply IH in Hlv as [-> <-].
    split; [| done]. simpl. by rewrite <- app_assoc.
Qed.

Lemma read_levels_throws (cs : list nat) (bs : list byte) :
  throws_only_de (Kll.read_levels (T := T) cs bs).
Proof.
  revert bs. induction cs as [| c cs IH]; intros bs; simpl; [auto with readers |].
  apply throws_only_de_bind; [apply read_items_throws |].
  intros [l bs1]. apply throws_only_de_bind; [apply IH |].
  intros [lv bs2]. auto with readers.
Qed.

(** The length of the payload is what the counts declare. *)
Lemma length_payload (lv : list (list T)) :
  length (flat_map Kll.encode_items lv)
  = (item_size * sum_list (map length lv))%nat.
Proof.
  induction lv as [| l lv IH]; simpl; [lia |].
  rewrite length_app, length_encode_items, IH. lia.
Qed.

(** *** The flags byte *)

Lemma flags_of_sorted (n0 : N) (sorted : bool) :
  N.testbit (Kll.flags_of n0 sorted) 2 = sorted.
Proof.
  unfold Kll.flags_of.
  destruct (n0 =? 0) eqn:H0; destruct (n0 =? 1) eqn:H1; destruct sorted;
    try reflexivity.
  all: apply N.eqb_eq in H0, H1; lia.
Qed.

Lemma flags_of_lt (n0 : N) (sorted : bool) : Kll.flags_of n0 sorted < 256.
Proof.
  unfold Kll.flags_of.
  destruct (n0 =? 0); destruct (n0 =? 1); destruct sorted; reflexivity.
Qed.

(** *** The header *)

Lemma parse_header_app (h : Kll.header) (rest : list byte) :
  Kll.header_ok h -> Kll.parse_header (Kll.encode_header h ++ rest) = Ok (h, rest).
Proof.
  destruct h as [k0 n0 sorted lo hi cs].
  intros (Hk & Hlo & Hhi).
  cbn [Kll.h_k Kll.h_n Kll.h_sorted Kll.h_min Kll.h_max Kll.h_counts] in *.
  unfold Kll.parse_header, Kll.encode_header.
  cbn [Kll.h_k Kll.h_n Kll.h_sorted Kll.h_min Kll.h_max Kll.h_counts].
  rewrite <- !app_assoc.
  rewrite read_uint_app, bind_Ok by reflexivity. cbv beta iota.
  rewrite N.eqb_refl. cbn [negb].
  rewrite read_varint_app, bind_Ok. cbv beta iota.
  assert (Hkb : (Kll.MIN_K <=? k0) && (k0 <=? Kll.MAX_K) = true).
  { apply andb_true_iff. split; apply N.leb_le; lia. }
  rewrite Hkb. cbn [negb].
  rewrite read_varint_app, bind_Ok. cbv beta iota.
  rewrite read_uint_app, bind_Ok by apply flags_of_lt. cbv beta iota zeta.
  rewrite flags_of_sorted, N.eqb_refl. cbn [negb].
  assert (Hext : Kll.read_extrema (n0 =? 0)
                   (Kll.encode_opt lo ++ Kll.encode_opt hi
                    ++ encode_varint (N.of_nat (length cs))
                    ++ Kll.encode_counts cs ++ rest)
                 = Ok (lo, hi, encode_varint (N.of_nat (length cs))
                               ++ Kll.encode_counts cs ++ rest)).
  { unfold Kll.read_extrema. destruct (n0 =? 0) eqn:H0.
    - apply N.eqb_eq in H0.
      rewrite (proj1 Hlo H0), (proj1 Hhi H0). reflexivity.
    - apply N.eqb_neq in H0.
      destruct lo as [x |]; [| by destruct H0; apply Hlo].
      destruct hi as [y |]; [| by destruct H0; apply Hhi].
      cbn [Kll.encode_opt].
      rewrite read_item_app, bind_Ok. cbv beta iota.
      by rewrite read_item_app, bind_Ok. }
  rewrite Hext, bind_Ok. cbv beta iota.
  rewrite read_varint_app, bind_Ok. cbv beta iota.
  by rewrite Nat2N.id, read_counts_app, bind_Ok.
Qed.

Lemma read_extrema_Ok (empty : bool) (bs : list byte) (lo hi : option T)
  (t : list byte) :
  Kll.read_extrema empty bs = Ok (lo, hi, t) ->
  bs = Kll.encode_opt lo ++ Kll.encode_opt hi ++ t
  ∧ (empty = true ↔ lo = None) ∧ (empty = true ↔ hi = None).
Proof.
  unfold Kll.read_extrema. destruct empty.
  - intros Heq. inversion Heq. done.
  - intros Hr.
    apply res_bind_Ok in Hr as ([x bs1] & Hx & Hr).
    apply res_bind_Ok in Hr as ([y bs2] & Hy & Hret).
    inversion Hret. subst.
    apply read_item_Ok in Hx as ->. apply read_item_Ok in Hy as ->.
    split; [reflexivity |]. split; split; discriminate.
Qed.

Lemma read_extrema_throws (empty : bool) (bs : list byte) :
  throws_only_de (Kll.read_extrema (T := T) empty bs).
Proof.
  unfold Kll.read_extrema. destruct empty; [auto with readers |].
  apply throws_only_de_bind; [apply read_item_throws |].
  intros [x bs1]. apply throws_only_de_bind; [apply read_item_throws |].
  intros [y bs2]. auto with readers.
Qed.

Lemma parse_header_Ok (bs : list byte) (h : Kll.header) (t : list byte) :
  Kll.parse_header bs = Ok (h, t) ->
  bs = Kll.encode_header h ++ t ∧ Kll.header_ok h.
Proof.
  unfold Kll.parse_header. intros Hr.
  apply res_bind_Ok in Hr as ([v bs1] & Hv & Hr).
  destruct (v =? Kll.FORMAT_VERSION) eqn:Hver; [| discriminate].
  cbn [negb] in Hr.
  apply res_bind_Ok in Hr as ([k0 bs2] & Hk & Hr).
  destruct ((Kll.MIN_K <=? k0) && (k0 <=? Kll.MAX_K)) eqn:Hkb; [| discriminate].
  cbn [negb] in Hr.
  apply res_bind_Ok in Hr as ([n0 bs3] & Hn & Hr).
  apply res_bind_Ok in Hr as ([fl bs4] & Hfl & Hr).
  cbv zeta in Hr.
  destruct (fl =? Kll.flags_of n0 (N.testbit fl 2)) eqn:Hflag; [| discriminate].
  cbn [negb] in Hr.
  apply res_bind_Ok in Hr as ([[lo hi] bs5] & Hext & Hr).
  apply res_bind_Ok in Hr as ([nl bs6] & Hnl & Hr).
  apply res_bind_Ok in Hr as ([cs bs7] & Hcs & Hret).
  inversion Hret. subst h t. clear Hret.
  apply N.eqb_eq in Hver, Hflag. subst v.
  apply andb_true_iff in Hkb as [Hk1 Hk2]. apply N.leb_le in Hk1, Hk2.
  apply read_uint_Ok in Hv as [-> _].
  apply read_varint_Ok in Hk as ->.
  apply read_varint_Ok in Hn as ->.
  apply read_uint_Ok in Hfl as [-> _].
  apply read_extrema_Ok in Hext as (-> & Hlo & Hhi).
  apply read_varint_Ok in Hnl as ->.
  apply read_counts_Ok in Hcs as (-> & Hlen).
  split.
  - unfold Kll.encode_header.
    cbn [Kll.h_k Kll.h_n Kll.h_sorted Kll.h_min Kll.h_max Kll.h_counts].
    rewrite <- Hflag, Hlen, N2Nat.id, <- !app_assoc. reflexivity.
  - unfold Kll.header_ok.
    cbn [Kll.h_k Kll.h_n Kll.h_sorted Kll.h_min Kll.h_max Kll.h_counts].
    split; [done |].
    rewrite <- Hlo, <- Hhi. split; symmetry; apply N.eqb_eq.
Qed.

Lemma parse_header_throws (bs : list byte) :
  throws_only_de (Kll.parse_header (T := T) bs).
Proof.
  unfold Kll.parse_header.
  apply throws_only_de_bind; [apply read_uint_throws |]. intros [v bs1].
  destruct (negb (v =? Kll.FORMAT_VERSION)); [auto with readers |].
  apply throws_only_de_bind; [apply read_varint_throws |]. intros [k0 bs2].
  destruct (negb ((Kll.MIN_K <=? k0) && (k0 <=? Kll.MAX_K))); [auto with readers |].
  apply throws_only_de_bind; [apply read_varint_throws |]. intros [n0 bs3].
  apply throws_only_de_bind; [apply read_uint_throws |]. intros [fl bs4].
  cbv zeta.
  destruct (negb (fl =? Kll.flags_of n0 (N.testbit fl 2))); [auto with readers |].
  apply throws_only_de_bind; [apply read_extrema_throws |]. intros [[lo hi] bs5].
  apply throws_only_de_bind; [apply read_varint_throws |]. intros [nl bs6].
  apply throws_only_de_bind; [apply read_counts_throws |]. intros [cs bs7].
  auto with readers.
Qed.

(** *** Whole sketches *)

Lemma sketch_ok_header (s : @Kll.kll_sketch T) :
  Kll.sketch_ok s = true ↔ Kll.header_ok (Kll.header_of s).
Proof.
  unfold Kll.sketch_ok, Kll.extrema_ok, Kll.header_ok, Kll.header_of.
  cbn [Kll.h_k Kll.h_n Kll.h_sorted Kll.h_min Kll.h_max Kll.h_counts].
  rewrite !andb_true_iff, !bool_decide_eq_true, !N.leb_le.
  tauto.
Qed.

Lemma header_of_parsed (h : @Kll.header T) (lv : list (list T)) :
  map length lv = Kll.h_counts h ->
  Kll.header_of
    (Kll.mk_sketch (Kll.h_k h) (Kll.h_n h) lv (Kll.h_min h) (Kll.h_max h)
       (Kll.h_sorted h)) = h.
Proof. destruct h. unfold Kll.header_of. simpl. by intros ->. Qed.

(** Reading back what was written, whatever follows it in the buffer. *)
Lemma parse_app (s : Kll.kll_sketch) (rest : list byte) :
  Kll.sketch_ok s = true ->
  Kll.parse (Kll.serialize_bytes s ++ rest) = Ok (s, rest).
Proof.
  intros Hok. apply sketch_ok_header in Hok.
  unfold Kll.parse, Kll.serialize_bytes, Kll.serialize_header,
    Kll.serialize_payload.
  rewrite <- app_assoc, parse_header_app, bind_Ok by exact Hok.
  cbv beta iota.
  change (Kll.h_counts (Kll.header_of s)) with (map length (Kll.levels s)).
  rewrite read_levels_app, bind_Ok. cbv beta iota.
  by destruct s.
Qed.

(** Whatever parses is the serialized form of the sketch obtained. *)
Lemma parse_Ok (bs : list byte) (s : Kll.kll_sketch) (t : list byte) :
  Kll.parse bs = Ok (s, t) ->
  bs = Kll.serialize_bytes s ++ t ∧ Kll.sketch_ok s = true.
Proof.
  unfold Kll.parse. intros Hr.
  apply res_bind_Ok in Hr as ([h bs1] & Hh & Hr).
  apply res_bind_Ok in Hr as ([lv bs2] & Hlv & Hret).
  inversion Hret. subst s t. clear Hret.
  apply parse_header_Ok in Hh as [-> Hok].
  apply read_levels_Ok in Hlv as [-> Hcounts].
  split.
  - unfold Kll.serialize_bytes, Kll.serialize_header, Kll.serialize_payload.
    rewrite header_of_parsed by done.
    cbn [Kll.levels]. by rewrite <- app_assoc.
  - apply sketch_ok_header. by rewrite header_of_parsed.
Qed.

Lemma parse_throws (bs : list byte) : throws_only_de (Kll.parse (T := T) bs).
Proof.
  unfold Kll.parse.
  apply throws_only_de_bind; [apply parse_header_throws |]. intros [h bs1].
  apply throws_only_de_bind; [apply read_levels_throws |]. intros [lv bs2].
  auto with readers.
Qed.

Lemma deserialize_serialize (s : Kll.kll_sketch) :
  Kll.sketch_ok s = true -> Kll.deserialize (Kll.serialize_bytes s) = Ok s.
Proof.
  intros Hok. unfold Kll.deserialize.
  rewrite <- (app_nil_r (Kll.serialize_bytes s)).
  by rewrite parse_app.
Qed.

Lemma deserialize_Ok (bs : list byte) (s : Kll.kll_sketch) :
  Kll.deserialize bs = Ok s ->
  bs = Kll.serialize_bytes s ∧ Kll.sketch_ok s = true.
Proof.
  unfold Kll.deserialize. intros Hr.
  apply res_bind_Ok in Hr as ([s' rest] & Hparse & Hret).
  destruct rest; [| discriminate]. inversion Hret. subst s'.
  apply parse_Ok in Hparse as [-> Hok].
  by rewrite app_nil_r.
Qed.

Lemma deserialize_throws (bs : list byte) :
  throws_only_de (Kll.deserialize (T := T) bs).
Proof.
  unfold Kll.deserialize.
  apply throws_only_de_bind; [apply parse_throws |].
  intros [s [| b rest]]; auto with readers.
Qed.

(** A buffer that does not deserialize fails with the malformed-input
    error. *)
Lemma deserialize_fails (bs : list byte) :
  (∀ s : Kll.kll_sketch, Kll.deserialize bs ≠ Ok s) ->
  Kll.deserialize (T := T) bs = Throw DeserializationError.
Proof.
  intros Hno. destruct (Kll.deserialize bs) as [s | e] eqn:Hd.
  - by destruct (Hno s).
  - f_equal. by apply (deserialize_throws bs).
Qed.

(** Truncated input: a proper prefix of a serialized sketch. *)
Lemma deserialize_truncated (s : Kll.kll_sketch) (p r : list byte) :
  Kll.sketch_ok s = true -> Kll.serialize_bytes s = p ++ r -> r ≠ [] ->
  Kll.deserialize (T := T) p = Throw DeserializationError.
Proof.
  intros Hok Hsplit Hr. apply deserialize_fails. intros s' Hd.
  apply deserialize_Ok in Hd as [-> Hok'].
  pose proof (parse_app s' r Hok') as H1.
  pose proof (parse_app s [] Hok) as H2.
  rewrite app_nil_r, Hsplit, H1 in H2.
  inversion H2. done.
Qed.

Lemma read_uint_byte (b : byte) (bs : list byte) :
  Kll.read_uint 1 (b :: bs) = Ok (Byte.to_N b, bs).
Proof.
  replace (b :: bs) with (le_encode 1 (Byte.to_N b) ++ bs).
  - apply read_uint_app. change (256 ^ N.of_nat 1) with 256. apply byte_to_N_lt.
  - simpl. by rewrite byte_of_N_to_N.
Qed.

(** An unsupported format-version tag. *)
Lemma deserialize_version (b : byte) (bs : list byte) :
  Byte.to_N b ≠ Kll.FORMAT_VERSION ->
  Kll.deserialize (T := T) (b :: bs) = Throw DeserializationError.
Proof.
  intros Hv. unfold Kll.deserialize, Kll.parse, Kll.parse_header.
  rewrite read_uint_byte, bind_Ok. cbv beta iota.
  apply N.eqb_neq in Hv. rewrite Hv. reflexivity.
Qed.

(** Inconsistent counts: the payload is not as long as the level sizes
    declared in the header say. *)
Lemma deserialize_inconsistent (s : Kll.kll_sketch) (payload : list byte) :
  Kll.sketch_ok s = true ->
  length payload ≠ length (Kll.serialize_payload s) ->
  Kll.deserialize (T := T) (Kll.serialize_header s ++ payload)
  = Throw DeserializationError.
Proof.
  intros Hok Hlen. apply deserialize_fails. intros s' Hd.
  unfold Kll.deserialize in Hd.
  apply res_bind_Ok in Hd as ([s'' rest] & Hparse & Hret).
  destruct rest; [| discriminate]. inversion Hret. subst s''. clear Hret.
  unfold Kll.parse, Kll.serialize_header in Hparse.
  rewrite parse_header_app, bind_Ok in Hparse by by apply sketch_ok_header.
  cbv beta iota in Hparse.
  apply res_bind_Ok in Hparse as ([lv bs2] & Hlv & Hret).
  inversion Hret. subst bs2. clear Hret.
  apply read_levels_Ok in Hlv as [-> Hcounts].
  apply Hlen. unfold Kll.serialize_payload.
  rewrite app_nil_r, !length_payload, Hcounts. reflexivity.
Qed.
End CodecFacts.

(** ** Deserialization at the C boundary *)

Section ReferenceCodec.
Context {T : Type} {I : Item T} {IL : ItemLaws T}.
Variable P : Kll.policy.

Lemma malformed_rejected (bs : list byte) :
  Kll.malformed bs -> Kll.deserialize (T := T) bs = Throw DeserializationError.
Proof.
  intros [s p r Hok Hsplit Hr | b bs' Hv | s payload Hok Hlen].
  - by apply (deserialize_truncated s p r).
  - by apply deserialize_version.
  - by apply deserialize_inconsistent.
Qed.

Lemma serialize_bytes_not_nil (s : Kll.kll_sketch) :
  length (Kll.serialize_bytes (T := T) s) ≠ 0%nat.
Proof.
  unfold Kll.serialize_bytes, Kll.serialize_header, Kll.encode_header.
  rewrite !length_app, length_le_encode. lia.
Qed.

(** A null data pointer and a zero size are refused by the guard. *)
Lemma deserialize_guard (w : world (Kll.engine P)) (data : array byte) (size : N) :
  data = None ∨ size = 0 ->
  kll_sketch_deserialize w data size = Returns (nullptr, w).
Proof.
  unfold kll_sketch_deserialize. intros [-> | ->]; [done |].
  by rewrite orb_true_r.
Qed.

(** What the engine refuses becomes the null handle; nothing is allocated. *)
Lemma deserialize_malformed_null (w : world (Kll.engine P)) (buf : list byte)
  (size : N) :
  (N.to_nat size ≤ length buf)%nat ->
  Kll.malformed (T := T) (take (N.to_nat size) buf) ->
  kll_sketch_deserialize w (Some buf) size = Returns (nullptr, w).
Proof.
  intros Hsize Hbad. unfold kll_sketch_deserialize.
  destruct (size =? 0) eqn:H0; [done |]. cbn [null_array orb].
  rewrite (proj2 (N.ltb_ge _ _)) by lia.
  cbn [kll_sketch.deserialize Kll.engine].
  by rewrite malformed_rejected.
Qed.

(** The call is defined whenever the buffer holds [size] bytes, and a
    handle it returns is either null, with nothing allocated, or points to a
    sketch that the bytes read are the serialized form of. *)
Lemma deserialize_sound (w : world (Kll.engine P)) (buf : list byte) (size : N) :
  (N.to_nat size ≤ length buf)%nat ->
  ∃ h w', kll_sketch_deserialize w (Some buf) size = Returns (h, w')
          ∧ ((h = nullptr ∧ w' = w)
             ∨ (h ≠ nullptr
                ∧ ∃ s : Kll.kll_sketch,
                    deref w' h = Some s
                    ∧ take (N.to_nat size) buf = Kll.serialize_bytes s
                    ∧ Kll.sketch_ok s = true)).
Proof.
  intros Hsize. unfold kll_sketch_deserialize.
  destruct (size =? 0) eqn:H0; cbn [null_array orb].
  { exists nullptr, w. split; [done |]. by left. }
  rewrite (proj2 (N.ltb_ge _ _)) by lia.
  cbn [kll_sketch.deserialize Kll.engine].
  destruct (Kll.deserialize (take (N.to_nat size) buf)) as [s | e] eqn:Hd.
  - exists (alloc w s).1, (alloc w s).2. split; [by destruct (alloc w s) |].
    right. split.
    + apply (fresh_addr_not_null (E := Kll.engine P)).
    + exists s. split; [apply (alloc_deref (E := Kll.engine P)) |].
      by apply deserialize_Ok.
  - exists nullptr, w. split; [done |]. by left.
Qed.
End ReferenceCodec.

(** C6.  [deserialize] refuses malformed input.  For the float and for the
    double functions over the reference engine: a null data pointer, a zero
    size, and a buffer whose first [size] bytes are truncated, carry an
    unsupported version tag or declare level sizes that do not match the
    payload all yield the null handle and allocate nothing, the engine
    having failed with the malformed-input error.  Whenever the buffer holds
    [size] bytes the call is defined, and a handle that is not null points
    to a sketch whose serialized form is exactly the bytes read: no
    corrupted sketch is ever built. *)
Theorem deserialize_rejects_malformed_input (P : Kll.policy) :
  (∀ bs : list byte,
      Kll.malformed (T := float) bs ->
      Kll.deserialize (T := float) bs = Throw DeserializationError)
  ∧ (∀ (w : world (Kll.engine (T := float) P)) (data : array byte) (size : N),
        (data = None ∨ size = 0
         ∨ ∃ buf, data = Some buf ∧ (N.to_nat size ≤ length buf)%nat
                  ∧ Kll.malformed (T := float) (take (N.to_nat size) buf)) ->
        KllFloat.kll_float_sketch_deserialize w data size = Returns (nullptr, w))
  ∧ (∀ (w : world (Kll.engine (T := float) P)) (buf : list byte) (size : N),
        (N.to_nat size ≤ length buf)%nat ->
        ∃ h w', KllFloat.kll_float_sketch_deserialize w (Some buf) size
                = Returns (h, w')
                ∧ ((h = nullptr ∧ w' = w)
                   ∨ (h ≠ nullptr
                      ∧ ∃ s : Kll.kll_sketch,
                          deref w' h = Some s
                          ∧ take (N.to_nat size) buf = Kll.serialize_bytes s
                          ∧ Kll.sketch_ok s = true)))
  ∧ (∀ bs : list byte,
        Kll.malformed (T := double) bs ->
        Kll.deserialize (T := double) bs = Throw DeserializationError)
  ∧ (∀ (w : world (Kll.engine (T := double) P)) (data : array byte) (size : N),
        (data = None ∨ size = 0
         ∨ ∃ buf, data = Some buf ∧ (N.to_nat size ≤ length buf)%nat
                  ∧ Kll.malformed (T := double) (take (N.to_nat size) buf)) ->
        KllDouble.kll_double_sketch_deserialize w data size = Returns (nullptr, w))
  ∧ (∀ (w : world (Kll.engine (T := double) P)) (buf : list byte) (size : N),
        (N.to_nat size ≤ length buf)%nat ->
        ∃ h w', KllDouble.kll_double_sketch_deserialize w (Some buf) size
                = Returns (h, w')
                ∧ ((h = nullptr ∧ w' = w)
                   ∨ (h ≠ nullptr
                      ∧ ∃ s : Kll.kll_sketch,
                          deref w' h = Some s
                          ∧ take (N.to_nat size) buf = Kll.serialize_bytes s
                          ∧ Kll.sketch_ok s = true))).
Proof.
  split; [apply malformed_rejected |].
  split.
  { intros w data size [Hnull | [Hzero | (buf & -> & Hsize & Hbad)]].
    - apply (deserialize_guard P w). by left.
    - apply (deserialize_guard P w). by right.
    - by apply (deserialize_malformed_null P w). }
  split; [exact (deserialize_sound P) |].
  split; [apply malformed_rejected |].
  split.
  { intros w data size [Hnull | [Hzero | (buf & -> & Hsize & Hbad)]].
    - apply (deserialize_guard P w). by left.
    - apply (deserialize_guard P w). by right.
    - by apply (deserialize_malformed_null P w). }
  exact (deserialize_sound P).
Qed.

Lemma deserialize_rejects_malformed_input_witness :
  Kll.deserialize (T := float) (take 3 demo_bytes32) = Throw DeserializationError
  ∧ KllFloat.kll_float_sketch_deserialize (filled32 3) (Some demo_bytes32) 3
    = Returns (nullptr, filled32 3)
  ∧ Kll.deserialize (T := double) (take 3 demo_bytes64) = Throw DeserializationError
  ∧ KllDouble.kll_double_sketch_deserialize (filled64 3) (Some demo_bytes64) 3
    = Returns (nullptr, filled64 3).
Proof.
  destruct (deserialize_rejects_malformed_input Kll.default_policy)
    as (Hef & Hwf & _ & Hed & Hwd & _).
  assert (Hbad32 : Kll.malformed (T := float) (take 3 demo_bytes32)).
  { apply (Kll.malformed_truncated demo_sketch32 _ (drop 3 demo_bytes32)).
    - vm_compute. reflexivity.
    - symmetry. apply take_drop.
    - vm_compute. discriminate. }
  assert (Hbad64 : Kll.malformed (T := double) (take 3 demo_bytes64)).
  { apply (Kll.malformed_truncated demo_sketch64 _ (drop 3 demo_bytes64)).
    - vm_compute. reflexivity.
    - symmetry. apply take_drop.
    - vm_compute. discriminate. }
  split; [exact (Hef _ Hbad32) |].
  split.
  { apply Hwf. right. right. exists demo_bytes32.
    split; [reflexivity |]. split; [vm_compute; lia | exact Hbad32]. }
  split; [exact (Hed _ Hbad64) |].
  apply Hwd. right. right. exists demo_bytes64.
  split; [reflexivity |]. split; [vm_compute; lia | exact Hbad64].
Defined.

(** ** Serialize, then deserialize *)

Section RoundTrip.
Context {T : Type} {I : Item T} {IL : ItemLaws T}.
Variable P : Kll.policy.

(** [serialize] copies the engine's bytes and stores their number in
    [*size]; [deserialize] of that buffer allocates a sketch equal to the
    one serialized, and leaves the original in place. *)
Lemma serialize_deserialize (w : world (Kll.engine P)) (h : handle)
  (s : Kll.kll_sketch) (size0 : N) :
  is_null h = false -> deref w h = Some s -> Kll.sketch_ok s = true ->
  ∃ bytes h' w',
    kll_sketch_serialize w h (Some size0)
    = Returns (Some bytes, Some (N.of_nat (length bytes)))
    ∧ kll_sketch_deserialize w (Some bytes) (N.of_nat (length bytes))
      = Returns (h', w')
    ∧ is_null h' = false
    ∧ deref w' h' = Some s
    ∧ deref w' h = Some s.
Proof.
  intros Hn Hs Hok.
  exists (Kll.serialize_bytes s), (alloc w s).1, (alloc w s).2.
  split; [| split; [| split; [| split]]].
  - unfold kll_sketch_serialize. rewrite Hn, Hs. reflexivity.
  - unfold kll_sketch_deserialize. cbn [null_array orb].
    pose proof (serialize_bytes_not_nil s) as Hlen.
    rewrite (proj2 (N.eqb_neq _ _)) by lia.
    rewrite N.ltb_irrefl, Nat2N.id, firstn_all.
    cbn [kll_sketch.deserialize Kll.engine].
    rewrite deserialize_serialize by done. by destruct (alloc w s).
  - apply (alloc_not_null (E := Kll.engine P)).
  - apply (alloc_deref (E := Kll.engine P)).
  - by apply (alloc_preserves (E := Kll.engine P)).
Qed.

(** Two live handles to equal sketches answer every query alike. *)
Lemma same_sketch_same_answers (w w' : world (Kll.engine P)) (h h' : handle)
  (s : Kll.kll_sketch) :
  is_null h = false -> deref w h = Some s ->
  is_null h' = false -> deref w' h' = Some s ->
  kll_sketch_get_k w' h' = kll_sketch_get_k w h
  ∧ kll_sketch_get_n w' h' = kll_sketch_get_n w h
  ∧ kll_sketch_get_min_value w' h' = kll_sketch_get_min_value w h
  ∧ kll_sketch_get_max_value w' h' = kll_sketch_get_max_value w h
  ∧ (∀ value, kll_sketch_get_rank w' h' value = kll_sketch_get_rank w h value)
  ∧ (∀ fraction, kll_sketch_get_quantile w' h' fraction
                 = kll_sketch_get_quantile w h fraction)
  ∧ kll_sketch_is_empty w' h' = kll_sketch_is_empty w h
  ∧ kll_sketch_get_num_retained w' h' = kll_sketch_get_num_retained w h
  ∧ kll_sketch_is_estimation_mode w' h' = kll_sketch_is_estimation_mode w h.
Proof.
  intros Hn Hs Hn' Hs'.
  unfold kll_sketch_get_k, kll_sketch_get_n, kll_sketch_get_min_value,
    kll_sketch_get_max_value, kll_sketch_get_rank, kll_sketch_get_quantile,
    kll_sketch_is_empty, kll_sketch_get_num_retained,
    kll_sketch_is_estimation_mode.
  rewrite Hn, Hs, Hn', Hs'. repeat split.
Qed.

Lemma round_trip (w : world (Kll.engine P)) (h : handle)
  (s : Kll.kll_sketch) (size0 : N) :
  is_null h = false -> deref w h = Some s -> Kll.sketch_ok s = true ->
  ∃ bytes h' w',
    kll_sketch_serialize w h (Some size0)
    = Returns (Some bytes, Some (N.of_nat (length bytes)))
    ∧ kll_sketch_deserialize w (Some bytes) (N.of_nat (length bytes))
      = Returns (h', w')
    ∧ is_null h' = false
    ∧ kll_sketch_get_k w' h' = kll_sketch_get_k w h
    ∧ kll_sketch_get_n w' h' = kll_sketch_get_n w h
    ∧ kll_sketch_get_min_value w' h' = kll_sketch_get_min_value w h
    ∧ kll_sketch_get_max_value w' h' = kll_sketch_get_max_value w h
    ∧ (∀ value, kll_sketch_get_rank w' h' value = kll_sketch_get_rank w h value)
    ∧ (∀ fraction, kll_sketch_get_quantile w' h' fraction
                   = kll_sketch_get_quantile w h fraction)
    ∧ kll_sketch_is_empty w' h' = kll_sketch_is_empty w h
    ∧ kll_sketch_get_num_retained w' h' = kll_sketch_get_num_retained w h
    ∧ kll_sketch_is_estimation_mode w' h' = kll_sketch_is_estimation_mode w h.
Proof.
  intros Hn Hs Hok.
  destruct (serialize_deserialize w h s size0 Hn Hs Hok)
    as (bytes & h' & w' & Hser & Hde & Hn' & Hs' & _).
  exists bytes, h', w'. split; [done |]. split; [done |]. split; [done |].
  by apply (same_sketch_same_answers w w' h h' s).
Qed.
End RoundTrip.

(** C7.  Over the reference engine, for every live handle to a sketch that
    satisfies the engine's invariant [Kll.sketch_ok] (as every sketch reached
    through the interface does), [serialize] returns a buffer and [deserialize] of
    that buffer returns a new, non-null handle whose observable state is the
    same: [get_k], [get_n], [get_min_value], [get_max_value] and every
    [get_rank] and [get_quantile] query give the same result (value or
    exception) before and after; so do [is_empty], [get_num_retained] and
    [is_estimation_mode]. *)
Theorem serialize_deserialize_round_trip (P : Kll.policy) :
  (∀ (w : world (Kll.engine (T := float) P)) (h : handle)
     (s : Kll.kll_sketch) (size0 : N),
      is_null h = false -> deref w h = Some s -> Kll.sketch_ok s = true ->
      ∃ bytes h' w',
        KllFloat.kll_float_sketch_serialize w h (Some size0)
        = Returns (Some bytes, Some (N.of_nat (length bytes)))
        ∧ KllFloat.kll_float_sketch_deserialize w (Some bytes)
            (N.of_nat (length bytes)) = Returns (h', w')
        ∧ is_null h' = false
        ∧ KllFloat.kll_float_sketch_get_k w' h' = KllFloat.kll_float_sketch_get_k w h
        ∧ KllFloat.kll_float_sketch_get_n w' h' = KllFloat.kll_float_sketch_get_n w h
        ∧ KllFloat.kll_float_sketch_get_min_value w' h'
          = KllFloat.kll_float_sketch_get_min_value w h
        ∧ KllFloat.kll_float_sketch_get_max_value w' h'
          = KllFloat.kll_float_sketch_get_max_value w h
        ∧ (∀ value, KllFloat.kll_float_sketch_get_rank w' h' value
                    = KllFloat.kll_float_sketch_get_rank w h value)
        ∧ (∀ fraction, KllFloat.kll_float_sketch_get_quantile w' h' fraction
                       = KllFloat.kll_float_sketch_get_quantile w h fraction)
        ∧ KllFloat.kll_float_sketch_is_empty w' h'
          = KllFloat.kll_float_sketch_is_empty w h
        ∧ KllFloat.kll_float_sketch_get_num_retained w' h'
          = KllFloat.kll_float_sketch_get_num_retained w h
        ∧ KllFloat.kll_float_sketch_is_estimation_mode w' h'
          = KllFloat.kll_float_sketch_is_estimation_mode w h)
  ∧ (∀ (w : world (Kll.engine (T := double) P)) (h : handle)
       (s : Kll.kll_sketch) (size0 : N),
      is_null h = false -> deref w h = Some s -> Kll.sketch_ok s = true ->
      ∃ bytes h' w',
        KllDouble.kll_double_sketch_serialize w h (Some size0)
        = Returns (Some bytes, Some (N.of_nat (length bytes)))
        ∧ KllDouble.kll_double_sketch_deserialize w (Some bytes)
            (N.of_nat (length bytes)) = Returns (h', w')
        ∧ is_null h' = false
        ∧ KllDouble.kll_double_sketch_get_k w' h'
          = KllDouble.kll_double_sketch_get_k w h
        ∧ KllDouble.kll_double_sketch_get_n w' h'
          = KllDouble.kll_double_sketch_get_n w h
        ∧ KllDouble.kll_double_sketch_get_min_value w' h'
          = KllDouble.kll_double_sketch_get_min_value w h
        ∧ KllDouble.kll_double_sketch_get_max_value w' h'
          = KllDouble.kll_double_sketch_get_max_value w h
        ∧ (∀ value, KllDouble.kll_double_sketch_get_rank w' h' value
                    = KllDouble.kll_double_sketch_get_rank w h value)
        ∧ (∀ fraction, KllDouble.kll_double_sketch_get_quantile w' h' fraction
                       = KllDouble.kll_double_sketch_get_quantile w h fraction)
        ∧ KllDouble.kll_double_sketch_is_empty w' h'
          = KllDouble.kll_double_sketch_is_empty w h
        ∧ KllDouble.kll_double_sketch_get_num_retained w' h'
          = KllDouble.kll_double_sketch_get_num_retained w h
        ∧ KllDouble.kll_double_sketch_is_estimation_mode w' h'
          = KllDouble.kll_double_sketch_is_estimation_mode w h).
Proof.
  split; intros w h s size0.
  - exact (round_trip P w h s size0).
  - exact (round_trip P w h s size0).
Qed.

Lemma serialize_deserialize_round_trip_witness :
  (∃ bytes h' w',
      KllFloat.kll_float_sketch_serialize (filled32 20) 1 (Some 0)
      = Returns (Some bytes, Some (N.of_nat (length bytes)))
      ∧ KllFloat.kll_float_sketch_deserialize (filled32 20) (Some bytes)
          (N.of_nat (length bytes)) = Returns (h', w')
      ∧ is_null h' = false
      ∧ KllFloat.kll_float_sketch_get_n w' h' = Returns 20
      ∧ KllFloat.kll_float_sketch_is_estimation_mode w' h' = Returns true
      ∧ (∀ fraction, KllFloat.kll_float_sketch_get_quantile w' h' fraction
                     = KllFloat.kll_float_sketch_get_quantile (filled32 20) 1 fraction))
  ∧ (∃ bytes h' w',
        KllDouble.kll_double_sketch_serialize (filled64 20) 1 (Some 0)
        = Returns (Some bytes, Some (N.of_nat (length bytes)))
        ∧ KllDouble.kll_double_sketch_deserialize (filled64 20) (Some bytes)
            (N.of_nat (length bytes)) = Returns (h', w')
        ∧ is_null h' = false
        ∧ KllDouble.kll_double_sketch_get_n w' h' = Returns 20
        ∧ KllDouble.kll_double_sketch_is_estimation_mode w' h' = Returns true
        ∧ (∀ fraction, KllDouble.kll_double_sketch_get_quantile w' h' fraction
                       = KllDouble.kll_double_sketch_get_quantile (filled64 20) 1
                           fraction)).
Proof.
  destruct (serialize_deserialize_round_trip Kll.default_policy) as (Hf & Hd).
  split.
  - edestruct Hf with (w := filled32 20) (h := 1) (size0 := 0)
      as (bytes & h' & w' & Hser & Hde & Hn' & _ & Hgn & _ & _ & _ & Hq & _ & _ & Hem).
    + reflexivity.
    + vm_compute; reflexivity.
    + vm_compute; reflexivity.
    + exists bytes, h', w'.
      split; [exact Hser |]. split; [exact Hde |]. split; [exact Hn' |].
      split; [etrans; [exact Hgn | vm_compute; reflexivity] |].
      split; [etrans; [exact Hem | vm_compute; reflexivity] | exact Hq].
  - edestruct Hd with (w := filled64 20) (h := 1) (size0 := 0)
      as (bytes & h' & w' & Hser & Hde & Hn' & _ & Hgn & _ & _ & _ & Hq & _ & _ & Hem).
    + reflexivity.
    + vm_compute; reflexivity.
    + vm_compute; reflexivity.
    + exists bytes, h', w'.
      split; [exact Hser |]. split; [exact Hde |]. split; [exact Hn' |].
      split; [etrans; [exact Hgn | vm_compute; reflexivity] |].
      split; [etrans; [exact Hem | vm_compute; reflexivity] | exact Hq].
Defined.

(** ** The invariant of the reference engine

    New and deserialized sketches satisfy [Kll.sketch_ok], and [update] and
    [merge] preserve it; so every sketch that a program reaches through the
    interface, starting with no sketch at all, satisfies it ([world_ok]). *)
Section ReferenceInvariants.
Context {T : Type} {I : Item T} {IL : ItemLaws T}.
Variable P : Kll.policy.

Lemma ctor_sketch_ok (s : Kll.kll_sketch) :
  Kll.ctor (T := T) = Ok s -> Kll.sketch_ok s = true.
Proof. intros Hc. inversion Hc. reflexivity. Qed.

Lemma ctor_k_sketch_ok (k0 : N) (s : Kll.kll_sketch) :
  Kll.ctor_k (T := T) k0 = Ok s -> Kll.sketch_ok s = true.
Proof.
  unfold Kll.ctor_k.
  destruct ((Kll.MIN_K <=? k0) && (k0 <=? Kll.MAX_K)) eqn:Hk; [| discriminate].
  intros Hc. inversion Hc.
  unfold Kll.sketch_ok, Kll.new_sketch. simpl.
  rewrite Hk. reflexivity.
Qed.

Lemma deserialize_sketch_ok (bs : list byte) (s : Kll.kll_sketch) :
  Kll.deserialize (T := T) bs = Ok s -> Kll.sketch_ok s = true.
Proof. intros Hd. by apply deserialize_Ok in Hd as [_ Hok]. Qed.

Lemma min_with_Some (m : option T) (v : T) : Kll.min_with m v ≠ None.
Proof. unfold Kll.min_with. destruct m; [destruct (Kll.item_ltb _ _) |]; done. Qed.

Lemma max_with_Some (m : option T) (v : T) : Kll.max_with m v ≠ None.
Proof. unfold Kll.max_with. destruct m; [destruct (Kll.item_ltb _ _) |]; done. Qed.

Lemma extrema_ok_spec (s : Kll.kll_sketch) :
  Kll.extrema_ok (T := T) s = true
  ↔ (Kll.n s = 0 ↔ Kll.min_item s = None) ∧ (Kll.n s = 0 ↔ Kll.max_item s = None).
Proof.
  unfold Kll.extrema_ok. by rewrite andb_true_iff, !bool_decide_eq_true.
Qed.

(** [update] of the reference engine never throws. *)
Lemma update_total (s : Kll.kll_sketch) (v : T) (g : N) :
  ∃ s' g', Kll.update P s v g = Ok (s', g').
Proof.
  unfold Kll.update. destruct (Kll.item_is_nan v); [eauto |].
  destruct (Kll.compact _ _ _ _ _ _); eauto.
Qed.

Lemma update_extrema_ok (s s' : Kll.kll_sketch) (v : T) (g g' : N) :
  Kll.extrema_ok s = true -> Kll.update P s v g = Ok (s', g') ->
  Kll.extrema_ok s' = true.
Proof.
  unfold Kll.update. intros Hok.
  destruct (Kll.item_is_nan v); [intros Hu; by inversion Hu; subst |].
  destruct (Kll.compact _ _ _ _ _ _) as [lv' g''].
  intros Hu. inversion Hu. subst s' g'. clear Hu.
  apply extrema_ok_spec. cbn [Kll.n Kll.min_item Kll.max_item].
  pose proof (min_with_Some (Kll.min_item s) v).
  pose proof (max_with_Some (Kll.max_item s) v).
  split; split; intros; (lia || done).
Qed.

Lemma merge_extrema_ok (s o s' : Kll.kll_sketch) (g g' : N) :
  Kll.extrema_ok s = true -> Kll.extrema_ok o = true ->
  Kll.merge P s o g = Ok (s', g') -> Kll.extrema_ok s' = true.
Proof.
  unfold Kll.merge. intros Hs Ho.
  destruct (Kll.n o =? 0) eqn:Hn; [intros Hm; by inversion Hm; subst |].
  destruct (Kll.recompact _ _ _ _ _ _) as [lv' g''].
  intros Hm. inversion Hm. subst s' g'. clear Hm.
  apply N.eqb_neq in Hn.
  apply extrema_ok_spec in Ho as [Hlo Hhi].
  apply extrema_ok_spec. cbn [Kll.n Kll.min_item Kll.max_item].
  destruct (Kll.min_item o) as [lo |]; [| by destruct Hn; apply Hlo].
  destruct (Kll.max_item o) as [hi |]; [| by destruct Hn; apply Hhi].
  pose proof (min_with_Some (Kll.min_item s) lo).
  pose proof (max_with_Some (Kll.max_item s) hi).
  cbn [Kll.min_opt Kll.max_opt].
  split; split; intros; (lia || done).
Qed.

Lemma sketch_ok_spec (s : Kll.kll_sketch) :
  Kll.sketch_ok (T := T) s = true
  ↔ Kll.MIN_K <= Kll.k s <= Kll.MAX_K ∧ Kll.extrema_ok s = true.
Proof.
  unfold Kll.sketch_ok. rewrite !andb_true_iff, !N.leb_le. tauto.
Qed.

Lemma update_sketch_ok (s s' : Kll.kll_sketch) (v : T) (g g' : N) :
  Kll.sketch_ok s = true -> Kll.update P s v g = Ok (s', g') ->
  Kll.sketch_ok s' = true.
Proof.
  rewrite !sketch_ok_spec. intros [Hk Hext] Hu. split.
  - revert Hu. unfold Kll.update.
    destruct (Kll.item_is_nan v); [intros Hu; by inversion Hu; subst |].
    destruct (Kll.compact _ _ _ _ _ _) as [lv' g''].
    intros Hu. inversion Hu. subst s' g'. exact Hk.
  - exact (update_extrema_ok s s' v g g' Hext Hu).
Qed.

Lemma merge_sketch_ok (s o s' : Kll.kll_sketch) (g g' : N) :
  Kll.sketch_ok s = true -> Kll.sketch_ok o = true ->
  Kll.merge P s o g = Ok (s', g') -> Kll.sketch_ok s' = true.
Proof.
  rewrite !sketch_ok_spec. intros [Hk Hext] [Hk' Hext'] Hm. split.
  - revert Hm. unfold Kll.merge.
    destruct (Kll.n o =? 0); [intros Hm; by inversion Hm; subst |].
    destruct (Kll.recompact _ _ _ _ _ _) as [lv' g''].
    intros Hm. inversion Hm. subst s' g'. cbn [Kll.k]. lia.
  - exact (merge_extrema_ok s o s' g g' Hext Hext' Hm).
Qed.

(** *** Worlds

    A program starts with no sketch; every function of the interface that
    changes the world keeps the invariant. *)
Lemma world_ok_empty (g : N) : world_ok (P := P) (mk_world (E := Kll.engine P) ∅ g).
Proof. intros h s Hs. unfold deref in Hs. cbn in Hs. by rewrite lookup_empty in Hs. Qed.

Lemma world_ok_insert (w : world (Kll.engine P)) (a : handle)
  (s : Kll.kll_sketch) (g : N) :
  world_ok w -> Kll.sketch_ok s = true ->
  world_ok (mk_world (E := Kll.engine P) (<[a := s]> (heap w)) g).
Proof.
  intros Hw Hs h s' Hs'. unfold deref in Hs'. cbn [heap] in Hs'.
  destruct (decide (a = h)) as [-> | Hne].
  - rewrite lookup_insert_eq in Hs'. by inversion Hs'; subst.
  - rewrite lookup_insert_ne in Hs' by done. by apply (Hw h).
Qed.

Lemma world_ok_alloc (w : world (Kll.engine P)) (s : Kll.kll_sketch) :
  world_ok w -> Kll.sketch_ok s = true -> world_ok (alloc w s).2.
Proof. intros Hw Hs. by apply world_ok_insert. Qed.

Lemma new_world_ok (w w' : world (Kll.engine P)) (h : handle) :
  world_ok w -> kll_sketch_new w = Returns (h, w') -> world_ok w'.
Proof.
  intros Hw. unfold kll_sketch_new. cbn [kll_sketch.ctor Kll.engine].
  destruct Kll.ctor as [s | e] eqn:Hc; intros Hr; inversion Hr; subst; [| done].
  apply world_ok_alloc; [done |]. by apply ctor_sketch_ok.
Qed.

Lemma new_with_k_world_ok (w w' : world (Kll.engine P)) (k0 : N) (h : handle) :
  world_ok w -> kll_sketch_new_with_k w k0 = Returns (h, w') -> world_ok w'.
Proof.
  intros Hw. unfold kll_sketch_new_with_k. cbn [kll_sketch.ctor_k Kll.engine].
  destruct (Kll.ctor_k k0) as [s | e] eqn:Hc; intros Hr; inversion Hr; subst;
    [| done].
  apply world_ok_alloc; [done |]. by apply (ctor_k_sketch_ok k0).
Qed.

Lemma delete_world_ok (w w' : world (Kll.engine P)) (h : handle) :
  world_ok w -> kll_sketch_delete w h = Returns w' -> world_ok w'.
Proof.
  intros Hw. unfold kll_sketch_delete.
  destruct (is_null h); [intros Hr; by inversion Hr; subst |].
  destruct (deref w h) as [s |]; [| discriminate].
  intros Hr. inversion Hr. subst w'. intros h' s' Hs'.
  unfold deref in Hs'. cbn [heap] in Hs'.
  apply lookup_delete_Some in Hs' as [_ Hs']. by apply (Hw h').
Qed.

Lemma update_world_ok (w w' : world (Kll.engine P)) (h : handle) (v : T) :
  world_ok w -> kll_sketch_update w h v = Returns w' -> world_ok w'.
Proof.
  intros Hw. unfold kll_sketch_update.
  destruct (is_null h); [intros Hr; by inversion Hr; subst |].
  destruct (deref w h) as [s |] eqn:Hs; [| discriminate].
  cbn [kll_sketch.update Kll.engine].
  destruct (Kll.update P s v (gen w)) as [[s' g'] | e] eqn:Hu; [| discriminate].
  intros Hr. inversion Hr. subst w'.
  apply world_ok_insert; [done |].
  apply (update_sketch_ok s s' v (gen w) g'); [by apply (Hw h) | done].
Qed.

Lemma merge_world_ok (w w' : world (Kll.engine P)) (h other : handle) :
  world_ok w -> kll_sketch_merge w h other = Returns w' -> world_ok w'.
Proof.
  intros Hw. unfold kll_sketch_merge.
  destruct (is_null h || is_null other); [intros Hr; by inversion Hr; subst |].
  destruct (deref w h) as [s |] eqn:Hs; [| discriminate].
  destruct (deref w other) as [o |] eqn:Ho; [| discriminate].
  cbn [kll_sketch.merge Kll.engine].
  destruct (Kll.merge P s o (gen w)) as [[s' g'] | e] eqn:Hm; [| discriminate].
  intros Hr. inversion Hr. subst w'.
  apply world_ok_insert; [done |].
  apply (merge_sketch_ok s o s' (gen w) g');
    [by apply (Hw h) | by apply (Hw other) | done].
Qed.

Lemma deserialize_world_ok (w w' : world (Kll.engine P)) (data : array byte)
  (size : N) (h : handle) :
  world_ok w -> kll_sketch_deserialize w data size = Returns (h, w') -> world_ok w'.
Proof.
  intros Hw. unfold kll_sketch_deserialize.
  destruct (null_array data || (size =? 0)); [intros Hr; by inversion Hr; subst |].
  destruct data as [buf |]; [| discriminate].
  destruct (N.of_nat (length buf) <? size); [discriminate |].
  cbn [kll_sketch.deserialize Kll.engine].
  destruct (Kll.deserialize (take (N.to_nat size) buf)) as [s | e] eqn:Hd;
    intros Hr; inversion Hr; subst; [| done].
  apply world_ok_alloc; [done |]. exact (deserialize_sketch_ok _ s Hd).
Qed.

(** In such a world every live sketch can be serialized and read back. *)
Lemma world_ok_round_trip (w : world (Kll.engine P)) (h : handle)
  (s : Kll.kll_sketch) (size0 : N) :
  world_ok w -> is_null h = false -> deref w h = Some s ->
  ∃ bytes h' w',
    kll_sketch_serialize w h (Some size0)
    = Returns (Some bytes, Some (N.of_nat (length bytes)))
    ∧ kll_sketch_deserialize w (Some bytes) (N.of_nat (length bytes))
      = Returns (h', w')
    ∧ is_null h' = false
    ∧ deref w' h' = Some s
    ∧ world_ok w'.
Proof.
  intros Hw Hn Hs.
  destruct (serialize_deserialize P w h s size0 Hn Hs (Hw h s Hs))
    as (bytes & h' & w' & Hser & Hde & Hn' & Hs' & _).
  exists bytes, h', w'.
  split; [done |]. split; [done |]. split; [done |]. split; [done |].
  by apply (deserialize_world_ok w w' (Some bytes) (N.of_nat (length bytes)) h').
Qed.
End ReferenceInvariants.

(** ** The reference engine on small inputs

    The scenarios of the specification's section 8, run through the wrapper
    on the reference engine with [k = 8]. *)

(** Eight updates: nothing compacted yet, every query is exact. *)
Example exact_mode_queries :
  (KllFloat.kll_float_sketch_get_n (filled32 8) 1,
   KllFloat.kll_float_sketch_get_num_retained (filled32 8) 1,
   KllFloat.kll_float_sketch_is_estimation_mode (filled32 8) 1,
   KllFloat.kll_float_sketch_get_min_value (filled32 8) 1,
   KllFloat.kll_float_sketch_get_max_value (filled32 8) 1,
   KllFloat.kll_float_sketch_get_quantile (filled32 8) 1 double_zero,
   KllFloat.kll_float_sketch_get_quantile (filled32 8) 1 double_one,
   KllFloat.kll_float_sketch_get_rank (filled32 8) 1 (float_of_Z 4),
   KllFloat.kll_float_sketch_get_rank (filled32 8) 1 (float_of_Z 8))
  = (Returns 8, Returns 8, Returns false,
     Returns (float_of_Z 1), Returns (float_of_Z 8),
     Returns (float_of_Z 1), Returns (float_of_Z 8),
     Returns one_half, Returns double_one).
Proof. vm_compute. reflexivity. Qed.

(** Twenty updates: levels above level 0 carry weighted items, fewer items
    are retained than were seen, and [n] is the weighted count. *)
Example estimation_mode_after_compaction :
  (KllFloat.kll_float_sketch_get_n (filled32 20) 1,
   KllFloat.kll_float_sketch_is_estimation_mode (filled32 20) 1,
   KllFloat.kll_float_sketch_is_empty (filled32 20) 1,
   KllFloat.kll_float_sketch_get_min_value (filled32 20) 1,
   KllFloat.kll_float_sketch_get_max_value (filled32 20) 1)
  = (Returns 20, Returns true, Returns false,
     Returns (float_of_Z 1), Returns (float_of_Z 20)).
Proof. vm_compute. reflexivity. Qed.

(** Merging a sketch into a new one: the counts add up. *)
Example merge_adds_counts :
  let '(h2, w) := returned (KllFloat.kll_float_sketch_new_with_k (filled32 20) 8)
                    (nullptr, filled32 20) in
  let w' := returned (KllFloat.kll_float_sketch_merge w h2 1) w in
  let w'' := returned (KllFloat.kll_float_sketch_merge w' h2 1) w' in
  (h2, KllFloat.kll_float_sketch_get_n w' h2,
   KllFloat.kll_float_sketch_get_n w'' h2,
   KllFloat.kll_float_sketch_get_n w'' 1)
  = (2, Returns 20, Returns 40, Returns 20).
Proof. vm_compute. reflexivity. Qed.

(** A NaN update leaves the sketch as it is. *)
Example nan_update_ignored :
  outcome_map (fun w => deref w 1)
    (KllFloat.kll_float_sketch_update (filled32 3) 1 (float_of_bits 0x7FC00000))
  = Returns (Some demo_sketch32).
Proof. vm_compute. reflexivity. Qed.

(** * The rest of the surface

    Properties of the wrapper functions that hold for every engine: what
    happens to handles and to the heap of sketches, which calls let an
    exception through, and what the batch queries do to the caller's
    arrays. *)

(** ** Handles and the heap *)

Section Lifetime.
Context {T : Type} {I : Item T} {E : kll_sketch.engine T}.

Lemma alloc_allocated (w : world E) (s : kll_sketch.sketch) :
  allocated w (Ok s) (alloc w s).1 (alloc w s).2.
Proof.
  unfold allocated, alloc, deref. cbn [fst snd heap gen].
  split; [apply fresh_addr_not_null |].
  split; [apply fresh_addr_unused |].
  split; [apply lookup_insert_eq |].
  split; [| done].
  intros p Hp. by apply lookup_insert_ne.
Qed.

Lemma returns_allocated (w : world E) (r : res kll_sketch.sketch) :
  ∃ h w',
    match r with
    | Ok s => Returns (alloc w s)
    | Throw _ => Returns (nullptr, w)
    end = Returns (h, w')
    ∧ allocated w r h w'.
Proof.
  destruct r as [s | e].
  - exists (alloc w s).1, (alloc w s).2. split; [by destruct (alloc w s) |].
    apply alloc_allocated.
  - exists nullptr, w. by split.
Qed.

Lemma new_allocated (w : world E) :
  ∃ h w', kll_sketch_new w = Returns (h, w') ∧ allocated w kll_sketch.ctor h w'.
Proof. apply returns_allocated. Qed.

Lemma new_with_k_allocated (w : world E) (k : N) :
  ∃ h w', kll_sketch_new_with_k w k = Returns (h, w')
          ∧ allocated w (kll_sketch.ctor_k k) h w'.
Proof. apply returns_allocated. Qed.

Lemma deserialize_allocated (w : world E) (buf : list byte) (size : N) :
  size ≠ 0 -> (N.to_nat size ≤ length buf)%nat ->
  ∃ h w', kll_sketch_deserialize w (Some buf) size = Returns (h, w')
          ∧ allocated w (kll_sketch.deserialize (take (N.to_nat size) buf)) h w'.
Proof.
  intros Hsize Hlen. unfold kll_sketch_deserialize. cbn [null_array orb].
  apply N.eqb_neq in Hsize. rewrite Hsize.
  assert (Hfit : (N.of_nat (length buf) <? size) = false) by (apply N.ltb_ge; lia).
  rewrite Hfit. apply returns_allocated.
Qed.

(** [delete] of a handle just allocated gives back the world. *)
Lemma delete_allocated (w w' : world E) (r : res kll_sketch.sketch) (h : handle) :
  allocated w r h w' ->
  (∀ s, r = Ok s -> heap w' = <[h := s]> (heap w)) ->
  kll_sketch_delete w' h = Returns w.
Proof.
  unfold allocated, kll_sketch_delete. destruct r as [s | e].
  - intros (Hn & Hfree & Hlive & _ & Hgen) Hheap.
    apply N.eqb_neq in Hn. unfold is_null. rewrite Hn, Hlive.
    f_equal. destruct w as [hp g], w' as [hp' g']. cbn in *.
    rewrite (Hheap s eq_refl), Hgen. f_equal.
    by apply delete_insert_id.
  - intros (-> & ->) _. reflexivity.
Qed.

Lemma delete_after (w : world E) (r : res kll_sketch.sketch) :
  ∃ h w',
    match r with
    | Ok s => Returns (alloc w s)
    | Throw _ => Returns (nullptr, w)
    end = Returns (h, w')
    ∧ kll_sketch_delete w' h = Returns w.
Proof.
  destruct r as [s | e].
  - exists (alloc w s).1, (alloc w s).2. split; [by destruct (alloc w s) |].
    apply (delete_allocated w _ (Ok s)); [apply alloc_allocated |].
    intros s' Hs'. by inversion Hs'; subst.
  - exists nullptr, w. by split.
Qed.

Lemma delete_after_deserialize (w : world E) (buf : list byte) (size : N) :
  (N.to_nat size ≤ length buf)%nat ->
  ∃ h w', kll_sketch_deserialize w (Some buf) size = Returns (h, w')
          ∧ kll_sketch_delete w' h = Returns w.
Proof.
  intros Hlen. unfold kll_sketch_deserialize. cbn [null_array orb].
  destruct (size =? 0); [by exists nullptr, w |].
  assert (Hfit : (N.of_nat (length buf) <? size) = false) by (apply N.ltb_ge; lia).
  rewrite Hfit. apply delete_after.
Qed.

(** A handle that is neither null nor live. *)
Lemma delete_frees (w : world E) (h : handle) (s : kll_sketch.sketch) :
  is_null h = false -> deref w h = Some s ->
  ∃ w', kll_sketch_delete w h = Returns w'
        ∧ deref w' h = None
        ∧ (∀ p, p ≠ h -> deref w' p = deref w p)
        ∧ gen w' = gen w.
Proof.
  intros Hn Hs. unfold kll_sketch_delete. rewrite Hn, Hs.
  eexists. split; [reflexivity |]. unfold deref. cbn [heap gen].
  split; [apply lookup_delete_eq |]. split; [| done].
  intros p Hp. by apply lookup_delete_ne.
Qed.

Lemma dangling_handle (w : world E) (h : handle) :
  is_null h = false -> deref w h = None ->
  kll_sketch_delete w h = Undefined
  ∧ (∀ v, kll_sketch_update w h v = Undefined)
  ∧ (∀ o, is_null o = false ->
          kll_sketch_merge w h o = Undefined ∧ kll_sketch_merge w o h = Undefined)
  ∧ kll_sketch_is_empty w h = Undefined
  ∧ kll_sketch_get_k w h = Undefined
  ∧ kll_sketch_get_n w h = Undefined
  ∧ kll_sketch_get_num_retained w h = Undefined
  ∧ kll_sketch_is_estimation_mode w h = Undefined
  ∧ kll_sketch_get_min_value w h = Undefined
  ∧ kll_sketch_get_max_value w h = Undefined
  ∧ (∀ f, kll_sketch_get_quantile w h f = Undefined)
  ∧ (∀ v, kll_sketch_get_rank w h v = Undefined)
  ∧ (∀ n, kll_sketch_serialize w h (Some n) = Undefined)
  ∧ (∀ fs num rs, num ≠ 0 ->
       kll_sketch_get_quantiles w h (Some fs) num (Some rs) = Undefined)
  ∧ (∀ num rs, num ≠ 0 ->
       kll_sketch_get_quantiles_evenly_spaced w h num (Some rs) = Undefined).
Proof.
  intros Hn Hs.
  unfold kll_sketch_delete, kll_sketch_update, kll_sketch_merge,
    kll_sketch_is_empty, kll_sketch_get_k, kll_sketch_get_n,
    kll_sketch_get_num_retained, kll_sketch_is_estimation_mode,
    kll_sketch_get_min_value, kll_sketch_get_max_value, kll_sketch_get_quantile,
    kll_sketch_get_rank, kll_sketch_serialize, kll_sketch_get_quantiles,
    kll_sketch_get_quantiles_evenly_spaced.
  rewrite Hn, Hs. cbn [orb null_cell null_array].
  split; [done |]. split; [done |]. split.
  { intros o Ho. rewrite Ho. split; [done |]. by destruct (deref w o). }
  do 10 (split; [done |]). split.
  - intros fs num rs Hnum. apply N.eqb_neq in Hnum. by rewrite Hnum.
  - intros num rs Hnum. apply N.eqb_neq in Hnum. by rewrite Hnum.
Qed.

(** [update] and [merge] replace the sketch behind the first handle. *)
Lemma update_frame (w : world E) (h : handle) (s s' : kll_sketch.sketch)
  (v : T) (g' : kll_sketch.rng) :
  is_null h = false -> deref w h = Some s ->
  kll_sketch.update s v (gen w) = Ok (s', g') ->
  ∃ w', kll_sketch_update w h v = Returns w'
        ∧ deref w' h = Some s'
        ∧ gen w' = g'
        ∧ (∀ p, p ≠ h -> deref w' p = deref w p).
Proof.
  intros Hn Hs Hu. unfold kll_sketch_update. rewrite Hn, Hs, Hu.
  eexists. split; [reflexivity |]. unfold deref. cbn [heap gen].
  split; [apply lookup_insert_eq |]. split; [done |].
  intros p Hp. by apply lookup_insert_ne.
Qed.

Lemma merge_frame (w : world E) (h o : handle) (s t s' : kll_sketch.sketch)
  (g' : kll_sketch.rng) :
  is_null h = false -> is_null o = false -> h ≠ o ->
  deref w h = Some s -> deref w o = Some t ->
  kll_sketch.merge s t (gen w) = Ok (s', g') ->
  ∃ w', kll_sketch_merge w h o = Returns w'
        ∧ deref w' h = Some s'
        ∧ deref w' o = Some t
        ∧ gen w' = g'
        ∧ (∀ p, p ≠ h -> deref w' p = deref w p).
Proof.
  intros Hn Ho Hne Hs Ht Hm. unfold kll_sketch_merge.
  rewrite Hn, Ho, Hs, Ht, Hm. cbn [orb].
  eexists. split; [reflexivity |]. unfold deref. cbn [heap gen].
  split; [apply lookup_insert_eq |].
  split; [by rewrite lookup_insert_ne |]. split; [done |].
  intros p Hp. by apply lookup_insert_ne.
Qed.

Lemma merge_escapes (w : world E) (h o : handle) (s t : kll_sketch.sketch)
  (e : exn) :
  is_null h = false -> is_null o = false ->
  deref w h = Some s -> deref w o = Some t ->
  kll_sketch.merge s t (gen w) = Throw e ->
  kll_sketch_merge w h o = Escapes e.
Proof.
  intros Hn Ho Hs Ht Hm. unfold kll_sketch_merge.
  by rewrite Hn, Ho, Hs, Ht, Hm.
Qed.

End Lifetime.

(** ** Exceptions at the boundary *)

Section Exceptions.
Context {T : Type} {I : Item T} {E : kll_sketch.engine T}.

(** The functions with a [try] block never let an exception through. *)
Lemma try_blocks_hold (w : world E) (h : handle) (e : exn) :
  kll_sketch_new w ≠ Escapes e
  ∧ (∀ k, kll_sketch_new_with_k w k ≠ Escapes e)
  ∧ (∀ size, kll_sketch_serialize w h size ≠ Escapes e)
  ∧ (∀ data size, kll_sketch_deserialize w data size ≠ Escapes e)
  ∧ (∀ fs num rs, kll_sketch_get_quantiles w h fs num rs ≠ Escapes e)
  ∧ (∀ num rs, kll_sketch_get_quantiles_evenly_spaced w h num rs ≠ Escapes e).
Proof.
  unfold kll_sketch_new, kll_sketch_new_with_k, kll_sketch_serialize,
    kll_sketch_deserialize, kll_sketch_get_quantiles,
    kll_sketch_get_quantiles_evenly_spaced.
  split; [by destruct kll_sketch.ctor |].
  split; [intros k; by destruct (kll_sketch.ctor_k k) |].
  split.
  { intros size. destruct (is_null h || null_cell size); [done |].
    destruct (deref w h) as [s |]; [| done].
    by destruct (kll_sketch.serialize s). }
  split.
  { intros data size. destruct (null_array data || (size =? 0)); [done |].
    destruct data as [buf |]; [| done].
    destruct (N.of_nat (length buf) <? size); [done |].
    by destruct (kll_sketch.deserialize _). }
  split.
  - intros fs num rs. destruct (_ || _); [done |].
    destruct (deref w h) as [s |], fs as [fs |], rs as [rs |]; try done.
    by destruct (get_quantiles_loop _ _ _ _ _).
  - intros num rs. destruct (_ || _); [done |].
    destruct (deref w h) as [s |], rs as [rs |]; try done.
    by destruct (evenly_spaced_loop _ _ _ _ _).
Qed.

(** The functions without one let through exactly what the engine throws. *)
Lemma no_try_block (w : world E) (h : handle) (e : exn) :
  (∀ v, kll_sketch_update w h v = Escapes e
        ↔ is_null h = false
          ∧ ∃ s, deref w h = Some s ∧ kll_sketch.update s v (gen w) = Throw e)
  ∧ (kll_sketch_get_min_value w h = Escapes e
     ↔ is_null h = false
       ∧ ∃ s, deref w h = Some s ∧ kll_sketch.get_min_item s = Throw e)
  ∧ (kll_sketch_get_max_value w h = Escapes e
     ↔ is_null h = false
       ∧ ∃ s, deref w h = Some s ∧ kll_sketch.get_max_item s = Throw e)
  ∧ (∀ f, kll_sketch_get_quantile w h f = Escapes e
          ↔ is_null h = false
            ∧ ∃ s, deref w h = Some s ∧ kll_sketch.get_quantile s f = Throw e)
  ∧ (∀ v, kll_sketch_get_rank w h v = Escapes e
          ↔ is_null h = false
            ∧ ∃ s, deref w h = Some s ∧ kll_sketch.get_rank s v = Throw e).
Proof.
  unfold kll_sketch_update, kll_sketch_get_min_value, kll_sketch_get_max_value,
    kll_sketch_get_quantile, kll_sketch_get_rank.
  destruct (is_null h).
  { repeat split; (discriminate || intros [? _]; discriminate). }
  destruct (deref w h) as [s |].
  2: { repeat split; (discriminate || intros [_ (? & ? & _)]; discriminate). }
  split; [intros v; destruct (kll_sketch.update s v (gen w)) as [[s' g'] | e'] eqn:Hr |].
  3: split; [destruct (kll_sketch.get_min_item s) as [x | e'] eqn:Hr |].
  5: split; [destruct (kll_sketch.get_max_item s) as [x | e'] eqn:Hr |].
  7: split; [intros f; destruct (kll_sketch.get_quantile s f) as [x | e'] eqn:Hr
            | intros v; destruct (kll_sketch.get_rank s v) as [x | e'] eqn:Hr].
  all: split;
    [ intros Heq; inversion Heq; subst; (split; [done | by exists s])
    | intros [_ (s0 & Hs0 & Hthrow)]; inversion Hs0; subst; congruence ].
Qed.

(** ** serialize and deserialize *)

Lemma serialize_contract (w : world E) (h : handle) (size : option N) :
  (∀ bytes size',
     kll_sketch_serialize w h size = Returns (Some bytes, size') ->
     size' = Some (N.of_nat (length bytes))
     ∧ size ≠ None ∧ is_null h = false
     ∧ ∃ s, deref w h = Some s ∧ kll_sketch.serialize s = Ok bytes)
  ∧ kll_sketch_serialize w h None = Returns (None, None)
  ∧ (∀ s e, is_null h = false -> deref w h = Some s ->
            kll_sketch.serialize s = Throw e ->
            kll_sketch_serialize w h size = Returns (None, size)).
Proof.
  unfold kll_sketch_serialize. split; [| split].
  - intros bytes size'. destruct (is_null h); [discriminate |].
    destruct size as [n |]; [| discriminate]. cbn [orb null_cell].
    destruct (deref w h) as [s |]; [| discriminate].
    destruct (kll_sketch.serialize s) as [bs | e] eqn:Hser; [| discriminate].
    intros Heq. inversion Heq. subst.
    split; [done |]. split; [done |]. split; [done |]. by exists s.
  - cbn [null_cell]. by rewrite orb_true_r.
  - intros s e Hn Hs Hthrow. rewrite Hn, Hs, Hthrow.
    by destruct size.
Qed.


End Exceptions.

(** ** The batch loops and the caller's arrays *)

Section BatchLoopMemory.
Context {T : Type} {E : kll_sketch.engine T}.
Variable s : kll_sketch.sketch.

(** The two sources of fractions agree where the loop looks. *)
Lemma batch_loop_ext (frac frac' : nat -> option double) (todo i : nat)
  (rs : list T) :
  (∀ j, (i ≤ j < i + todo)%nat -> frac j = frac' j) ->
  batch_loop s frac todo i rs = batch_loop s frac' todo i rs.
Proof.
  revert i rs. induction todo as [| todo IH]; intros i rs Hext; simpl; [done |].
  rewrite <- (Hext i) by lia.
  destruct (frac i) as [f |]; [| done].
  destruct (kll_sketch.get_quantile s f) as [q | e]; [| done].
  case_bool_decide; [| done]. apply IH. intros j Hj. apply Hext. lia.
Qed.

Variable frac : nat -> option double.

(** A loop that does not fault keeps the length of the array, and writes
    nowhere but at the indexes it runs over; what it writes at an index is
    the quantile of that index. *)
Lemma batch_loop_frame (todo i : nat) (rs rs' : list T) :
  (batch_loop s frac todo i rs = Done rs'
   ∨ ∃ e, batch_loop s frac todo i rs = Raised e rs') ->
  length rs' = length rs
  ∧ (∀ j, ¬ (i ≤ j < i + todo)%nat -> rs' !! j = rs !! j)
  ∧ (∀ j, (i ≤ j < i + todo)%nat ->
          rs' !! j = rs !! j ∨ ∃ q, query_ok s frac j q ∧ rs' !! j = Some q).
Proof.
  revert i rs. induction todo as [| todo IH]; intros i rs; simpl.
  - intros [Heq | [e Heq]]; [| discriminate]. inversion Heq. subst.
    split; [done |]. split; [done |]. intros j Hj. lia.
  - destruct (frac i) as [f |] eqn:Hf; [| intros [? | [? ?]]; discriminate].
    destruct (kll_sketch.get_quantile s f) as [q | e0] eqn:Hq.
    + case_bool_decide as Hi; [| intros [? | [? ?]]; discriminate].
      intros Hrun. destruct (IH _ _ Hrun) as (Hl & Hout & Hin).
      rewrite length_insert in Hl. split; [done |]. split.
      * intros j Hj. rewrite Hout by lia. apply list_lookup_insert_ne. lia.
      * intros j Hj. destruct (decide (j = i)) as [-> | Hne].
        -- right. exists q. split; [by exists f |].
           rewrite Hout by lia. apply list_lookup_insert_eq. done.
        -- destruct (Hin j ltac:(lia)) as [Hsame | Hwritten]; [| by right].
           left. rewrite Hsame. apply list_lookup_insert_ne. lia.
    + intros [Heq | [e Heq]]; [discriminate |]. inversion Heq. subst.
      split; [done |]. split; [done |]. intros j Hj. by left.
Qed.

(** With arrays long enough the loop does not fault. *)
Lemma batch_loop_no_fault (todo i : nat) (rs : list T) :
  (i + todo ≤ length rs)%nat ->
  (∀ j, (i ≤ j < i + todo)%nat -> is_Some (frac j)) ->
  ∃ rs', batch_loop s frac todo i rs = Done rs'
         ∨ ∃ e, batch_loop s frac todo i rs = Raised e rs'.
Proof.
  revert i rs. induction todo as [| todo IH]; intros i rs Hlen Hfrac; simpl.
  - exists rs. by left.
  - destruct (Hfrac i ltac:(lia)) as [f Hf]. rewrite Hf.
    destruct (kll_sketch.get_quantile s f) as [q | e].
    + rewrite bool_decide_eq_true_2 by lia.
      apply IH; [rewrite length_insert; lia |].
      intros j Hj. apply Hfrac. lia.
    + exists rs. right. by exists e.
Qed.

(** The loop overruns an array that is too short, when the queries succeed
    that far. *)
Lemma batch_loop_overrun_results (todo i : nat) (rs : list T) :
  (i ≤ length rs < i + todo)%nat ->
  (∀ j, (i ≤ j ≤ length rs)%nat -> ∃ q, query_ok s frac j q) ->
  batch_loop s frac todo i rs = Fault.
Proof.
  intros Hlen Hok.
  replace todo with ((length rs - i) + S (todo - S (length rs - i)))%nat by lia.
  rewrite batch_loop_app.
  destruct (batch_loop_done s frac (length rs - i) i rs) as (rs' & Hrun & Hl & _).
  { lia. }
  { intros j Hj. apply Hok. lia. }
  rewrite Hrun. simpl.
  destruct (Hok (i + (length rs - i))%nat ltac:(lia)) as (q & f & Hf & Hq).
  rewrite Hf, Hq. rewrite bool_decide_eq_false_2 by lia. done.
Qed.

Lemma batch_loop_overrun_fractions (todo i j : nat) (rs : list T) :
  (i ≤ j < i + todo)%nat -> (j ≤ length rs)%nat ->
  (∀ l, (i ≤ l < j)%nat -> ∃ q, query_ok s frac l q) ->
  frac j = None ->
  batch_loop s frac todo i rs = Fault.
Proof.
  intros Hj Hlen Hok Hnone.
  replace todo with ((j - i) + S (todo - S (j - i)))%nat by lia.
  rewrite batch_loop_app.
  destruct (batch_loop_done s frac (j - i) i rs) as (rs' & Hrun & Hl & _).
  { lia. }
  { intros l Hl. apply Hok. lia. }
  rewrite Hrun. simpl.
  replace (i + (j - i))%nat with j by lia. by rewrite Hnone.
Qed.

(** Running the loop again on the array it left changes nothing. *)
Lemma batch_loop_again (todo i : nat) (rs rs' : list T) :
  (batch_loop s frac todo i rs = Done rs' ->
   batch_loop s frac todo i rs' = Done rs')
  ∧ (∀ e, batch_loop s frac todo i rs = Raised e rs' ->
          batch_loop s frac todo i rs' = Raised e rs').
Proof.
  revert i rs. induction todo as [| todo IH]; intros i rs; simpl.
  - split; [| discriminate]. done.
  - destruct (frac i) as [f |] eqn:Hf; [| split; [| intros e]; discriminate].
    destruct (kll_sketch.get_quantile s f) as [q | e0] eqn:Hq.
    + case_bool_decide as Hi; [| split; [| intros e]; discriminate].
      assert (Hkeep : ∀ r, (r = Done rs' ∨ ∃ e, r = Raised e rs') ->
                batch_loop s frac todo (S i) (<[i := q]> rs) = r ->
                (if bool_decide (i < length rs')%nat
                 then batch_loop s frac todo (S i) (<[i := q]> rs') else Fault)
                = batch_loop s frac todo (S i) rs').
      { intros r Hr Hrun.
        destruct (batch_loop_frame todo (S i) (<[i := q]> rs) rs')
          as (Hl & Hout & _).
        { rewrite Hrun. destruct Hr as [-> | [e ->]]; [by left | right; by exists e]. }
        rewrite length_insert in Hl.
        rewrite bool_decide_eq_true_2 by lia.
        rewrite list_insert_id; [done |].
        rewrite Hout by lia. apply list_lookup_insert_eq. done. }
      split.
      * intros Hrun. rewrite (Hkeep (Done rs')); [| by left | done].
        by apply (IH (S i) (<[i := q]> rs)).
      * intros e Hrun. rewrite (Hkeep (Raised e rs')); [| right; by exists e | done].
        by apply (IH (S i) (<[i := q]> rs)).
    + split; [discriminate |]. intros e Heq. inversion Heq. by subst.
Qed.
End BatchLoopMemory.

Section BatchMemory.
Context {T : Type} {I : Item T} {E : kll_sketch.engine T}.

Lemma get_quantiles_memory (w : world E) (h : handle) (s : kll_sketch.sketch)
  (fs : list double) (num : N) (rs : list T) :
  is_null h = false -> deref w h = Some s ->
  (N.to_nat num ≤ length fs)%nat -> (N.to_nat num ≤ length rs)%nat ->
  ∃ rs', kll_sketch_get_quantiles w h (Some fs) num (Some rs) = Returns (Some rs')
         ∧ length rs' = length rs
         ∧ (∀ i, (N.to_nat num ≤ i)%nat -> rs' !! i = rs !! i)
         ∧ (∀ i, (i < N.to_nat num)%nat ->
                 rs' !! i = rs !! i
                 ∨ ∃ f q, fs !! i = Some f ∧ kll_sketch.get_quantile s f = Ok q
                          ∧ rs' !! i = Some q).
Proof.
  intros Hn Hs Hfs Hrs.
  destruct (decide (num = 0)) as [-> | Hnum].
  { exists rs. unfold kll_sketch_get_quantiles. rewrite Hn. cbn.
    split; [done |]. split; [done |]. split; [done |]. intros i Hi. lia. }
  rewrite (get_quantiles_runs_loop w h s) by done.
  destruct (batch_loop_no_fault s (fun j => fs !! j) (N.to_nat num) 0 rs)
    as [rs' Hrun]; [done | |].
  { intros j Hj. apply lookup_lt_is_Some_2. lia. }
  destruct (batch_loop_frame s (fun j => fs !! j) (N.to_nat num) 0 rs rs' Hrun)
    as (Hl & Hout & Hin).
  exists rs'. split; [| split; [done | split]].
  - destruct Hrun as [-> | [e ->]]; reflexivity.
  - intros i Hi. apply Hout. lia.
  - intros i Hi. destruct (Hin i ltac:(lia)) as [Hsame | (q & (f & Hf & Hq) & Hw)].
    + by left.
    + right. by exists f, q.
Qed.

Lemma evenly_spaced_memory (w : world E) (h : handle) (s : kll_sketch.sketch)
  (num : N) (rs : list T) :
  is_null h = false -> deref w h = Some s ->
  (N.to_nat num ≤ length rs)%nat ->
  ∃ rs', kll_sketch_get_quantiles_evenly_spaced w h num (Some rs)
         = Returns (Some rs')
         ∧ length rs' = length rs
         ∧ (∀ i, (N.to_nat num ≤ i)%nat -> rs' !! i = rs !! i)
         ∧ (∀ i, (i < N.to_nat num)%nat ->
                 rs' !! i = rs !! i
                 ∨ ∃ q, kll_sketch.get_quantile s
                          (evenly_spaced_fraction (N.of_nat i) num) = Ok q
                        ∧ rs' !! i = Some q).
Proof.
  intros Hn Hs Hrs.
  destruct (decide (num = 0)) as [-> | Hnum].
  { exists rs. unfold kll_sketch_get_quantiles_evenly_spaced. rewrite Hn. cbn.
    split; [done |]. split; [done |]. split; [done |]. intros i Hi. lia. }
  rewrite (evenly_spaced_runs_loop w h s) by done.
  set (frac := fun j => Some (evenly_spaced_fraction (N.of_nat j) num)).
  destruct (batch_loop_no_fault s frac (N.to_nat num) 0 rs)
    as [rs' Hrun]; [done | |].
  { intros j Hj. by eexists. }
  destruct (batch_loop_frame s frac (N.to_nat num) 0 rs rs' Hrun)
    as (Hl & Hout & Hin).
  exists rs'. split; [| split; [done | split]].
  - destruct Hrun as [-> | [e ->]]; reflexivity.
  - intros i Hi. apply Hout. lia.
  - intros i Hi. destruct (Hin i ltac:(lia)) as [Hsame | (q & (f & Hf & Hq) & Hw)].
    + by left.
    + right. exists q. unfold frac in Hf. inversion Hf. by subst.
Qed.

Lemma get_quantiles_overrun_results (w : world E) (h : handle)
  (s : kll_sketch.sketch) (fs : list double) (num : N) (rs : list T) :
  is_null h = false -> deref w h = Some s ->
  (length rs < N.to_nat num)%nat ->
  (∀ i, (i ≤ length rs)%nat ->
        ∃ f q, fs !! i = Some f ∧ kll_sketch.get_quantile s f = Ok q) ->
  kll_sketch_get_quantiles w h (Some fs) num (Some rs) = Undefined.
Proof.
  intros Hn Hs Hlen Hok.
  rewrite (get_quantiles_runs_loop w h s) by (done || lia).
  rewrite batch_loop_overrun_results; [done | lia |].
  intros j Hj. destruct (Hok j ltac:(lia)) as (f & q & Hf & Hq).
  exists q, f. done.
Qed.

Lemma get_quantiles_overrun_fractions (w : world E) (h : handle)
  (s : kll_sketch.sketch) (fs : list double) (num : N) (rs : list T) :
  is_null h = false -> deref w h = Some s ->
  (length fs < N.to_nat num)%nat -> (length fs ≤ length rs)%nat ->
  (∀ i f, fs !! i = Some f -> ∃ q, kll_sketch.get_quantile s f = Ok q) ->
  kll_sketch_get_quantiles w h (Some fs) num (Some rs) = Undefined.
Proof.
  intros Hn Hs Hlen Hrs Hok.
  rewrite (get_quantiles_runs_loop w h s) by (done || lia).
  rewrite (batch_loop_overrun_fractions s _ _ 0 (length fs)); [done | lia | lia | |].
  - intros l Hl. destruct (lookup_lt_is_Some_2 fs l ltac:(lia)) as [f Hf].
    destruct (Hok l f Hf) as [q Hq]. exists q, f. done.
  - apply lookup_ge_None_2. lia.
Qed.

Lemma evenly_spaced_overrun (w : world E) (h : handle)
  (s : kll_sketch.sketch) (num : N) (rs : list T) :
  is_null h = false -> deref w h = Some s ->
  (length rs < N.to_nat num)%nat ->
  (∀ i, (i ≤ length rs)%nat ->
        ∃ q, kll_sketch.get_quantile s (evenly_spaced_fraction (N.of_nat i) num)
             = Ok q) ->
  kll_sketch_get_quantiles_evenly_spaced w h num (Some rs) = Undefined.
Proof.
  intros Hn Hs Hlen Hok.
  rewrite (evenly_spaced_runs_loop w h s) by (done || lia).
  rewrite batch_loop_overrun_results; [done | lia |].
  intros j Hj. destruct (Hok j ltac:(lia)) as (q & Hq).
  exists q. eexists. done.
Qed.

(** The guards that do not look at the handle. *)
Lemma batch_guards (w : world E) (h : handle) :
  (∀ num rs, kll_sketch_get_quantiles w h None num rs = Returns rs)
  ∧ (∀ fs num, kll_sketch_get_quantiles w h fs num None = Returns None)
  ∧ (∀ fs rs, kll_sketch_get_quantiles w h fs 0 rs = Returns rs)
  ∧ (∀ num, kll_sketch_get_quantiles_evenly_spaced w h num None = Returns None)
  ∧ (∀ rs, kll_sketch_get_quantiles_evenly_spaced w h 0 rs = Returns rs).
Proof.
  unfold kll_sketch_get_quantiles, kll_sketch_get_quantiles_evenly_spaced.
  split; [| split; [| split; [| split]]].
  - intros num rs. cbn [null_array]. by rewrite orb_true_r.
  - intros fs num. cbn [null_array]. by rewrite !orb_true_r.
  - intros fs rs. cbn [N.eqb]. by rewrite !orb_true_r.
  - intros num. cbn [null_array]. by rewrite !orb_true_r.
  - intros rs. cbn [N.eqb]. by rewrite !orb_true_r.
Qed.

(** [get_quantiles_evenly_spaced] is [get_quantiles] on the array of the
    fractions [i / (num - 1)]. *)
Lemma evenly_spaced_as_get_quantiles (w : world E) (h : handle) (num : N)
  (rs : array T) :
  kll_sketch_get_quantiles_evenly_spaced w h num rs
  = kll_sketch_get_quantiles w h
      (Some (map (fun i => evenly_spaced_fraction (N.of_nat i) num)
               (seq 0 (N.to_nat num))))
      num rs.
Proof.
  unfold kll_sketch_get_quantiles_evenly_spaced, kll_sketch_get_quantiles.
  cbn [null_array]. rewrite orb_false_r.
  destruct (is_null h || null_array rs || (num =? 0)); [done |].
  destruct (deref w h) as [s |]; [| done].
  destruct rs as [rs |]; [| done].
  rewrite evenly_spaced_loop_batch, get_quantiles_loop_batch.
  do 2 f_equal. apply batch_loop_ext. intros j Hj.
  rewrite list_lookup_fmap, lookup_seq_lt by lia. reflexivity.
Qed.

(** Calling [get_quantiles] again on the array it left changes nothing. *)
Lemma get_quantiles_again (w : world E) (h : handle) (fs : array double)
  (num : N) (rs rs' : array T) :
  kll_sketch_get_quantiles w h fs num rs = Returns rs' ->
  kll_sketch_get_quantiles w h fs num rs' = Returns rs'.
Proof.
  unfold kll_sketch_get_quantiles.
  destruct (is_null h) eqn:Hn; cbn [orb].
  { intros Heq. by inversion Heq. }
  destruct fs as [fs |]; cbn [orb null_array].
  2: { intros Heq. by inversion Heq. }
  destruct (num =? 0) eqn:Hnum.
  { rewrite !orb_true_r. intros Heq. by inversion Heq. }
  destruct rs as [rs |]; cbn [orb null_array].
  2: { intros Heq. by inversion Heq. }
  destruct (deref w h) as [s |]; [| discriminate].
  rewrite get_quantiles_loop_batch.
  destruct (batch_loop s _ _ 0%nat rs) as [l | e l |] eqn:Hrun; [| | discriminate].
  - intros Heq. inversion Heq. subst rs'. cbn [orb null_array].
    rewrite get_quantiles_loop_batch.
    by rewrite (proj1 (batch_loop_again s _ _ _ rs l) Hrun).
  - intros Heq. inversion Heq. subst rs'. cbn [orb null_array].
    rewrite get_quantiles_loop_batch.
    by rewrite (proj2 (batch_loop_again s _ _ _ rs l) e Hrun).
Qed.
End BatchMemory.

(** ** The fractions of the evenly spaced query

    [static_cast<double>(i) / (num - 1)] in IEEE-754 binary64 arithmetic. *)

(** *** Binary digits *)

Lemma digits2_pos_lt (p : positive) : (Zpos p < 2 ^ Zpos (digits2_pos p))%Z.
Proof.
  induction p as [p IH | p IH |]; cbn [digits2_pos].
  - rewrite Pos2Z.inj_succ, Z.pow_succ_r by lia. lia.
  - rewrite Pos2Z.inj_succ, Z.pow_succ_r by lia. lia.
  - reflexivity.
Qed.

Lemma digits2_pos_ge (p : positive) : (2 ^ (Zpos (digits2_pos p) - 1) <= Zpos p)%Z.
Proof.
  induction p as [p IH | p IH |]; cbn [digits2_pos].
  - rewrite Pos2Z.inj_succ.
    replace (Z.succ (Zpos (digits2_pos p)) - 1)%Z
      with (Z.succ (Zpos (digits2_pos p) - 1)) by lia.
    rewrite Z.pow_succ_r by lia. lia.
  - rewrite Pos2Z.inj_succ.
    replace (Z.succ (Zpos (digits2_pos p)) - 1)%Z
      with (Z.succ (Zpos (digits2_pos p) - 1)) by lia.
    rewrite Z.pow_succ_r by lia. lia.
  - discriminate.
Qed.

Lemma digits2_pos_unique (p : positive) (d : Z) :
  (2 ^ (d - 1) <= Zpos p < 2 ^ d)%Z -> Zpos (digits2_pos p) = d.
Proof.
  intros [Hlo Hhi].
  pose proof (digits2_pos_lt p) as Hlt. pose proof (digits2_pos_ge p) as Hge.
  assert (0 < d)%Z.
  { destruct (Z.lt_trichotomy d 0) as [Hd | [-> | Hd]]; [| simpl in Hhi; lia | done].
    rewrite Z.pow_neg_r in Hhi by done. lia. }
  assert (Zpos (digits2_pos p) - 1 < d)%Z.
  { apply (Z.pow_lt_mono_r_iff 2); lia. }
  assert (d - 1 < Zpos (digits2_pos p))%Z.
  { apply (Z.pow_lt_mono_r_iff 2); lia. }
  lia.
Qed.

Lemma digits2_pos_mono (p q : positive) :
  (p <= q)%positive -> (digits2_pos p <= digits2_pos q)%positive.
Proof.
  intros Hpq.
  pose proof (digits2_pos_ge p) as Hge. pose proof (digits2_pos_lt q) as Hlt.
  assert (Zpos (digits2_pos p) - 1 < Zpos (digits2_pos q))%Z.
  { apply (Z.pow_lt_mono_r_iff 2); lia. }
  lia.
Qed.

Lemma iter_xO_spec (p k : positive) : Zpos (Pos.iter xO p k) = (Zpos p * 2 ^ Zpos k)%Z.
Proof.
  induction k as [| k IH] using Pos.peano_ind.
  - simpl. lia.
  - rewrite Pos.iter_succ, Pos2Z.inj_succ, Z.pow_succ_r by lia.
    rewrite Pos2Z.inj_xO, IH. lia.
Qed.

(** *** Rounding a significand of 53 or 54 bits *)

Lemma shr_fexp_53 (q : positive) (e : Z) (l : location) :
  Zpos (digits2_pos q) = 53%Z -> (-1074 <= e)%Z ->
  shr_fexp 53 1024 (Zpos q) e l = (shr_record_of_loc (Zpos q) l, e).
Proof.
  intros Hd He. unfold shr_fexp, fexp, emin. cbn [Zdigits2]. rewrite Hd.
  rewrite Z.max_l by lia.
  replace (53 + e - 53 - e)%Z with 0%Z by lia. reflexivity.
Qed.

Lemma shr_fexp_54 (q : positive) (e : Z) (l : location) :
  Zpos (digits2_pos q) = 54%Z -> (-1075 <= e)%Z ->
  shr_fexp 53 1024 (Zpos q) e l = (shr_1 (shr_record_of_loc (Zpos q) l), (e + 1)%Z).
Proof.
  intros Hd He. unfold shr_fexp, fexp, emin. cbn [Zdigits2]. rewrite Hd.
  rewrite Z.max_l by lia.
  replace (54 + e - 53 - e)%Z with 1%Z by lia. reflexivity.
Qed.

Lemma shr_record_of_loc_m (m : Z) (l : location) :
  shr_m (shr_record_of_loc m l) = m.
Proof. by destruct l as [| []]. Qed.

Lemma loc_of_shr_record_of_loc (m : Z) (l : location) :
  loc_of_shr_record (shr_record_of_loc m l) = l.
Proof. by destruct l as [| []]. Qed.

Lemma round_nearest_even_cases (m : Z) (l : location) :
  round_nearest_even m l = m ∨ round_nearest_even m l = (m + 1)%Z.
Proof.
  destruct l as [| []]; cbn [round_nearest_even]; auto.
  destruct (Z.even m); auto.
Qed.

(** The second half of [binary_round_aux]: the rounded significand is
    normalized again, which shifts once when rounding carried into bit 53. *)
Lemma round_tail (q : positive) (e : Z) (q' : Z) :
  Zpos (digits2_pos q) = 53%Z -> (-1074 <= e <= 970)%Z ->
  q' = Zpos q ∨ q' = (Zpos q + 1)%Z ->
  ∃ m e',
    (let '(mrs, e'') := shr_fexp 53 1024 q' e loc_Exact in
     match shr_m mrs with
     | Z0 => S754_zero false
     | Zpos m => if (e'' <=? 1024 - 53)%Z then S754_finite false m e''
                 else S754_infinity false
     | Zneg _ => S754_nan
     end) = S754_finite false m e'
    ∧ Zpos (digits2_pos m) = 53%Z
    ∧ ((e' = e ∧ Zpos m = q')
       ∨ (e' = (e + 1)%Z ∧ m = 4503599627370496%positive
          ∧ q' = 9007199254740992%Z)).
Proof.
  intros Hd He Hq'.
  pose proof (digits2_pos_lt q) as Hlt. pose proof (digits2_pos_ge q) as Hge.
  rewrite Hd in Hlt, Hge.
  change (2 ^ 53)%Z with 9007199254740992%Z in Hlt.
  change (2 ^ (53 - 1))%Z with 4503599627370496%Z in Hge.
  assert (Hle : ∀ x, (x <= 971)%Z -> (x <=? 1024 - 53)%Z = true).
  { intros x Hx. apply Z.leb_le. lia. }
  assert (Hcase : (∃ m, q' = Zpos m ∧ Zpos (digits2_pos m) = 53%Z)
                  ∨ q' = 9007199254740992%Z).
  { destruct Hq' as [-> | ->]; [left; by exists q |].
    destruct (decide (Zpos q + 1 = 9007199254740992)%Z) as [Heq | Hne]; [by right |].
    left. exists (q + 1)%positive. split; [lia |].
    apply digits2_pos_unique.
    change (2 ^ 53)%Z with 9007199254740992%Z.
    change (2 ^ (53 - 1))%Z with 4503599627370496%Z. lia. }
  destruct Hcase as [(m & -> & Hm) | ->].
  - exists m, e. rewrite shr_fexp_53 by (done || lia).
    cbn [shr_record_of_loc shr_m]. rewrite Hle by lia.
    split; [done |]. split; [done |]. by left.
  - exists 4503599627370496%positive, (e + 1)%Z.
    rewrite shr_fexp_54 by (done || lia).
    cbn [shr_record_of_loc shr_1 shr_m orb]. rewrite Hle by lia.
    split; [done |]. split; [done |]. by right.
Qed.

Lemma round_53 (q : positive) (e : Z) (l : location) :
  Zpos (digits2_pos q) = 53%Z -> (-1074 <= e <= 970)%Z ->
  ∃ m e',
    binary_round_aux 53 1024 false (Zpos q) e l = S754_finite false m e'
    ∧ Zpos (digits2_pos m) = 53%Z
    ∧ (e' = e ∨ (e' = (e + 1)%Z ∧ m = 4503599627370496%positive))
    ∧ (l = loc_Exact -> m = q ∧ e' = e).
Proof.
  intros Hd He. unfold binary_round_aux.
  rewrite shr_fexp_53 by (done || lia).
  rewrite shr_record_of_loc_m, loc_of_shr_record_of_loc.
  destruct (round_tail q e (round_nearest_even (Zpos q) l) Hd He
              (round_nearest_even_cases _ _))
    as (m & e' & Hres & Hm & Hshape).
  exists m, e'. split; [exact Hres |]. split; [done |]. split.
  - destruct Hshape as [[-> _] | (-> & -> & _)]; [by left | by right].
  - intros ->. cbn [round_nearest_even] in Hshape.
    pose proof (digits2_pos_lt q) as Hlt. rewrite Hd in Hlt.
    change (2 ^ 53)%Z with 9007199254740992%Z in Hlt.
    destruct Hshape as [[-> Heq] | (_ & _ & Heq)]; [| lia].
    split; [congruence | done].
Qed.

Lemma round_54 (q : positive) (e : Z) (l : location) :
  Zpos (digits2_pos q) = 54%Z -> (-1075 <= e <= 969)%Z ->
  ∃ m e',
    binary_round_aux 53 1024 false (Zpos q) e l = S754_finite false m e'
    ∧ Zpos (digits2_pos m) = 53%Z
    ∧ (e' = (e + 1)%Z ∨ (e' = (e + 2)%Z ∧ m = 4503599627370496%positive)).
Proof.
  intros Hd He. unfold binary_round_aux.
  rewrite shr_fexp_54 by (done || lia).
  assert (Hhalf : ∃ (p : positive) (r t : bool),
             shr_1 (shr_record_of_loc (Zpos q) l)
             = {| shr_m := Zpos p; shr_r := r; shr_s := t |}
             ∧ Zpos (digits2_pos p) = 53%Z).
  { destruct q as [p | p |]; [| | discriminate];
      cbn [digits2_pos] in Hd; rewrite Pos2Z.inj_succ in Hd;
      destruct l as [| []]; cbn [shr_record_of_loc shr_1];
      eexists _, _, _; (split; [reflexivity | lia]). }
  destruct Hhalf as (p & r & t & -> & Hp).
  cbn [shr_m].
  destruct (round_tail p (e + 1)
              (round_nearest_even (Zpos p)
                 (loc_of_shr_record {| shr_m := Zpos p; shr_r := r; shr_s := t |}))
              Hp ltac:(lia) (round_nearest_even_cases _ _))
    as (m & e' & Hres & Hm & Hshape).
  exists m, e'. split; [exact Hres |]. split; [done |].
  destruct Hshape as [[-> _] | (-> & -> & _)]; [by left | right].
  split; [lia | done].
Qed.

(** *** The conversion of an unsigned integer *)

(** [static_cast<double>] of a positive integer of at most 52 bits is exact:
    the integer, shifted so that its significand has 53 bits. *)
Lemma sf_of_N_pos (p : positive) :
  (Zpos (digits2_pos p) <= 52)%Z ->
  ∃ m, sf_of_N (Npos p) = S754_finite false m (Zpos (digits2_pos p) - 53)
       ∧ Zpos (digits2_pos m) = 53%Z
       ∧ Zpos m = (Zpos p * 2 ^ (53 - Zpos (digits2_pos p)))%Z.
Proof.
  intros Hd. unfold sf_of_N.
  change dprec with 53%Z. change demax with 1024%Z.
  cbn [Z.of_N binary_normalize]. unfold binary_round, shl_align, fexp, emin.
  rewrite Z.add_0_r, Z.max_l, Z.sub_0_r by lia.
  destruct (Zpos (digits2_pos p) - 53)%Z as [| k | k] eqn:Hk; [lia | lia |].
  assert (Hm : Zpos (Pos.iter xO p k) = (Zpos p * 2 ^ (53 - Zpos (digits2_pos p)))%Z).
  { rewrite iter_xO_spec. do 2 f_equal. lia. }
  assert (Hdm : Zpos (digits2_pos (Pos.iter xO p k)) = 53%Z).
  { apply digits2_pos_unique. rewrite iter_xO_spec.
    pose proof (digits2_pos_lt p) as Hlt. pose proof (digits2_pos_ge p) as Hge.
    replace 53%Z with (Zpos (digits2_pos p) + Zpos k)%Z at 2 by lia.
    replace (53 - 1)%Z with (Zpos (digits2_pos p) - 1 + Zpos k)%Z by lia.
    rewrite !Z.pow_add_r by lia.
    assert (0 < 2 ^ Zpos k)%Z by (apply Z.pow_pos_nonneg; lia).
    split; [apply Z.mul_le_mono_nonneg_r | apply Z.mul_lt_mono_pos_r]; lia. }
  destruct (round_53 (Pos.iter xO p k) (Zneg k) loc_Exact Hdm ltac:(lia))
    as (m & e' & Hres & _ & _ & Hexact).
  destruct (Hexact eq_refl) as [-> ->].
  exists (Pos.iter xO p k). by split.
Qed.

(** *** The eight bytes of a double *)

Lemma le_decode_double_of_bits (x : N) :
  x < 2 ^ 64 -> le_decode (double_bytes (double_of_bits x)) = x.
Proof.
  intros Hx.
  assert (Hbytes : double_bytes (double_of_bits x) = le_encode 8 x).
  { unfold double_bytes, double_of_bits. cbn [d0 d1 d2 d3 d4 d5 d6 d7 le_encode].
    rewrite !N.Div0.div_div. reflexivity. }
  rewrite Hbytes. apply le_decode_encode. exact Hx.
Qed.

Lemma double_value_zero : double_value (double_of_sf (S754_zero false)) = S754_zero false.
Proof. vm_compute. reflexivity. Qed.

(** A normal number survives the trip through its bytes. *)
Lemma double_value_normal (m : positive) (e : Z) :
  Zpos (digits2_pos m) = 53%Z -> (-1074 <= e <= 971)%Z ->
  double_value (double_of_sf (S754_finite false m e)) = S754_finite false m e.
Proof.
  intros Hd He.
  pose proof (digits2_pos_lt m) as Hlt. pose proof (digits2_pos_ge m) as Hge.
  rewrite Hd in Hlt, Hge.
  change (2 ^ 53)%Z with 9007199254740992%Z in Hlt.
  change (2 ^ (53 - 1))%Z with 4503599627370496%Z in Hge.
  set (E := Z.to_N (e + 1075)).
  set (f := Npos m - 4503599627370496).
  assert (HE : 1 <= E <= 2046) by (unfold E; lia).
  assert (Hf : f < 4503599627370496) by (unfold f; lia).
  assert (Hbits : bits_of_sf 52 11 (S754_finite false m e)
                  = f + E * 4503599627370496).
  { unfold bits_of_sf, sign_bit, ieee_emin, ieee_emax, ieee_prec.
    change (2 ^ 52) with 4503599627370496.
    assert (Hnorm : (4503599627370496 <=? Npos m) = true) by (apply N.leb_le; lia).
    rewrite Hnorm. fold f.
    replace (e - (3 - 2 ^ (Z.of_N 11 - 1) - (Z.of_N 52 + 1)) + 1)%Z
      with (e + 1075)%Z by (change (2 ^ (Z.of_N 11 - 1))%Z with 1024%Z; lia).
    fold E. lia. }
  unfold double_value, double_of_sf. rewrite Hbits.
  rewrite le_decode_double_of_bits
    by (change (2 ^ 64) with 18446744073709551616; lia).
  unfold sf_of_bits. change (2 ^ 52) with 4503599627370496.
  change (2 ^ 11) with 2048. change (52 + 11) with 63.
  assert (Hmod : (f + E * 4503599627370496) mod 4503599627370496 = f).
  { rewrite N.Div0.mod_add. by apply N.mod_small. }
  assert (Hdiv : (f + E * 4503599627370496) / 4503599627370496 = E).
  { rewrite N.div_add by lia. rewrite N.div_small by done. lia. }
  assert (Hsign : N.testbit (f + E * 4503599627370496) 63 = false).
  { apply N.testbit_false. rewrite N.div_small; [done |].
    change (2 ^ 63) with 9223372036854775808. lia. }
  cbv zeta. rewrite Hmod, Hdiv, Hsign.
  rewrite (N.mod_small E 2048) by lia.
  assert (H0 : (E =? 0) = false) by (apply N.eqb_neq; lia).
  assert (Hmax : (E =? 2048 - 1) = false) by (apply N.eqb_neq; lia).
  rewrite H0, Hmax.
  replace (f + 4503599627370496) with (Npos m) by (unfold f; lia).
  f_equal. unfold ieee_emin, ieee_emax, ieee_prec.
  change (2 ^ (Z.of_N 11 - 1))%Z with 1024%Z. unfold E. lia.
Qed.

(** *** The quotient *)

Lemma SFone_double : SFone dprec demax = S754_finite false 4503599627370496 (-52).
Proof. vm_compute. reflexivity. Qed.

Lemma new_location_0 (m : Z) : new_location m 0 = loc_Exact.
Proof. unfold new_location. by destruct (Z.even m). Qed.

(** The quotient of two normalized positive numbers: [q] is the integer
    quotient of the significands, the first shifted left by 53 bits. *)
Lemma SFdiv_unfold (mi mm : positive) (ei em : Z) :
  Zpos (digits2_pos mi) = 53%Z -> Zpos (digits2_pos mm) = 53%Z ->
  (-1000 <= ei - em <= 1000)%Z ->
  SFdiv 53 1024 (S754_finite false mi ei) (S754_finite false mm em)
  = binary_round_aux 53 1024 false
      (Zpos mi * 2 ^ 53 / Zpos mm) (ei - em - 53)
      (new_location (Zpos mm) ((Zpos mi * 2 ^ 53) mod Zpos mm)).
Proof.
  intros Hdi Hdm He. unfold SFdiv, SFdiv_core_binary. cbn [xorb Zdigits2].
  rewrite Hdi, Hdm. unfold fexp, emin.
  rewrite Z.max_l by lia. rewrite Z.min_l by lia.
  replace (ei - em - (53 + ei - (53 + em) - 53))%Z with 53%Z by lia.
  cbv zeta iota. rewrite Z.shiftl_mul_pow2 by lia.
  unfold Z.div, Z.modulo.
  destruct (Z.div_eucl (Zpos mi * 2 ^ 53) (Zpos mm)) as [q r].
  replace (53 + ei - (53 + em) - 53)%Z with (ei - em - 53)%Z by lia.
  reflexivity.
Qed.

Lemma SFdiv_self (m : positive) (e : Z) :
  Zpos (digits2_pos m) = 53%Z ->
  SFdiv 53 1024 (S754_finite false m e) (S754_finite false m e)
  = S754_finite false 4503599627370496 (-52).
Proof.
  intros Hd. rewrite SFdiv_unfold by (done || lia).
  rewrite Z.mul_comm, Z.div_mul, Z.mod_mul by lia.
  rewrite new_location_0, Z.sub_diag. vm_compute. reflexivity.
Qed.

(** The quotient of a number by one that is not smaller is at most one. *)
Lemma SFdiv_le_one (mi mm : positive) (ei em : Z) :
  Zpos (digits2_pos mi) = 53%Z -> Zpos (digits2_pos mm) = 53%Z ->
  (-100 <= ei <= 0)%Z -> (-100 <= em <= 0)%Z ->
  (ei < em ∨ (ei = em ∧ Zpos mi <= Zpos mm))%Z ->
  ∃ m e,
    SFdiv 53 1024 (S754_finite false mi ei) (S754_finite false mm em)
    = S754_finite false m e
    ∧ Zpos (digits2_pos m) = 53%Z
    ∧ (-200 <= e)%Z
    ∧ (e < -52 ∨ (e = -52 ∧ m = 4503599627370496%positive))%Z.
Proof.
  intros Hdi Hdm Hei Hem Hle.
  destruct (decide (ei = em ∧ mi = mm)) as [[-> ->] | Hne].
  { exists 4503599627370496%positive, (-52)%Z. rewrite SFdiv_self by done.
    split; [done |]. split; [done |]. split; [lia |]. by right. }
  rewrite SFdiv_unfold by (done || lia).
  pose proof (digits2_pos_lt mi) as Hlti. pose proof (digits2_pos_ge mi) as Hgei.
  pose proof (digits2_pos_lt mm) as Hltm. pose proof (digits2_pos_ge mm) as Hgem.
  rewrite Hdi in Hlti, Hgei. rewrite Hdm in Hltm, Hgem.
  change (2 ^ 53)%Z with 9007199254740992%Z in *.
  change (2 ^ (53 - 1))%Z with 4503599627370496%Z in *.
  set (a := (Zpos mi * 9007199254740992)%Z).
  pose proof (Z.div_mod a (Zpos mm) ltac:(lia)) as Hdivmod.
  pose proof (Z.mod_pos_bound a (Zpos mm) ltac:(lia)) as Hr.
  set (q := (a / Zpos mm)%Z) in *. set (r := (a mod Zpos mm)%Z) in *.
  assert (Hqlo : (4503599627370496 <= q)%Z) by (unfold a in *; nia).
  assert (Hqhi : (q < 18014398509481984)%Z) by (unfold a in *; nia).
  assert (Hqsmall : (Zpos mi < Zpos mm -> q < 9007199254740992)%Z)
    by (unfold a in *; nia).
  destruct q as [| qp | qp]; [lia | | lia].
  destruct (Z.lt_ge_cases (Zpos qp) 9007199254740992) as [H53 | H54].
  - assert (Hdq : Zpos (digits2_pos qp) = 53%Z).
    { apply digits2_pos_unique.
      change (2 ^ 53)%Z with 9007199254740992%Z.
      change (2 ^ (53 - 1))%Z with 4503599627370496%Z. lia. }
    destruct (round_53 qp (ei - em - 53) (new_location (Zpos mm) r) Hdq ltac:(lia))
      as (m & e & Hres & Hm & Hshape & _).
    exists m, e. split; [exact Hres |]. split; [done |].
    destruct Hshape as [-> | [-> ->]]; (split; [lia |]).
    + left. lia.
    + destruct (decide (ei = em)) as [-> | Hdiff]; [right | left]; [| lia].
      split; [lia | done].
  - assert (Hdq : Zpos (digits2_pos qp) = 54%Z).
    { apply digits2_pos_unique.
      change (2 ^ 54)%Z with 18014398509481984%Z.
      change (2 ^ (54 - 1))%Z with 9007199254740992%Z. lia. }
    assert (Hlt : (ei < em)%Z).
    { destruct Hle as [Hlt | [-> Hmle]]; [done |].
      assert (Zpos mi < Zpos mm)%Z by (destruct (decide (mi = mm)); [tauto | lia]).
      specialize (Hqsmall ltac:(lia)). lia. }
    destruct (round_54 qp (ei - em - 53) (new_location (Zpos mm) r) Hdq ltac:(lia))
      as (m & e & Hres & Hm & Hshape).
    exists m, e. split; [exact Hres |]. split; [done |].
    destruct Hshape as [-> | [-> ->]]; (split; [lia |]).
    + left. lia.
    + destruct (decide (ei - em - 53 + 2 = -52)%Z) as [Heq | Hdiff]; [right | left].
      * split; [lia | done].
      * lia.
Qed.

(** *** The fractions *)

Lemma u32_sub_1 (num : N) : 1 <= num < 2 ^ 32 -> u32_sub num 1 = num - 1.
Proof.
  intros Hnum. unfold u32_sub, u32_modulus.
  change (2 ^ 32) with 4294967296 in *.
  rewrite (N.mod_small num), (N.mod_small 1) by lia.
  replace (num + (4294967296 - 1)) with (num - 1 + 1 * 4294967296) by lia.
  rewrite N.Div0.mod_add. apply N.mod_small. lia.
Qed.

(** The value of [static_cast<double>(x)] for a positive [uint32_t]. *)
Lemma double_of_N_value (p : positive) :
  (Zpos p < 2 ^ 32)%Z ->
  ∃ m, double_value (double_of_N (Npos p))
       = S754_finite false m (Zpos (digits2_pos p) - 53)
       ∧ Zpos (digits2_pos m) = 53%Z
       ∧ Zpos m = (Zpos p * 2 ^ (53 - Zpos (digits2_pos p)))%Z
       ∧ (Zpos (digits2_pos p) <= 32)%Z.
Proof.
  intros Hp.
  assert (Hd : (Zpos (digits2_pos p) <= 32)%Z).
  { pose proof (digits2_pos_ge p) as Hge.
    assert (Zpos (digits2_pos p) - 1 < 32)%Z; [| lia].
    apply (Z.pow_lt_mono_r_iff 2); lia. }
  destruct (sf_of_N_pos p ltac:(lia)) as (m & Hsf & Hm & Hval).
  exists m. unfold double_of_N. rewrite Hsf.
  rewrite double_value_normal by (done || lia). done.
Qed.

Lemma double_of_N_0 : double_value (double_of_N 0) = S754_zero false.
Proof. vm_compute. reflexivity. Qed.

Lemma in_unit_range_zero : in_unit_range (double_of_sf (S754_zero false)) = true.
Proof. vm_compute. reflexivity. Qed.

Lemma in_unit_range_normal (m : positive) (e : Z) :
  Zpos (digits2_pos m) = 53%Z -> (-200 <= e)%Z ->
  (e < -52 ∨ (e = -52 ∧ m = 4503599627370496%positive))%Z ->
  in_unit_range (double_of_sf (S754_finite false m e)) = true.
Proof.
  intros Hm He Hle. unfold in_unit_range.
  rewrite double_value_normal by (done || lia).
  rewrite SFone_double. unfold SFleb, SFcompare.
  destruct Hle as [Hlt | [-> ->]].
  - apply Z.compare_lt_iff in Hlt. by rewrite Hlt.
  - reflexivity.
Qed.

(** For [2 <= num], the first fraction is [0.0], the last is [1.0], and
    every fraction lies in [0,1]. *)
Lemma evenly_spaced_fraction_first (num : N) :
  2 <= num < 2 ^ 32 -> evenly_spaced_fraction 0 num = double_zero.
Proof.
  intros Hnum. unfold evenly_spaced_fraction.
  rewrite u32_sub_1 by lia.
  destruct (num - 1) as [| p] eqn:Hp; [lia |].
  destruct (double_of_N_value p) as (m & Hv & _).
  { change (2 ^ 32)%Z with 4294967296%Z. change (2 ^ 32) with 4294967296 in Hnum. lia. }
  unfold double_div. rewrite double_of_N_0, Hv. reflexivity.
Qed.

Lemma evenly_spaced_fraction_last (num : N) :
  2 <= num < 2 ^ 32 -> evenly_spaced_fraction (num - 1) num = double_one.
Proof.
  intros Hnum. unfold evenly_spaced_fraction.
  rewrite u32_sub_1 by lia.
  destruct (num - 1) as [| p] eqn:Hp; [lia |].
  destruct (double_of_N_value p) as (m & Hv & Hm & _).
  { change (2 ^ 32)%Z with 4294967296%Z. change (2 ^ 32) with 4294967296 in Hnum. lia. }
  unfold double_div. rewrite Hv.
  change dprec with 53%Z. change demax with 1024%Z.
  rewrite SFdiv_self by done. unfold double_one. by rewrite SFone_double.
Qed.

Lemma evenly_spaced_fraction_in_range (i num : N) :
  2 <= num < 2 ^ 32 -> i < num ->
  in_unit_range (evenly_spaced_fraction i num) = true.
Proof.
  intros Hnum Hi. unfold evenly_spaced_fraction.
  rewrite u32_sub_1 by lia.
  change (2 ^ 32) with 4294967296 in Hnum.
  destruct (num - 1) as [| p] eqn:Hp; [lia |].
  destruct (double_of_N_value p) as (mm & Hvm & Hmm & Hvalm & Hdm).
  { change (2 ^ 32)%Z with 4294967296%Z. lia. }
  unfold double_div. rewrite Hvm.
  change dprec with 53%Z. change demax with 1024%Z.
  destruct i as [| pi].
  { rewrite double_of_N_0. apply in_unit_range_zero. }
  destruct (double_of_N_value pi) as (mi & Hvi & Hmi & Hvali & Hdi).
  { change (2 ^ 32)%Z with 4294967296%Z. lia. }
  rewrite Hvi.
  assert (Hle : (pi <= p)%positive) by lia.
  pose proof (digits2_pos_mono pi p Hle) as Hmono.
  destruct (SFdiv_le_one mi mm (Zpos (digits2_pos pi) - 53) (Zpos (digits2_pos p) - 53))
    as (m & e & Hdiv & Hm & He & Hone); [done | done | lia | lia | |].
  { destruct (decide (digits2_pos pi = digits2_pos p)) as [Heq | Hne].
    - right. split; [by rewrite Heq |].
      rewrite Hvali, Hvalm, Heq.
      apply Z.mul_le_mono_nonneg_r; [apply Z.pow_nonneg |]; lia.
    - left. lia. }
  rewrite Hdiv. by apply in_unit_range_normal.
Qed.

(** ** The properties, for the float and the double functions *)

(** X1.  [new], [new_with_k] and [deserialize] always return, whatever the
    engine does: either the null handle, having changed nothing (exactly when
    the constructor threw), or a handle that is not null and was not live
    before, which now points to the constructed sketch; every handle that was
    live still points to the sketch it pointed to.  For [deserialize] the
    buffer must hold the [size > 0] bytes that are read. *)
Theorem new_handle_is_null_or_fresh :
  (∀ (E : kll_sketch.engine float) (w : world E),
     (∃ h w', KllFloat.kll_float_sketch_new w = Returns (h, w')
              ∧ allocated w kll_sketch.ctor h w')
     ∧ (∀ k, ∃ h w', KllFloat.kll_float_sketch_new_with_k w k = Returns (h, w')
                     ∧ allocated w (kll_sketch.ctor_k k) h w')
     ∧ (∀ buf size, size ≠ 0 -> (N.to_nat size ≤ length buf)%nat ->
          ∃ h w', KllFloat.kll_float_sketch_deserialize w (Some buf) size
                  = Returns (h, w')
                  ∧ allocated w (kll_sketch.deserialize (take (N.to_nat size) buf))
                      h w'))
  ∧ (∀ (E : kll_sketch.engine double) (w : world E),
       (∃ h w', KllDouble.kll_double_sketch_new w = Returns (h, w')
                ∧ allocated w kll_sketch.ctor h w')
       ∧ (∀ k, ∃ h w', KllDouble.kll_double_sketch_new_with_k w k = Returns (h, w')
                       ∧ allocated w (kll_sketch.ctor_k k) h w')
       ∧ (∀ buf size, size ≠ 0 -> (N.to_nat size ≤ length buf)%nat ->
            ∃ h w', KllDouble.kll_double_sketch_deserialize w (Some buf) size
                    = Returns (h, w')
                    ∧ allocated w (kll_sketch.deserialize (take (N.to_nat size) buf))
                        h w')).
Proof.
  split; intros E w.
  - split; [exact (new_allocated w) |].
    split; [exact (new_with_k_allocated w) | exact (deserialize_allocated w)].
  - split; [exact (new_allocated w) |].
    split; [exact (new_with_k_allocated w) | exact (deserialize_allocated w)].
Qed.

Lemma new_handle_is_null_or_fresh_witness :
  ∃ h w', KllFloat.kll_float_sketch_deserialize (filled32 3) (Some demo_bytes32)
            (N.of_nat (length demo_bytes32)) = Returns (h, w')
          ∧ allocated (filled32 3)
              (kll_sketch.deserialize
                 (take (N.to_nat (N.of_nat (length demo_bytes32))) demo_bytes32))
              h w'.
Proof.
  apply (proj1 new_handle_is_null_or_fresh E32 (filled32 3)).
  - vm_compute. discriminate.
  - lia.
Defined.

(** X2.  [delete] of a live handle frees that sketch and nothing else: the
    handle is no longer live, every other handle points to what it pointed
    to.  The handle itself is not reset, and the null check is the only check:
    a second [delete] on it, or any other call on it, is undefined
    behaviour. *)
Theorem delete_frees_only_its_handle :
  (∀ (E : kll_sketch.engine float) (w : world E) (h : handle)
     (s : kll_sketch.sketch),
      is_null h = false -> deref w h = Some s ->
      ∃ w', KllFloat.kll_float_sketch_delete w h = Returns w'
            ∧ deref w' h = None
            ∧ (∀ p, p ≠ h -> deref w' p = deref w p)
            ∧ gen w' = gen w
            ∧ KllFloat.kll_float_sketch_delete w' h = Undefined
            ∧ (∀ v, KllFloat.kll_float_sketch_update w' h v = Undefined)
            ∧ KllFloat.kll_float_sketch_is_empty w' h = Undefined
            ∧ KllFloat.kll_float_sketch_get_n w' h = Undefined
            ∧ (∀ f, KllFloat.kll_float_sketch_get_quantile w' h f = Undefined)
            ∧ (∀ v, KllFloat.kll_float_sketch_get_rank w' h v = Undefined)
            ∧ (∀ n, KllFloat.kll_float_sketch_serialize w' h (Some n) = Undefined))
  ∧ (∀ (E : kll_sketch.engine double) (w : world E) (h : handle)
       (s : kll_sketch.sketch),
      is_null h = false -> deref w h = Some s ->
      ∃ w', KllDouble.kll_double_sketch_delete w h = Returns w'
            ∧ deref w' h = None
            ∧ (∀ p, p ≠ h -> deref w' p = deref w p)
            ∧ gen w' = gen w
            ∧ KllDouble.kll_double_sketch_delete w' h = Undefined
            ∧ (∀ v, KllDouble.kll_double_sketch_update w' h v = Undefined)
            ∧ KllDouble.kll_double_sketch_is_empty w' h = Undefined
            ∧ KllDouble.kll_double_sketch_get_n w' h = Undefined
            ∧ (∀ f, KllDouble.kll_double_sketch_get_quantile w' h f = Undefined)
            ∧ (∀ v, KllDouble.kll_double_sketch_get_rank w' h v = Undefined)
            ∧ (∀ n, KllDouble.kll_double_sketch_serialize w' h (Some n) = Undefined)).
Proof.
  split; intros E w h s Hn Hs.
  - destruct (delete_frees w h s Hn Hs) as (w' & Hdel & Hgone & Hframe & Hgen).
    destruct (dangling_handle w' h Hn Hgone)
      as (H1 & H2 & _ & H4 & _ & H6 & _ & _ & _ & _ & H11 & H12 & H13 & _).
    exists w'. repeat (split; [assumption |]). assumption.
  - destruct (delete_frees w h s Hn Hs) as (w' & Hdel & Hgone & Hframe & Hgen).
    destruct (dangling_handle w' h Hn Hgone)
      as (H1 & H2 & _ & H4 & _ & H6 & _ & _ & _ & _ & H11 & H12 & H13 & _).
    exists w'. repeat (split; [assumption |]). assumption.
Qed.

Lemma delete_frees_only_its_handle_witness :
  ∃ w', KllFloat.kll_float_sketch_delete (filled32 3) 1 = Returns w'
        ∧ deref w' 1 = None
        ∧ KllFloat.kll_float_sketch_delete w' 1 = Undefined
        ∧ KllFloat.kll_float_sketch_get_n w' 1 = Undefined.
Proof.
  destruct (proj1 delete_frees_only_its_handle E32 (filled32 3) 1 demo_sketch32)
    as (w' & Hdel & Hgone & _ & _ & Hagain & _ & _ & Hn & _).
  - reflexivity.
  - vm_compute. reflexivity.
  - exists w'. split; [exact Hdel |]. split; [exact Hgone |].
    split; [exact Hagain | exact Hn].
Defined.

(** X3.  [delete] of the handle that [new], [new_with_k] or [deserialize]
    has just returned gives back the world as it was before the allocation,
    also when the handle is null because the constructor threw. *)
Theorem delete_undoes_allocation :
  (∀ (E : kll_sketch.engine float) (w : world E),
     (∃ h w', KllFloat.kll_float_sketch_new w = Returns (h, w')
              ∧ KllFloat.kll_float_sketch_delete w' h = Returns w)
     ∧ (∀ k, ∃ h w', KllFloat.kll_float_sketch_new_with_k w k = Returns (h, w')
                     ∧ KllFloat.kll_float_sketch_delete w' h = Returns w)
     ∧ (∀ buf size, (N.to_nat size ≤ length buf)%nat ->
          ∃ h w', KllFloat.kll_float_sketch_deserialize w (Some buf) size
                  = Returns (h, w')
                  ∧ KllFloat.kll_float_sketch_delete w' h = Returns w))
  ∧ (∀ (E : kll_sketch.engine double) (w : world E),
       (∃ h w', KllDouble.kll_double_sketch_new w = Returns (h, w')
                ∧ KllDouble.kll_double_sketch_delete w' h = Returns w)
       ∧ (∀ k, ∃ h w', KllDouble.kll_double_sketch_new_with_k w k = Returns (h, w')
                       ∧ KllDouble.kll_double_sketch_delete w' h = Returns w)
       ∧ (∀ buf size, (N.to_nat size ≤ length buf)%nat ->
            ∃ h w', KllDouble.kll_double_sketch_deserialize w (Some buf) size
                    = Returns (h, w')
                    ∧ KllDouble.kll_double_sketch_delete w' h = Returns w)).
Proof.
  split; intros E w.
  - split; [exact (delete_after w kll_sketch.ctor) |].
    split; [intros k; exact (delete_after w (kll_sketch.ctor_k k)) |].
    exact (delete_after_deserialize w).
  - split; [exact (delete_after w kll_sketch.ctor) |].
    split; [intros k; exact (delete_after w (kll_sketch.ctor_k k)) |].
    exact (delete_after_deserialize w).
Qed.

Lemma delete_undoes_allocation_witness :
  ∃ h w', KllFloat.kll_float_sketch_deserialize (filled32 3) (Some demo_bytes32)
            (N.of_nat (length demo_bytes32)) = Returns (h, w')
          ∧ KllFloat.kll_float_sketch_delete w' h = Returns (filled32 3).
Proof.
  apply (proj1 delete_undoes_allocation E32 (filled32 3)). lia.
Defined.

(** X4.  [update] on a live handle replaces the sketch behind that handle by
    the engine's updated sketch and advances the random-bit source; no other
    handle is touched, none is added or freed. *)
Theorem update_changes_only_its_sketch :
  (∀ (E : kll_sketch.engine float) (w : world E) (h : handle)
     (s s' : kll_sketch.sketch) (v : float) (g' : kll_sketch.rng),
      is_null h = false -> deref w h = Some s ->
      kll_sketch.update s v (gen w) = Ok (s', g') ->
      ∃ w', KllFloat.kll_float_sketch_update w h v = Returns w'
            ∧ deref w' h = Some s'
            ∧ gen w' = g'
            ∧ (∀ p, p ≠ h -> deref w' p = deref w p))
  ∧ (∀ (E : kll_sketch.engine double) (w : world E) (h : handle)
       (s s' : kll_sketch.sketch) (v : double) (g' : kll_sketch.rng),
      is_null h = false -> deref w h = Some s ->
      kll_sketch.update s v (gen w) = Ok (s', g') ->
      ∃ w', KllDouble.kll_double_sketch_update w h v = Returns w'
            ∧ deref w' h = Some s'
            ∧ gen w' = g'
            ∧ (∀ p, p ≠ h -> deref w' p = deref w p)).
Proof.
  split; intros E w h s s' v g'.
  - exact (update_frame w h s s' v g').
  - exact (update_frame w h s s' v g').
Qed.

Lemma update_changes_only_its_sketch_witness :
  ∃ w', KllFloat.kll_float_sketch_update pair32 1 (float_of_Z 4) = Returns w'
        ∧ deref w' 2 = deref pair32 2.
Proof.
  destruct (@kll_sketch.update float E32 demo_sketch32 (float_of_Z 4) (gen pair32))
    as [[s' g'] | e] eqn:Hu; [| vm_compute in Hu; discriminate].
  destruct (proj1 update_changes_only_its_sketch E32 pair32 1 demo_sketch32 s'
              (float_of_Z 4) g') as (w' & Hcall & _ & _ & Hframe).
  - reflexivity.
  - vm_compute. reflexivity.
  - exact Hu.
  - exists w'. split; [exact Hcall |]. apply Hframe. discriminate.
Defined.

(** X5.  [merge] of two different live handles replaces the sketch behind
    the first by the engine's merged sketch; the sketch behind [other] and
    every other handle are as before.  There is no [try] block: what the
    engine's [merge] throws leaves the function. *)
Theorem merge_changes_only_the_target :
  (∀ (E : kll_sketch.engine float) (w : world E) (h o : handle)
     (s t : kll_sketch.sketch),
      is_null h = false -> is_null o = false -> h ≠ o ->
      deref w h = Some s -> deref w o = Some t ->
      (∀ s' g', kll_sketch.merge s t (gen w) = Ok (s', g') ->
         ∃ w', KllFloat.kll_float_sketch_merge w h o = Returns w'
               ∧ deref w' h = Some s'
               ∧ deref w' o = Some t
               ∧ gen w' = g'
               ∧ (∀ p, p ≠ h -> deref w' p = deref w p))
      ∧ (∀ e, kll_sketch.merge s t (gen w) = Throw e ->
              KllFloat.kll_float_sketch_merge w h o = Escapes e))
  ∧ (∀ (E : kll_sketch.engine double) (w : world E) (h o : handle)
       (s t : kll_sketch.sketch),
      is_null h = false -> is_null o = false -> h ≠ o ->
      deref w h = Some s -> deref w o = Some t ->
      (∀ s' g', kll_sketch.merge s t (gen w) = Ok (s', g') ->
         ∃ w', KllDouble.kll_double_sketch_merge w h o = Returns w'
               ∧ deref w' h = Some s'
               ∧ deref w' o = Some t
               ∧ gen w' = g'
               ∧ (∀ p, p ≠ h -> deref w' p = deref w p))
      ∧ (∀ e, kll_sketch.merge s t (gen w) = Throw e ->
              KllDouble.kll_double_sketch_merge w h o = Escapes e)).
Proof.
  split; intros E w h o s t Hn Ho Hne Hs Ht.
  - split.
    + intros s' g'. exact (merge_frame w h o s t s' g' Hn Ho Hne Hs Ht).
    + intros e. exact (merge_escapes w h o s t e Hn Ho Hs Ht).
  - split.
    + intros s' g'. exact (merge_frame w h o s t s' g' Hn Ho Hne Hs Ht).
    + intros e. exact (merge_escapes w h o s t e Hn Ho Hs Ht).
Qed.

Lemma merge_changes_only_the_target_witness :
  ∃ w', KllFloat.kll_float_sketch_merge pair32 2 1 = Returns w'
        ∧ deref w' 1 = Some demo_sketch32.
Proof.
  destruct (proj1 merge_changes_only_the_target E32 pair32 2 1
              (Kll.new_sketch Kll.DEFAULT_K) demo_sketch32) as [Hok _].
  - reflexivity.
  - reflexivity.
  - discriminate.
  - vm_compute. reflexivity.
  - vm_compute. reflexivity.
  - destruct (@kll_sketch.merge float E32 (Kll.new_sketch Kll.DEFAULT_K)
                demo_sketch32 (gen pair32))
      as [[s' g'] | e] eqn:Hm; [| vm_compute in Hm; discriminate].
    destruct (Hok s' g' eq_refl) as (w' & Hcall & _ & Hother & _).
    exists w'. split; [exact Hcall | exact Hother].
Defined.

(** X6.  [serialize] never lets an exception through.  Whenever it returns
    a buffer, [*size] holds the length of that buffer and the bytes are the
    engine's serialization of the sketch behind the handle; with a null
    [size] pointer it returns null without looking at the handle; and when the
    engine throws it returns null and leaves [*size] as it was. *)
Theorem serialize_reports_the_buffer_length :
  (∀ (E : kll_sketch.engine float) (w : world E) (h : handle) (size : option N),
     (∀ bytes size',
        KllFloat.kll_float_sketch_serialize w h size = Returns (Some bytes, size') ->
        size' = Some (N.of_nat (length bytes))
        ∧ size ≠ None ∧ is_null h = false
        ∧ ∃ s, deref w h = Some s ∧ kll_sketch.serialize s = Ok bytes)
     ∧ KllFloat.kll_float_sketch_serialize w h None = Returns (None, None)
     ∧ (∀ s e, is_null h = false -> deref w h = Some s ->
               kll_sketch.serialize s = Throw e ->
               KllFloat.kll_float_sketch_serialize w h size = Returns (None, size)))
  ∧ (∀ (E : kll_sketch.engine double) (w : world E) (h : handle) (size : option N),
       (∀ bytes size',
          KllDouble.kll_double_sketch_serialize w h size = Returns (Some bytes, size') ->
          size' = Some (N.of_nat (length bytes))
          ∧ size ≠ None ∧ is_null h = false
          ∧ ∃ s, deref w h = Some s ∧ kll_sketch.serialize s = Ok bytes)
       ∧ KllDouble.kll_double_sketch_serialize w h None = Returns (None, None)
       ∧ (∀ s e, is_null h = false -> deref w h = Some s ->
                 kll_sketch.serialize s = Throw e ->
                 KllDouble.kll_double_sketch_serialize w h size
                 = Returns (None, size))).
Proof.
  split; intros E w h size.
  - exact (serialize_contract w h size).
  - exact (serialize_contract w h size).
Qed.

Lemma serialize_reports_the_buffer_length_witness :
  ∃ s, deref (filled32 3) 1 = Some s
       ∧ @kll_sketch.serialize float E32 s = Ok demo_bytes32.
Proof.
  destruct (proj1 (proj1 serialize_reports_the_buffer_length E32 (filled32 3) 1
                     (Some 0))
              demo_bytes32 (Some (N.of_nat (length demo_bytes32))))
    as (_ & _ & _ & Hs).
  - vm_compute. reflexivity.
  - exact Hs.
Defined.



(** X8.  The six functions whose body is a [try] block with [catch (...)]
    never let an exception leave, for any engine, world and arguments: [new],
    [new_with_k], [serialize], [deserialize], [get_quantiles] and
    [get_quantiles_evenly_spaced]. *)
Theorem try_blocks_catch_everything :
  (∀ (E : kll_sketch.engine float) (w : world E) (h : handle) (e : exn),
     KllFloat.kll_float_sketch_new w ≠ Escapes e
     ∧ (∀ k, KllFloat.kll_float_sketch_new_with_k w k ≠ Escapes e)
     ∧ (∀ size, KllFloat.kll_float_sketch_serialize w h size ≠ Escapes e)
     ∧ (∀ data size, KllFloat.kll_float_sketch_deserialize w data size ≠ Escapes e)
     ∧ (∀ fs num rs, KllFloat.kll_float_sketch_get_quantiles w h fs num rs
                     ≠ Escapes e)
     ∧ (∀ num rs, KllFloat.kll_float_sketch_get_quantiles_evenly_spaced w h num rs
                  ≠ Escapes e))
  ∧ (∀ (E : kll_sketch.engine double) (w : world E) (h : handle) (e : exn),
       KllDouble.kll_double_sketch_new w ≠ Escapes e
       ∧ (∀ k, KllDouble.kll_double_sketch_new_with_k w k ≠ Escapes e)
       ∧ (∀ size, KllDouble.kll_double_sketch_serialize w h size ≠ Escapes e)
       ∧ (∀ data size, KllDouble.kll_double_sketch_deserialize w data size
                       ≠ Escapes e)
       ∧ (∀ fs num rs, KllDouble.kll_double_sketch_get_quantiles w h fs num rs
                       ≠ Escapes e)
       ∧ (∀ num rs, KllDouble.kll_double_sketch_get_quantiles_evenly_spaced w h num rs
                    ≠ Escapes e)).
Proof.
  split; intros E w h e.
  - exact (try_blocks_hold w h e).
  - exact (try_blocks_hold w h e).
Qed.

(** X9.  [update], [get_min_value], [get_max_value], [get_quantile] and
    [get_rank] have no [try] block: an exception leaves them exactly when the
    handle is not null, points to a live sketch, and the engine's member
    function throws that exception on it. *)
Theorem unguarded_calls_let_exceptions_through :
  (∀ (E : kll_sketch.engine float) (w : world E) (h : handle) (e : exn),
     (∀ v, KllFloat.kll_float_sketch_update w h v = Escapes e
           ↔ is_null h = false
             ∧ ∃ s, deref w h = Some s ∧ kll_sketch.update s v (gen w) = Throw e)
     ∧ (KllFloat.kll_float_sketch_get_min_value w h = Escapes e
        ↔ is_null h = false
          ∧ ∃ s, deref w h = Some s ∧ kll_sketch.get_min_item s = Throw e)
     ∧ (KllFloat.kll_float_sketch_get_max_value w h = Escapes e
        ↔ is_null h = false
          ∧ ∃ s, deref w h = Some s ∧ kll_sketch.get_max_item s = Throw e)
     ∧ (∀ f, KllFloat.kll_float_sketch_get_quantile w h f = Escapes e
             ↔ is_null h = false
               ∧ ∃ s, deref w h = Some s ∧ kll_sketch.get_quantile s f = Throw e)
     ∧ (∀ v, KllFloat.kll_float_sketch_get_rank w h v = Escapes e
             ↔ is_null h = false
               ∧ ∃ s, deref w h = Some s ∧ kll_sketch.get_rank s v = Throw e))
  ∧ (∀ (E : kll_sketch.engine double) (w : world E) (h : handle) (e : exn),
       (∀ v, KllDouble.kll_double_sketch_update w h v = Escapes e
             ↔ is_null h = false
               ∧ ∃ s, deref w h = Some s ∧ kll_sketch.update s v (gen w) = Throw e)
       ∧ (KllDouble.kll_double_sketch_get_min_value w h = Escapes e
          ↔ is_null h = false
            ∧ ∃ s, deref w h = Some s ∧ kll_sketch.get_min_item s = Throw e)
       ∧ (KllDouble.kll_double_sketch_get_max_value w h = Escapes e
          ↔ is_null h = false
            ∧ ∃ s, deref w h = Some s ∧ kll_sketch.get_max_item s = Throw e)
       ∧ (∀ f, KllDouble.kll_double_sketch_get_quantile w h f = Escapes e
               ↔ is_null h = false
                 ∧ ∃ s, deref w h = Some s ∧ kll_sketch.get_quantile s f = Throw e)
       ∧ (∀ v, KllDouble.kll_double_sketch_get_rank w h v = Escapes e
               ↔ is_null h = false
                 ∧ ∃ s, deref w h = Some s ∧ kll_sketch.get_rank s v = Throw e)).
Proof.
  split; intros E w h e.
  - exact (no_try_block w h e).
  - exact (no_try_block w h e).
Qed.



(** X11.  On a live handle, with a fractions array and a results array of at
    least [num_fractions] cells, [get_quantiles] returns, whatever the engine
    answers: the results array keeps its length, the cells from
    [num_fractions] on are untouched, and every cell before that is either as
    the caller left it or holds the quantile of the fraction with the same
    index. *)
Theorem get_quantiles_stays_in_bounds :
  (∀ (E : kll_sketch.engine float) (w : world E) (h : handle)
     (s : kll_sketch.sketch) (fs : list double) (num : N) (rs : list float),
      is_null h = false -> deref w h = Some s ->
      (N.to_nat num ≤ length fs)%nat -> (N.to_nat num ≤ length rs)%nat ->
      ∃ rs', KllFloat.kll_float_sketch_get_quantiles w h (Some fs) num (Some rs)
             = Returns (Some rs')
             ∧ length rs' = length rs
             ∧ (∀ i, (N.to_nat num ≤ i)%nat -> rs' !! i = rs !! i)
             ∧ (∀ i, (i < N.to_nat num)%nat ->
                     rs' !! i = rs !! i
                     ∨ ∃ f q, fs !! i = Some f
                              ∧ kll_sketch.get_quantile s f = Ok q
                              ∧ rs' !! i = Some q))
  ∧ (∀ (E : kll_sketch.engine double) (w : world E) (h : handle)
       (s : kll_sketch.sketch) (fs : list double) (num : N) (rs : list double),
      is_null h = false -> deref w h = Some s ->
      (N.to_nat num ≤ length fs)%nat -> (N.to_nat num ≤ length rs)%nat ->
      ∃ rs', KllDouble.kll_double_sketch_get_quantiles w h (Some fs) num (Some rs)
             = Returns (Some rs')
             ∧ length rs' = length rs
             ∧ (∀ i, (N.to_nat num ≤ i)%nat -> rs' !! i = rs !! i)
             ∧ (∀ i, (i < N.to_nat num)%nat ->
                     rs' !! i = rs !! i
                     ∨ ∃ f q, fs !! i = Some f
                              ∧ kll_sketch.get_quantile s f = Ok q
                              ∧ rs' !! i = Some q)).
Proof.
  split; intros E w h s fs num rs.
  - exact (get_quantiles_memory w h s fs num rs).
  - exact (get_quantiles_memory w h s fs num rs).
Qed.

Lemma get_quantiles_stays_in_bounds_witness :
  ∃ rs', KllFloat.kll_float_sketch_get_quantiles (filled32 3) 1
           (Some mixed_fractions) 3 (Some (replicate 4 float_zero))
         = Returns (Some rs')
         ∧ length rs' = 4%nat
         ∧ rs' !! 3%nat = Some float_zero.
Proof.
  destruct (proj1 get_quantiles_stays_in_bounds E32 (filled32 3) 1 demo_sketch32
              mixed_fractions 3 (replicate 4 float_zero))
    as (rs' & Hcall & Hlen & Htail & _).
  - reflexivity.
  - vm_compute. reflexivity.
  - simpl. lia.
  - simpl. lia.
  - exists rs'. split; [exact Hcall |]. split; [exact Hlen |].
    exact (Htail 3%nat ltac:(simpl; lia)).
Defined.

(** X12.  The same for [get_quantiles_evenly_spaced] with a results array
    of at least [num] cells: the call returns, the array keeps its length, the
    cells from [num] on are untouched, and cell [i < num] is either as the
    caller left it or holds the quantile of [i / (num - 1)]. *)
Theorem evenly_spaced_stays_in_bounds :
  (∀ (E : kll_sketch.engine float) (w : world E) (h : handle)
     (s : kll_sketch.sketch) (num : N) (rs : list float),
      is_null h = false -> deref w h = Some s ->
      (N.to_nat num ≤ length rs)%nat ->
      ∃ rs', KllFloat.kll_float_sketch_get_quantiles_evenly_spaced w h num (Some rs)
             = Returns (Some rs')
             ∧ length rs' = length rs
             ∧ (∀ i, (N.to_nat num ≤ i)%nat -> rs' !! i = rs !! i)
             ∧ (∀ i, (i < N.to_nat num)%nat ->
                     rs' !! i = rs !! i
                     ∨ ∃ q, kll_sketch.get_quantile s
                              (KllFloat.fraction_of (N.of_nat i) num) = Ok q
                            ∧ rs' !! i = Some q))
  ∧ (∀ (E : kll_sketch.engine double) (w : world E) (h : handle)
       (s : kll_sketch.sketch) (num : N) (rs : list double),
      is_null h = false -> deref w h = Some s ->
      (N.to_nat num ≤ length rs)%nat ->
      ∃ rs', KllDouble.kll_double_sketch_get_quantiles_evenly_spaced w h num (Some rs)
             = Returns (Some rs')
             ∧ length rs' = length rs
             ∧ (∀ i, (N.to_nat num ≤ i)%nat -> rs' !! i = rs !! i)
             ∧ (∀ i, (i < N.to_nat num)%nat ->
                     rs' !! i = rs !! i
                     ∨ ∃ q, kll_sketch.get_quantile s
                              (KllDouble.fraction_of (N.of_nat i) num) = Ok q
                            ∧ rs' !! i = Some q)).
Proof.
  split; intros E w h s num rs.
  - exact (evenly_spaced_memory w h s num rs).
  - exact (evenly_spaced_memory w h s num rs).
Qed.

Lemma evenly_spaced_stays_in_bounds_witness :
  ∃ rs', KllFloat.kll_float_sketch_get_quantiles_evenly_spaced (filled32 3) 1 3
           (Some (replicate 4 float_zero))
         = Returns (Some rs')
         ∧ length rs' = 4%nat
         ∧ rs' !! 3%nat = Some float_zero.
Proof.
  destruct (proj1 evenly_spaced_stays_in_bounds E32 (filled32 3) 1 demo_sketch32
              3 (replicate 4 float_zero))
    as (rs' & Hcall & Hlen & Htail & _).
  - reflexivity.
  - vm_compute. reflexivity.
  - simpl. lia.
  - exists rs'. split; [exact Hcall |]. split; [exact Hlen |].
    exact (Htail 3%nat ltac:(simpl; lia)).
Defined.

(** X13.  Neither batch query can check the length of an array.  When the
    results array has fewer than [num] cells and the queries succeed up to
    its end, the next write is past the end of the array; when the fractions
    array has fewer than [num_fractions] cells (and the results array is not
    shorter) and the queries succeed, the next read is past its end.  The
    [try] block does not help: this is undefined behaviour, not an
    exception. *)
Theorem short_arrays_are_overrun :
  (∀ (E : kll_sketch.engine float) (w : world E) (h : handle)
     (s : kll_sketch.sketch) (fs : list double) (num : N) (rs : list float),
      is_null h = false -> deref w h = Some s ->
      ((length rs < N.to_nat num)%nat ->
       (∀ i, (i ≤ length rs)%nat ->
             ∃ f q, fs !! i = Some f ∧ kll_sketch.get_quantile s f = Ok q) ->
       KllFloat.kll_float_sketch_get_quantiles w h (Some fs) num (Some rs)
       = Undefined)
      ∧ ((length fs < N.to_nat num)%nat -> (length fs ≤ length rs)%nat ->
         (∀ i f, fs !! i = Some f -> ∃ q, kll_sketch.get_quantile s f = Ok q) ->
         KllFloat.kll_float_sketch_get_quantiles w h (Some fs) num (Some rs)
         = Undefined)
      ∧ ((length rs < N.to_nat num)%nat ->
         (∀ i, (i ≤ length rs)%nat ->
               ∃ q, kll_sketch.get_quantile s
                      (KllFloat.fraction_of (N.of_nat i) num) = Ok q) ->
         KllFloat.kll_float_sketch_get_quantiles_evenly_spaced w h num (Some rs)
         = Undefined))
  ∧ (∀ (E : kll_sketch.engine double) (w : world E) (h : handle)
       (s : kll_sketch.sketch) (fs : list double) (num : N) (rs : list double),
      is_null h = false -> deref w h = Some s ->
      ((length rs < N.to_nat num)%nat ->
       (∀ i, (i ≤ length rs)%nat ->
             ∃ f q, fs !! i = Some f ∧ kll_sketch.get_quantile s f = Ok q) ->
       KllDouble.kll_double_sketch_get_quantiles w h (Some fs) num (Some rs)
       = Undefined)
      ∧ ((length fs < N.to_nat num)%nat -> (length fs ≤ length rs)%nat ->
         (∀ i f, fs !! i = Some f -> ∃ q, kll_sketch.get_quantile s f = Ok q) ->
         KllDouble.kll_double_sketch_get_quantiles w h (Some fs) num (Some rs)
         = Undefined)
      ∧ ((length rs < N.to_nat num)%nat ->
         (∀ i, (i ≤ length rs)%nat ->
               ∃ q, kll_sketch.get_quantile s
                      (KllDouble.fraction_of (N.of_nat i) num) = Ok q) ->
         KllDouble.kll_double_sketch_get_quantiles_evenly_spaced w h num (Some rs)
         = Undefined)).
Proof.
  split; intros E w h s fs num rs Hn Hs.
  - split; [exact (get_quantiles_overrun_results w h s fs num rs Hn Hs) |].
    split; [exact (get_quantiles_overrun_fractions w h s fs num rs Hn Hs) |].
    exact (evenly_spaced_overrun w h s num rs Hn Hs).
  - split; [exact (get_quantiles_overrun_results w h s fs num rs Hn Hs) |].
    split; [exact (get_quantiles_overrun_fractions w h s fs num rs Hn Hs) |].
    exact (evenly_spaced_overrun w h s num rs Hn Hs).
Qed.

Lemma short_arrays_are_overrun_witness :
  KllFloat.kll_float_sketch_get_quantiles (filled32 3) 1 (Some unit_fractions) 3
    (Some [float_zero]) = Undefined
  ∧ KllFloat.kll_float_sketch_get_quantiles (filled32 3) 1 (Some [one_half]) 2
      (Some [float_zero; float_zero]) = Undefined.
Proof.
  destruct (proj1 short_arrays_are_overrun E32 (filled32 3) 1 demo_sketch32)
    with (fs := unit_fractions) (num := 3) (rs := [float_zero])
    as (Hresults & _ & _); [reflexivity | vm_compute; reflexivity |].
  destruct (proj1 short_arrays_are_overrun E32 (filled32 3) 1 demo_sketch32)
    with (fs := [one_half]) (num := 2) (rs := [float_zero; float_zero])
    as (_ & Hfractions & _); [reflexivity | vm_compute; reflexivity |].
  split.
  - apply Hresults; [simpl; lia |].
    intros [| [| i]] Hi; [| | simpl in Hi; lia].
    + exists one_half, (float_of_Z 2).
      split; [reflexivity | vm_compute; reflexivity].
    + exists one_quarter, (float_of_Z 1).
      split; [reflexivity | vm_compute; reflexivity].
  - apply Hfractions; [simpl; lia | simpl; lia |].
    intros [| i] f Hf; [| discriminate].
    inversion Hf. subst f. exists (float_of_Z 2). vm_compute. reflexivity.
Defined.

(** X14.  [get_quantiles_evenly_spaced] is [get_quantiles] called on the
    array of the [num] fractions [i / (num - 1)]: the two calls have the same
    outcome, for every handle, [num] and results array. *)
Theorem evenly_spaced_is_get_quantiles :
  (∀ (E : kll_sketch.engine float) (w : world E) (h : handle) (num : N)
     (rs : array float),
      KllFloat.kll_float_sketch_get_quantiles_evenly_spaced w h num rs
      = KllFloat.kll_float_sketch_get_quantiles w h
          (Some (map (fun i => KllFloat.fraction_of (N.of_nat i) num)
                   (seq 0 (N.to_nat num))))
          num rs)
  ∧ (∀ (E : kll_sketch.engine double) (w : world E) (h : handle) (num : N)
       (rs : array double),
      KllDouble.kll_double_sketch_get_quantiles_evenly_spaced w h num rs
      = KllDouble.kll_double_sketch_get_quantiles w h
          (Some (map (fun i => KllDouble.fraction_of (N.of_nat i) num)
                   (seq 0 (N.to_nat num))))
          num rs).
Proof.
  split; intros E w h num rs.
  - exact (evenly_spaced_as_get_quantiles w h num rs).
  - exact (evenly_spaced_as_get_quantiles w h num rs).
Qed.

(** X15.  [get_quantiles] called again on the results array it has left,
    with the same handle and fractions, leaves the same array: the queries
    change nothing in the sketch, and an exception stops the second call where
    it stopped the first. *)
Theorem get_quantiles_is_idempotent :
  (∀ (E : kll_sketch.engine float) (w : world E) (h : handle)
     (fs : array double) (num : N) (rs rs' : array float),
      KllFloat.kll_float_sketch_get_quantiles w h fs num rs = Returns rs' ->
      KllFloat.kll_float_sketch_get_quantiles w h fs num rs' = Returns rs')
  ∧ (∀ (E : kll_sketch.engine double) (w : world E) (h : handle)
       (fs : array double) (num : N) (rs rs' : array double),
      KllDouble.kll_double_sketch_get_quantiles w h fs num rs = Returns rs' ->
      KllDouble.kll_double_sketch_get_quantiles w h fs num rs' = Returns rs').
Proof.
  split; intros E w h fs num rs rs'.
  - exact (get_quantiles_again w h fs num rs rs').
  - exact (get_quantiles_again w h fs num rs rs').
Qed.

Lemma get_quantiles_is_idempotent_witness :
  KllFloat.kll_float_sketch_get_quantiles (filled32 3) 1 (Some mixed_fractions) 3
    (Some [float_of_Z 2; float_zero; float_zero])
  = Returns (Some [float_of_Z 2; float_zero; float_zero]).
Proof.
  apply (proj1 get_quantiles_is_idempotent E32 (filled32 3) 1
           (Some mixed_fractions) 3 (Some (replicate 3 float_zero))).
  vm_compute. reflexivity.
Defined.

Section EvenlySpacedRange.
Context {T : Type} {I : Item T} {E : kll_sketch.engine T}.

Lemma evenly_spaced_ends (w : world E) (h : handle) (s : kll_sketch.sketch)
  (num : N) (rs : list T) :
  is_null h = false -> deref w h = Some s ->
  2 <= num < 2 ^ 32 -> (N.to_nat num ≤ length rs)%nat ->
  (∀ i, (i < N.to_nat num)%nat ->
        ∃ q, kll_sketch.get_quantile s (evenly_spaced_fraction (N.of_nat i) num)
             = Ok q) ->
  ∃ rs' q0 q1,
    kll_sketch_get_quantiles_evenly_spaced w h num (Some rs) = Returns (Some rs')
    ∧ kll_sketch.get_quantile s double_zero = Ok q0
    ∧ rs' !! 0%nat = Some q0
    ∧ kll_sketch.get_quantile s double_one = Ok q1
    ∧ rs' !! (N.to_nat num - 1)%nat = Some q1.
Proof.
  intros Hn Hs Hnum Hlen Hok.
  destruct (evenly_spaced_completes w h s num rs Hn Hs ltac:(lia) Hlen Hok)
    as (rs' & Hcall & _ & Hin & _).
  destruct (Hok 0%nat ltac:(lia)) as [q0 Hq0].
  destruct (Hok (N.to_nat num - 1)%nat ltac:(lia)) as [q1 Hq1].
  exists rs', q0, q1.
  pose proof (Hin 0%nat q0 ltac:(lia) Hq0) as H0.
  pose proof (Hin (N.to_nat num - 1)%nat q1 ltac:(lia) Hq1) as H1.
  change (N.of_nat 0) with 0 in Hq0.
  rewrite evenly_spaced_fraction_first in Hq0 by done.
  replace (N.of_nat (N.to_nat num - 1)) with (num - 1) in Hq1 by lia.
  rewrite evenly_spaced_fraction_last in Hq1 by done.
  done.
Qed.

Lemma evenly_spaced_fills (w : world E) (h : handle) (s : kll_sketch.sketch)
  (num : N) (rs : list T) :
  is_null h = false -> deref w h = Some s ->
  2 <= num < 2 ^ 32 -> (N.to_nat num ≤ length rs)%nat ->
  (∀ f, in_unit_range f = true -> ∃ q, kll_sketch.get_quantile s f = Ok q) ->
  ∃ rs',
    kll_sketch_get_quantiles_evenly_spaced w h num (Some rs) = Returns (Some rs')
    ∧ length rs' = length rs
    ∧ (∀ i, (i < N.to_nat num)%nat ->
            ∃ q, kll_sketch.get_quantile s (evenly_spaced_fraction (N.of_nat i) num)
                 = Ok q
                 ∧ rs' !! i = Some q)
    ∧ (∀ i, (N.to_nat num ≤ i)%nat -> rs' !! i = rs !! i).
Proof.
  intros Hn Hs Hnum Hlen Hans.
  assert (Hok : ∀ i, (i < N.to_nat num)%nat ->
            ∃ q, kll_sketch.get_quantile s (evenly_spaced_fraction (N.of_nat i) num)
                 = Ok q).
  { intros i Hi. apply Hans. apply evenly_spaced_fraction_in_range; [done | lia]. }
  destruct (evenly_spaced_completes w h s num rs Hn Hs ltac:(lia) Hlen Hok)
    as (rs' & Hcall & Hl & Hin & Hout).
  exists rs'. split; [done |]. split; [done |]. split; [| done].
  intros i Hi. destruct (Hok i Hi) as [q Hq]. exists q. split; [done |].
  by apply Hin.
Qed.
End EvenlySpacedRange.

(** X16.  For [2 <= num] (a [uint32_t]), the first fraction that
    [get_quantiles_evenly_spaced] computes, [0 / (num - 1)], is exactly [0.0],
    and the last, [(num - 1) / (num - 1)], is exactly [1.0].  So when the
    queries are answered, [results[0]] is the quantile of [0.0] and
    [results[num - 1]] the quantile of [1.0]. *)
Theorem evenly_spaced_end_points :
  (∀ num : N, 2 <= num < 2 ^ 32 ->
     KllFloat.fraction_of 0 num = double_zero
     ∧ KllFloat.fraction_of (num - 1) num = double_one
     ∧ KllDouble.fraction_of 0 num = double_zero
     ∧ KllDouble.fraction_of (num - 1) num = double_one)
  ∧ (∀ (E : kll_sketch.engine float) (w : world E) (h : handle)
       (s : kll_sketch.sketch) (num : N) (rs : list float),
      is_null h = false -> deref w h = Some s ->
      2 <= num < 2 ^ 32 -> (N.to_nat num ≤ length rs)%nat ->
      (∀ i, (i < N.to_nat num)%nat ->
            ∃ q, kll_sketch.get_quantile s (KllFloat.fraction_of (N.of_nat i) num)
                 = Ok q) ->
      ∃ rs' q0 q1,
        KllFloat.kll_float_sketch_get_quantiles_evenly_spaced w h num (Some rs)
        = Returns (Some rs')
        ∧ kll_sketch.get_quantile s double_zero = Ok q0
        ∧ rs' !! 0%nat = Some q0
        ∧ kll_sketch.get_quantile s double_one = Ok q1
        ∧ rs' !! (N.to_nat num - 1)%nat = Some q1)
  ∧ (∀ (E : kll_sketch.engine double) (w : world E) (h : handle)
       (s : kll_sketch.sketch) (num : N) (rs : list double),
      is_null h = false -> deref w h = Some s ->
      2 <= num < 2 ^ 32 -> (N.to_nat num ≤ length rs)%nat ->
      (∀ i, (i < N.to_nat num)%nat ->
            ∃ q, kll_sketch.get_quantile s (KllDouble.fraction_of (N.of_nat i) num)
                 = Ok q) ->
      ∃ rs' q0 q1,
        KllDouble.kll_double_sketch_get_quantiles_evenly_spaced w h num (Some rs)
        = Returns (Some rs')
        ∧ kll_sketch.get_quantile s double_zero = Ok q0
        ∧ rs' !! 0%nat = Some q0
        ∧ kll_sketch.get_quantile s double_one = Ok q1
        ∧ rs' !! (N.to_nat num - 1)%nat = Some q1).
Proof.
  split; [| split].
  - intros num Hnum.
    pose proof (evenly_spaced_fraction_first num Hnum) as Hfirst.
    pose proof (evenly_spaced_fraction_last num Hnum) as Hlast.
    split; [exact Hfirst |]. split; [exact Hlast |].
    split; [exact Hfirst | exact Hlast].
  - intros E w h s num rs. exact (evenly_spaced_ends w h s num rs).
  - intros E w h s num rs. exact (evenly_spaced_ends w h s num rs).
Qed.

Lemma evenly_spaced_end_points_witness :
  KllFloat.fraction_of 0 1000000 = double_zero
  ∧ KllFloat.fraction_of (1000000 - 1) 1000000 = double_one.
Proof.
  destruct (proj1 evenly_spaced_end_points 1000000) as (H0 & H1 & _).
  - change (2 ^ 32) with 4294967296. lia.
  - split; [exact H0 | exact H1].
Defined.

(** X17.  For [2 <= num] (a [uint32_t]) every fraction [i / (num - 1)],
    [i < num], that [get_quantiles_evenly_spaced] passes to the engine lies in
    [0,1].  So on a sketch for which the engine answers every fraction in
    [0,1], the call with a results array of at least [num] cells fills every
    cell [i < num] with the quantile of [i / (num - 1)], and leaves the
    others. *)
Theorem evenly_spaced_fractions_in_unit_range :
  (∀ i num : N, 2 <= num < 2 ^ 32 -> i < num ->
     in_unit_range (KllFloat.fraction_of i num) = true
     ∧ in_unit_range (KllDouble.fraction_of i num) = true)
  ∧ (∀ (E : kll_sketch.engine float) (w : world E) (h : handle)
       (s : kll_sketch.sketch) (num : N) (rs : list float),
      is_null h = false -> deref w h = Some s ->
      2 <= num < 2 ^ 32 -> (N.to_nat num ≤ length rs)%nat ->
      (∀ f, in_unit_range f = true -> ∃ q, kll_sketch.get_quantile s f = Ok q) ->
      ∃ rs',
        KllFloat.kll_float_sketch_get_quantiles_evenly_spaced w h num (Some rs)
        = Returns (Some rs')
        ∧ length rs' = length rs
        ∧ (∀ i, (i < N.to_nat num)%nat ->
                ∃ q, kll_sketch.get_quantile s
                       (KllFloat.fraction_of (N.of_nat i) num) = Ok q
                     ∧ rs' !! i = Some q)
        ∧ (∀ i, (N.to_nat num ≤ i)%nat -> rs' !! i = rs !! i))
  ∧ (∀ (E : kll_sketch.engine double) (w : world E) (h : handle)
       (s : kll_sketch.sketch) (num : N) (rs : list double),
      is_null h = false -> deref w h = Some s ->
      2 <= num < 2 ^ 32 -> (N.to_nat num ≤ length rs)%nat ->
      (∀ f, in_unit_range f = true -> ∃ q, kll_sketch.get_quantile s f = Ok q) ->
      ∃ rs',
        KllDouble.kll_double_sketch_get_quantiles_evenly_spaced w h num (Some rs)
        = Returns (Some rs')
        ∧ length rs' = length rs
        ∧ (∀ i, (i < N.to_nat num)%nat ->
                ∃ q, kll_sketch.get_quantile s
                       (KllDouble.fraction_of (N.of_nat i) num) = Ok q
                     ∧ rs' !! i = Some q)
        ∧ (∀ i, (N.to_nat num ≤ i)%nat -> rs' !! i = rs !! i)).
Proof.
  split; [| split].
  - intros i num Hnum Hi.
    pose proof (evenly_spaced_fraction_in_range i num Hnum Hi) as Hin.
    split; exact Hin.
  - intros E w h s num rs. exact (evenly_spaced_fills w h s num rs).
  - intros E w h s num rs. exact (evenly_spaced_fills w h s num rs).
Qed.

Lemma evenly_spaced_fractions_in_unit_range_witness :
  in_unit_range (KllFloat.fraction_of 333333 1000000) = true
  ∧ ∃ rs',
      KllFloat.kll_float_sketch_get_quantiles_evenly_spaced (filled32 3) 1 3
        (Some (replicate 3 float_zero)) = Returns (Some rs')
      ∧ length rs' = 3%nat.
Proof.
  destruct evenly_spaced_fractions_in_unit_range as (Hrange & Hfloat & _).
  split.
  - apply (Hrange 333333 1000000); [change (2 ^ 32) with 4294967296 |]; lia.
  - destruct (Hfloat E32 (filled32 3) 1 demo_sketch32 3 (replicate 3 float_zero))
      as (rs' & Hcall & Hlen & _).
    + reflexivity.
    + vm_compute. reflexivity.
    + change (2 ^ 32) with 4294967296. lia.
    + simpl. lia.
    + intros f Hf.
      assert (H1 : in_unit_range double_one = true) by (vm_compute; reflexivity).
      assert (Hq : @kll_sketch.get_quantile float E32 demo_sketch32 double_one
                   = Ok (float_of_Z 3)) by (vm_compute; reflexivity).
      exact (quantile_uniform (E := E32) demo_sketch32 double_one f (float_of_Z 3)
               H1 Hf Hq).
    + exists rs'. split; [exact Hcall | exact Hlen].
Defined.

Section SerializeThenDeserialize.
Context {T : Type} {I : Item T} {E : kll_sketch.engine T}.

Lemma serialize_then_deserialize (w : world E) (h : handle)
  (s : kll_sketch.sketch) (bytes : list byte) (n : N) :
  is_null h = false -> deref w h = Some s ->
  kll_sketch.serialize s = Ok bytes ->
  kll_sketch_serialize w h (Some n)
  = Returns (Some bytes, Some (N.of_nat (length bytes)))
  ∧ (∀ s', bytes ≠ [] -> kll_sketch.deserialize bytes = Ok s' ->
       ∃ h' w', kll_sketch_deserialize w (Some bytes) (N.of_nat (length bytes))
                = Returns (h', w')
                ∧ is_null h' = false ∧ h' ≠ h
                ∧ deref w' h' = Some s' ∧ deref w' h = Some s)
  ∧ (∀ e, kll_sketch.deserialize bytes = Throw e ->
          kll_sketch_deserialize w (Some bytes) (N.of_nat (length bytes))
          = Returns (nullptr, w))
  ∧ (bytes = [] ->
     kll_sketch_deserialize w (Some bytes) (N.of_nat (length bytes))
     = Returns (nullptr, w)).
Proof.
  intros Hn Hs Hser. split; [| split; [| split]].
  - unfold kll_sketch_serialize. by rewrite Hn, Hs, Hser.
  - intros s' Hne Hde.
    destruct (deserialize_allocated w bytes (N.of_nat (length bytes)))
      as (h' & w' & Hcall & Halloc).
    { destruct bytes; [done | simpl; lia]. }
    { lia. }
    rewrite Nat2N.id, firstn_all, Hde in Halloc.
    destruct Halloc as (Hnn & Hfree & Hlive & Hframe & _).
    exists h', w'. split; [done |].
    split; [by apply N.eqb_neq |].
    assert (Hdiff : h' ≠ h) by (intros ->; congruence).
    split; [done |]. split; [done |].
    rewrite Hframe by done. exact Hs.
  - intros e Hde. unfold kll_sketch_deserialize. cbn [null_array orb].
    destruct (N.of_nat (length bytes) =? 0); [done |].
    rewrite N.ltb_irrefl, Nat2N.id, firstn_all, Hde. done.
  - intros ->. reflexivity.
Qed.
End SerializeThenDeserialize.

(** X18.  On a live handle for which the engine's [serialize] returns
    [bytes], [serialize] returns a buffer with these bytes and their number in
    [*size].  Passing that buffer and size to [deserialize]: when the engine
    decodes the bytes, the call returns a new handle, not null and different
    from the first, which points to the decoded sketch, and the first handle
    still points to its sketch; when the engine throws, it returns null; and
    when the serialization is empty it returns null without calling the
    engine, because of the [size == 0] guard. *)
Theorem serialize_then_deserialize_gives_a_second_handle :
  (∀ (E : kll_sketch.engine float) (w : world E) (h : handle)
     (s : kll_sketch.sketch) (bytes : list byte) (n : N),
      is_null h = false -> deref w h = Some s ->
      kll_sketch.serialize s = Ok bytes ->
      KllFloat.kll_float_sketch_serialize w h (Some n)
      = Returns (Some bytes, Some (N.of_nat (length bytes)))
      ∧ (∀ s', bytes ≠ [] -> kll_sketch.deserialize bytes = Ok s' ->
           ∃ h' w', KllFloat.kll_float_sketch_deserialize w (Some bytes)
                      (N.of_nat (length bytes)) = Returns (h', w')
                    ∧ is_null h' = false ∧ h' ≠ h
                    ∧ deref w' h' = Some s' ∧ deref w' h = Some s)
      ∧ (∀ e, kll_sketch.deserialize bytes = Throw e ->
              KllFloat.kll_float_sketch_deserialize w (Some bytes)
                (N.of_nat (length bytes)) = Returns (nullptr, w))
      ∧ (bytes = [] ->
         KllFloat.kll_float_sketch_deserialize w (Some bytes)
           (N.of_nat (length bytes)) = Returns (nullptr, w)))
  ∧ (∀ (E : kll_sketch.engine double) (w : world E) (h : handle)
       (s : kll_sketch.sketch) (bytes : list byte) (n : N),
      is_null h = false -> deref w h = Some s ->
      kll_sketch.serialize s = Ok bytes ->
      KllDouble.kll_double_sketch_serialize w h (Some n)
      = Returns (Some bytes, Some (N.of_nat (length bytes)))
      ∧ (∀ s', bytes ≠ [] -> kll_sketch.deserialize bytes = Ok s' ->
           ∃ h' w', KllDouble.kll_double_sketch_deserialize w (Some bytes)
                      (N.of_nat (length bytes)) = Returns (h', w')
                    ∧ is_null h' = false ∧ h' ≠ h
                    ∧ deref w' h' = Some s' ∧ deref w' h = Some s)
      ∧ (∀ e, kll_sketch.deserialize bytes = Throw e ->
              KllDouble.kll_double_sketch_deserialize w (Some bytes)
                (N.of_nat (length bytes)) = Returns (nullptr, w))
      ∧ (bytes = [] ->
         KllDouble.kll_double_sketch_deserialize w (Some bytes)
           (N.of_nat (length bytes)) = Returns (nullptr, w))).
Proof.
  split; intros E w h s bytes n.
  - exact (serialize_then_deserialize w h s bytes n).
  - exact (serialize_then_deserialize w h s bytes n).
Qed.

Lemma serialize_then_deserialize_gives_a_second_handle_witness :
  ∃ h' w', KllFloat.kll_float_sketch_deserialize (filled32 3) (Some demo_bytes32)
             (N.of_nat (length demo_bytes32)) = Returns (h', w')
           ∧ is_null h' = false ∧ h' ≠ 1
           ∧ deref w' h' = Some demo_sketch32 ∧ deref w' 1 = Some demo_sketch32.
Proof.
  destruct (proj1 serialize_then_deserialize_gives_a_second_handle E32 (filled32 3)
              1 demo_sketch32 demo_bytes32 0) as (_ & Hok & _).
  - reflexivity.
  - vm_compute. reflexivity.
  - vm_compute. reflexivity.
  - apply (Hok demo_sketch32).
    + vm_compute. discriminate.
    + vm_compute. reflexivity.
Defined.
